(** * Artifactor frontend: streaming progress tracker and chat session

    A shallow embedding of the two stateful client components of the
    Artifactor frontend:

    - [AnalysisProgress] (components/analysis-progress.tsx): stage list,
      authoritative/derived progress percentage, elapsed ticker, ETA and
      the out-of-band pause request;
    - [useChat] (hooks/use-chat.ts): transcript of chat turns with one
      in-flight assistant placeholder.

    React state ([useState]) and refs ([useRef]) become fields of a state
    record that every handler transforms; the environment the handlers
    act on (live interval timers, the log of prop callbacks that were
    invoked, requests that were issued) is part of the same record, so
    that "the callback fired once" is a statement about that log.

    JavaScript numbers are IEEE 754 doubles. A number that arrives in a
    payload is the finite double the JSON parser produced and is carried
    as the rational it denotes ([Q]); a result of arithmetic is a
    [Js.num], a finite double or an infinity or NaN, and every operation
    rounds the exact result to the nearest double, ties to even. *)

From Stdlib Require Import QArith Qround Qpower Ascii DecimalString Lqa.
From stdpp Require Import base list strings numbers.

Open Scope Z_scope.

(** ** JavaScript helpers *)

Module Js.

(** Truthiness of a string: every string but the empty one. *)
Definition truthy (s : string) : bool := negb (String.eqb s "").

(** Truthiness of an optional (possibly [undefined]) string. *)
Definition truthyOpt (o : option string) : bool :=
  match o with Some s => truthy s | None => false end.

(** [a || b] on an optional string. *)
Definition orStr (o : option string) (d : string) : string :=
  match o with
  | Some s => if truthy s then s else d
  | None => d
  end.

(** [a ?? b] on an optional string. *)
Definition nullishStr (o : option string) (d : string) : string :=
  match o with Some s => s | None => d end.

(** [a || b] on an optional number: [undefined] and [0] are falsy. *)
Definition orNum (o : option Q) (d : Q) : Q :=
  match o with
  | Some q => if Qeq_bool q 0%Q then d else q
  | None => d
  end.

(** [a ?? b] on an optional number. *)
Definition nullishNum (o : option Q) (d : Q) : Q :=
  match o with Some q => q | None => d end.

(** *** Numbers

    A finite double is carried as the rational it denotes; the two
    infinities and NaN are values of their own. The sign of a zero is
    not tracked: the code modelled here never divides by a zero, and a
    zero prints and compares the same under either sign. *)
Inductive num := Fin (q : Q) | PInf | NInf | NaN.

Definition ofZ (z : Z) : num := Fin (inject_Z z).

Definition ofNat (n : nat) : num := ofZ (Z.of_nat n).

(** The rational a finite number denotes. It is applied only to numbers
    that are shown to be finite. *)
Definition finite (a : num) : Q :=
  match a with Fin q => q | _ => 0%Q end.

Definition pow2 (z : Z) : Q := (2 ^ z)%Q.

(** The binary exponent [e] of a positive rational:
    [2^e <= a < 2^(e+1)]. *)
Definition ilog2 (a : Q) : Z :=
  let e0 := Z.log2 (Qnum a) - Z.log2 (Z.pos (Qden a)) in
  if Qle_bool (pow2 e0) a then e0 else e0 - 1.

(** The nearest integer, a tie going to the even one. *)
Definition rne (z : Q) : Z :=
  let f := Qfloor z in
  match (z - inject_Z f ?= 1 # 2)%Q with
  | Lt => f
  | Gt => f + 1
  | Eq => if Z.even f then f else f + 1
  end.

(** The exponent of the last place of a double in the binade of [a]:
    53 significant bits, the same spacing for all subnormals. *)
Definition ulpExp (a : Q) : Z := Z.max (ilog2 a) (-1022) - 52.

(** A positive rational rounded to the nearest multiple of the last
    place of its binade. *)
Definition rndPos (a : Q) : Q :=
  (inject_Z (rne (a * pow2 (- ulpExp a))) * pow2 (ulpExp a))%Q.

(** Round to nearest, ties to even, the exponent not bounded above. *)
Definition rndQ (x : Q) : Q :=
  match (x ?= 0)%Q with
  | Eq => 0%Q
  | Gt => rndPos x
  | Lt => (- rndPos (- x))%Q
  end.

(** The double an exact result becomes: the rounded value, or an
    infinity when its magnitude reaches [2^1024]. *)
Definition rnd (x : Q) : num :=
  let r := rndQ x in
  if Qle_bool (pow2 1024) r then PInf
  else if Qle_bool r (- pow2 1024) then NInf
  else Fin (Qred r).

(** [a + b] *)
Definition add (a b : num) : num :=
  match a, b with
  | Fin x, Fin y => rnd (x + y)
  | NaN, _ | _, NaN => NaN
  | PInf, NInf | NInf, PInf => NaN
  | PInf, _ | _, PInf => PInf
  | NInf, _ | _, NInf => NInf
  end.

(** An infinity times a finite number. *)
Definition scaleInf (positive : bool) (x : Q) : num :=
  match (x ?= 0)%Q with
  | Eq => NaN
  | Gt => if positive then PInf else NInf
  | Lt => if positive then NInf else PInf
  end.

(** [a * b] *)
Definition mul (a b : num) : num :=
  match a, b with
  | Fin x, Fin y => rnd (x * y)
  | NaN, _ | _, NaN => NaN
  | Fin x, PInf | PInf, Fin x => scaleInf true x
  | Fin x, NInf | NInf, Fin x => scaleInf false x
  | PInf, PInf | NInf, NInf => PInf
  | PInf, NInf | NInf, PInf => NInf
  end.

(** [a / b]; a zero divisor is taken as [+0]. *)
Definition div (a b : num) : num :=
  match a, b with
  | NaN, _ | _, NaN => NaN
  | Fin x, Fin y =>
      match (y ?= 0)%Q with
      | Eq => match (x ?= 0)%Q with Eq => NaN | Gt => PInf | Lt => NInf end
      | _ => rnd (x / y)
      end
  | Fin _, (PInf | NInf) => Fin 0
  | PInf, Fin y => if Qle_bool 0 y then PInf else NInf
  | NInf, Fin y => if Qle_bool 0 y then NInf else PInf
  | (PInf | NInf), (PInf | NInf) => NaN
  end.

(** [a % b]: the remainder has the sign of the dividend and is exact. *)
Definition rem (a b : num) : num :=
  match a, b with
  | Fin x, Fin y =>
      if Qeq_bool y 0 then NaN
      else
        let t := (x / y)%Q in
        Fin (Qred (x - y * inject_Z (Z.quot (Qnum t) (Z.pos (Qden t)))))
  | Fin x, (PInf | NInf) => Fin x
  | _, _ => NaN
  end.

(** [a > b]; every comparison with NaN is false. *)
Definition gt (a b : num) : bool :=
  match a, b with
  | Fin x, Fin y => negb (Qle_bool x y)
  | Fin _, NInf | PInf, Fin _ | PInf, NInf => true
  | _, _ => false
  end.

(** [a < b] *)
Definition lt (a b : num) : bool := gt b a.

(** The nearest integer to a rational, halves rounded up. *)
Definition roundHalfUp (x : Q) : Z := Qfloor (x + (1 # 2))%Q.

(** [Math.round]: exact on a double, whose nearest integer is a double
    again. *)
Definition Math_round (a : num) : num :=
  match a with
  | Fin x => ofZ (roundHalfUp x)
  | _ => a
  end.

(** [Math.floor] *)
Definition Math_floor (a : num) : num :=
  match a with
  | Fin x => ofZ (Qfloor x)
  | _ => a
  end.

(** [Array.prototype.findIndex]: the first index whose element satisfies
    [p], or [-1]. *)
Fixpoint findIndex {A : Type} (p : A -> bool) (l : list A) : Z :=
  match l with
  | [] => -1
  | x :: l' =>
      if p x then 0
      else let i := findIndex p l' in
           if i <? 0 then -1 else i + 1
  end.

(** [Array.prototype.findLast]. *)
Definition findLast {A : Type} (p : A -> bool) (l : list A) : option A :=
  head (filter (fun x => p x = true) (reverse l)).

(** The decimal digits of an integer, with a minus sign when negative:
    what a template literal prints for an integer below [2^53] in
    magnitude. (Beyond that, JavaScript prints the shortest digits that
    read back as the same double, and exponent notation from 1e21 on.) *)
Definition showInt (z : Z) : string := NilZero.string_of_int (Z.to_int z).

(** [Array.prototype.join] on strings. *)
Fixpoint join (sep : string) (l : list string) : string :=
  match l with
  | [] => ""
  | [x] => x
  | x :: l' => (x ++ sep ++ join sep l')%string
  end.

(** [String.prototype.split] with a one-character separator: never the
    empty array, the empty string splits into one empty piece. *)
Fixpoint split (sep : Ascii.ascii) (s : string) : list string :=
  match s with
  | EmptyString => [""]
  | String c s' =>
      if Ascii.eqb c sep then "" :: split sep s'
      else match split sep s' with
           | [] => [String c ""]
           | x :: xs => String c x :: xs
           end
  end.

(** [s.replace(/c+$/, "")]: the trailing run of [c] removed. *)
Fixpoint stripTrailing (c : Ascii.ascii) (s : string) : string :=
  match s with
  | EmptyString => ""
  | String a s' =>
      match stripTrailing c s' with
      | EmptyString => if Ascii.eqb a c then "" else String a ""
      | r => String a r
      end
  end.

End Js.

(** ** The progress tracker *)

Module AnalysisProgress.

Record Stage := {
  stage_name : string;
  stage_label : string;
  stage_status : string;
  stage_message : string;
  stage_duration_ms : Q
}.

Record CompleteSummary := {
  sum_project_id : string;
  sum_sections : Q;
  sum_stages_ok : Q;
  sum_stages_failed : Q;
  sum_duration_ms : Q
}.

Inductive AnalysisEventType := EvIdle | EvStage | EvComplete | EvPaused | EvError.

Record ProgressInfo := {
  completed : Q;
  total : Q;
  percent : Q
}.

(** The loose payload type: every field is optional. *)
Record AnalysisEventData := {
  data_message : option string;
  data_name : option string;
  data_status : option string;
  data_duration_ms : option Q;
  data_completed : option Q;
  data_total : option Q;
  data_percent : option Q;
  data_project_id : option string;
  data_sections : option Q;
  data_stages_ok : option Q;
  data_stages_failed : option Q;
  data_label : option string;
  data_error : option string
}.

Record Props := {
  projectId : string;
  compact : bool;
  (** [onPaused] is optional: [true] when a handler was supplied. *)
  onPaused : bool
}.

(** Prop callbacks, as entries of the invocation log. *)
Inductive Callback := CbComplete | CbError | CbPaused.

#[global] Instance Callback_eq_dec : EqDecision Callback.
Proof. solve_decision. Defined.

(** What the hook [useSSEStream] exposes as [state]. *)
Record SSEState := {
  isStreaming : bool;
  error : option string
}.

Record State := {
  (* useState *)
  stages : list Stage;
  summary : option CompleteSummary;
  progress : option ProgressInfo;
  elapsedMs : Z;
  isPausing : bool;
  (* useRef *)
  startTimeRef : Z;
  timerRef : option positive;
  startedRef : bool;
  (* the hook's state *)
  state : SSEState;
  (* environment *)
  liveTimers : list positive;   (* intervals scheduled and not cleared *)
  nextTimer : positive;         (* next id [setInterval] hands out *)
  calls : list Callback;        (* prop callbacks invoked, oldest first *)
  pauseRequests : nat           (* POST /pause requests issued *)
}.

(** *** Field updates *)

Definition setStages (f : list Stage -> list Stage) (st : State) : State :=
  {| stages := f (stages st); summary := summary st; progress := progress st;
     elapsedMs := elapsedMs st; isPausing := isPausing st;
     startTimeRef := startTimeRef st; timerRef := timerRef st;
     startedRef := startedRef st; state := state st;
     liveTimers := liveTimers st; nextTimer := nextTimer st;
     calls := calls st; pauseRequests := pauseRequests st |}.

Definition setSummary (v : option CompleteSummary) (st : State) : State :=
  {| stages := stages st; summary := v; progress := progress st;
     elapsedMs := elapsedMs st; isPausing := isPausing st;
     startTimeRef := startTimeRef st; timerRef := timerRef st;
     startedRef := startedRef st; state := state st;
     liveTimers := liveTimers st; nextTimer := nextTimer st;
     calls := calls st; pauseRequests := pauseRequests st |}.

Definition setProgress (v : option ProgressInfo) (st : State) : State :=
  {| stages := stages st; summary := summary st; progress := v;
     elapsedMs := elapsedMs st; isPausing := isPausing st;
     startTimeRef := startTimeRef st; timerRef := timerRef st;
     startedRef := startedRef st; state := state st;
     liveTimers := liveTimers st; nextTimer := nextTimer st;
     calls := calls st; pauseRequests := pauseRequests st |}.

Definition setElapsedMs (v : Z) (st : State) : State :=
  {| stages := stages st; summary := summary st; progress := progress st;
     elapsedMs := v; isPausing := isPausing st;
     startTimeRef := startTimeRef st; timerRef := timerRef st;
     startedRef := startedRef st; state := state st;
     liveTimers := liveTimers st; nextTimer := nextTimer st;
     calls := calls st; pauseRequests := pauseRequests st |}.

Definition setIsPausing (v : bool) (st : State) : State :=
  {| stages := stages st; summary := summary st; progress := progress st;
     elapsedMs := elapsedMs st; isPausing := v;
     startTimeRef := startTimeRef st; timerRef := timerRef st;
     startedRef := startedRef st; state := state st;
     liveTimers := liveTimers st; nextTimer := nextTimer st;
     calls := calls st; pauseRequests := pauseRequests st |}.

Definition setStartTime (v : Z) (st : State) : State :=
  {| stages := stages st; summary := summary st; progress := progress st;
     elapsedMs := elapsedMs st; isPausing := isPausing st;
     startTimeRef := v; timerRef := timerRef st;
     startedRef := startedRef st; state := state st;
     liveTimers := liveTimers st; nextTimer := nextTimer st;
     calls := calls st; pauseRequests := pauseRequests st |}.

Definition setStarted (v : bool) (st : State) : State :=
  {| stages := stages st; summary := summary st; progress := progress st;
     elapsedMs := elapsedMs st; isPausing := isPausing st;
     startTimeRef := startTimeRef st; timerRef := timerRef st;
     startedRef := v; state := state st;
     liveTimers := liveTimers st; nextTimer := nextTimer st;
     calls := calls st; pauseRequests := pauseRequests st |}.

Definition setSSE (v : SSEState) (st : State) : State :=
  {| stages := stages st; summary := summary st; progress := progress st;
     elapsedMs := elapsedMs st; isPausing := isPausing st;
     startTimeRef := startTimeRef st; timerRef := timerRef st;
     startedRef := startedRef st; state := v;
     liveTimers := liveTimers st; nextTimer := nextTimer st;
     calls := calls st; pauseRequests := pauseRequests st |}.

(** [invoke cb]: a prop callback runs; the log records it. *)
Definition invoke (cb : Callback) (st : State) : State :=
  {| stages := stages st; summary := summary st; progress := progress st;
     elapsedMs := elapsedMs st; isPausing := isPausing st;
     startTimeRef := startTimeRef st; timerRef := timerRef st;
     startedRef := startedRef st; state := state st;
     liveTimers := liveTimers st; nextTimer := nextTimer st;
     calls := calls st ++ [cb]; pauseRequests := pauseRequests st |}.

(** [timerRef.current = setInterval(...)]: a fresh interval starts and
    the ref points at it; an interval the ref pointed at before is not
    cleared by this assignment. *)
Definition setIntervalRef (st : State) : State :=
  {| stages := stages st; summary := summary st; progress := progress st;
     elapsedMs := elapsedMs st; isPausing := isPausing st;
     startTimeRef := startTimeRef st; timerRef := Some (nextTimer st);
     startedRef := startedRef st; state := state st;
     liveTimers := nextTimer st :: liveTimers st;
     nextTimer := Pos.succ (nextTimer st);
     calls := calls st; pauseRequests := pauseRequests st |}.

(** [if (timerRef.current) clearInterval(timerRef.current)]: the ref
    keeps its value; clearing an interval that is not live does nothing. *)
Definition clearTimer (st : State) : State :=
  match timerRef st with
  | Some id =>
      {| stages := stages st; summary := summary st; progress := progress st;
         elapsedMs := elapsedMs st; isPausing := isPausing st;
         startTimeRef := startTimeRef st; timerRef := timerRef st;
         startedRef := startedRef st; state := state st;
         liveTimers := filter (fun t => t <> id) (liveTimers st);
         nextTimer := nextTimer st;
         calls := calls st; pauseRequests := pauseRequests st |}
  | None => st
  end.

Definition issuePauseRequest (st : State) : State :=
  {| stages := stages st; summary := summary st; progress := progress st;
     elapsedMs := elapsedMs st; isPausing := isPausing st;
     startTimeRef := startTimeRef st; timerRef := timerRef st;
     startedRef := startedRef st; state := state st;
     liveTimers := liveTimers st; nextTimer := nextTimer st;
     calls := calls st; pauseRequests := S (pauseRequests st) |}.

(** The elapsed ticker runs when the interval the ref points at is live. *)
Definition tickerRunning (st : State) : bool :=
  match timerRef st with
  | Some id => bool_decide (id ∈ liveTimers st)
  | None => false
  end.

(** [onPaused?.()] *)
Definition callOnPaused (props : Props) (st : State) : State :=
  if onPaused props then invoke CbPaused st else st.

(** *** Stream handlers *)

Definition extractResult (data : AnalysisEventData) : option CompleteSummary :=
  match data_project_id data, data_sections data with
  | Some pid, Some secs =>
      if Js.truthy pid then
        Some {| sum_project_id := pid;
                sum_sections := secs;
                sum_stages_ok := Js.nullishNum (data_stages_ok data) 0%Q;
                sum_stages_failed := Js.nullishNum (data_stages_failed data) 0%Q;
                sum_duration_ms := Js.nullishNum (data_duration_ms data) 0%Q |}
      else None
  | _, _ => None
  end.

(** The record a named event is turned into. *)
Definition stageOf (n : string) (data : AnalysisEventData) : Stage :=
  {| stage_name := n;
     stage_label := Js.nullishStr (data_label data) n;
     stage_status := Js.orStr (data_status data) "running";
     stage_message := Js.orStr (data_message data) "";
     stage_duration_ms := Js.orNum (data_duration_ms data) 0%Q |}.

(** The updater passed to [setStages]. The index comes from [findIndex]
    over the same list, so the store is always in range. *)
Definition upsert (stage : Stage) (prev : list Stage) : list Stage :=
  let idx := Js.findIndex
               (fun s => String.eqb (stage_name s) (stage_name stage)) prev in
  if 0 <=? idx then <[Z.to_nat idx := stage]> prev
  else prev ++ [stage].

(** The snapshot an event carries, when all three fields are present. *)
Definition snapshotOf (data : AnalysisEventData) : option ProgressInfo :=
  match data_completed data, data_total data, data_percent data with
  | Some c, Some t, Some p =>
      Some {| completed := c; total := t; percent := p |}
  | _, _, _ => None
  end.

Definition onUpdate (props : Props)
    (event : AnalysisEventType) (data : AnalysisEventData)
    (st : State) : State :=
  match event with
  | EvPaused => callOnPaused props (clearTimer st)
  | _ =>
      match data_name data with
      | Some n =>
          if Js.truthy n then
            let st1 := setStages (upsert (stageOf n data)) st in
            match snapshotOf data with
            | Some p => setProgress (Some p) st1
            | None => st1
            end
          else st
      | None => st
      end
  end.

Definition onComplete (result : CompleteSummary) (st : State) : State :=
  invoke CbComplete (clearTimer (setSummary (Some result) st)).

Definition onError (st : State) : State :=
  invoke CbError (clearTimer st).

(** *** Hook state *)

(** Modelled from the spec: the hook [useSSEStream] comes from the
    package @agenisea/sse-kit, which is not part of this repository.
    Following the specification of the stream session, [reset] clears
    the last error and returns to idle, [start] enters streaming, a
    completion or an error ends streaming, and an error records its
    message. *)

Definition sseReset (s : SSEState) : SSEState :=
  {| isStreaming := false; error := None |}.

Definition sseStart (s : SSEState) : SSEState :=
  {| isStreaming := true; error := error s |}.

Definition sseComplete (s : SSEState) : SSEState :=
  {| isStreaming := false; error := error s |}.

Definition sseError (msg : string) (s : SSEState) : SSEState :=
  {| isStreaming := false; error := Some msg |}.

(** *** Actions of the component *)

(** [now] is the value of [Date.now()]. *)
Definition startAnalysis (now : Z) (st : State) : State :=
  let st := setStages (fun _ => []) st in
  let st := setSummary None st in
  let st := setProgress None st in
  let st := setElapsedMs 0 st in
  let st := setStartTime now st in
  let st := setIntervalRef st in
  let st := setSSE (sseReset (state st)) st in
  setSSE (sseStart (state st)) st.

(** The interval callback. *)
Definition tick (now : Z) (st : State) : State :=
  setElapsedMs (now - startTimeRef st) st.

(** The mount effect and its cleanup. *)
Definition mount (now : Z) (st : State) : State :=
  if startedRef st then st
  else startAnalysis now (setStarted true st).

Definition unmount (st : State) : State := clearTimer st.

(** How the pause request settles: the response parsed to [data], of
    which only the truthiness of [data.success] is read, or an exception
    from [fetch] or [res.json()]. *)
Inductive PauseOutcome :=
| Resolved (success : bool)
| Threw.

(** [handlePause] up to its [await]: the guard, the flag, the request. *)
Definition handlePause_request (st : State) : State :=
  if isPausing st then st
  else issuePauseRequest (setIsPausing true st).

(** [handlePause] after the [await], for a request that was issued. *)
Definition handlePause_settle (props : Props) (o : PauseOutcome)
    (st : State) : State :=
  match o with
  | Resolved true => callOnPaused props (clearTimer st)
  | Resolved false => setIsPausing false st
  | Threw => setIsPausing false st
  end.

Inductive Action :=
| Start (now : Z)
| Tick (now : Z)
| Update (event : AnalysisEventType) (data : AnalysisEventData)
| Complete (result : CompleteSummary)
| Error (msg : string)
| PauseClick
| PauseSettle (o : PauseOutcome).

Definition step (props : Props) (st : State) (a : Action) : State :=
  match a with
  | Start now => startAnalysis now st
  | Tick now => tick now st
  | Update event data => onUpdate props event data st
  | Complete result =>
      onComplete result (setSSE (sseComplete (state st)) st)
  | Error msg => onError (setSSE (sseError msg (state st)) st)
  | PauseClick => handlePause_request st
  | PauseSettle o => handlePause_settle props o st
  end.

Definition run (props : Props) (acts : list Action) (st : State) : State :=
  fold_left (step props) acts st.

(** The state before the mount effect has run. *)
Definition initial (now : Z) : State :=
  {| stages := []; summary := None; progress := None; elapsedMs := 0;
     isPausing := false; startTimeRef := now; timerRef := None;
     startedRef := false; state := {| isStreaming := false; error := None |};
     liveTimers := []; nextTimer := 1%positive; calls := [];
     pauseRequests := 0 |}.

(** *** Values derived at render time *)

Definition isDone (s : Stage) : Prop := stage_status s = "done".

Definition isPending (s : Stage) : Prop :=
  stage_status s = "running" \/ stage_status s = "pending".

#[global] Instance isDone_dec (s : Stage) : Decision (isDone s).
Proof. unfold isDone. apply _. Defined.

#[global] Instance isPending_dec (s : Stage) : Decision (isPending s).
Proof. unfold isPending. apply _. Defined.

Definition currentStage (st : State) : option Stage :=
  match Js.findLast (fun s => String.eqb (stage_status s) "running") (stages st) with
  | Some s => Some s
  | None => head (reverse (stages st))
  end.

(** The fallback of [overallPercent]. With a non-empty list the rounded
    value is a finite integer between 0 and 100 (see
    [derivedPercent_finite]), so that [Js.finite] loses nothing. *)
Definition derivedPercent (ss : list Stage) : Q :=
  if (0 <? length ss)%nat then
    Js.finite
      (Js.Math_round
         (Js.mul
            (Js.div (Js.ofNat (length (filter isDone ss)))
                    (Js.ofNat (length ss)))
            (Js.ofZ 100)))
  else 0%Q.

Definition overallPercent (st : State) : Q :=
  match progress st with
  | Some p => percent p
  | None => derivedPercent (stages st)
  end.

Definition completedStages (ss : list Stage) : list Stage :=
  filter isDone ss.

Definition avgMs (ss : list Stage) : Js.num :=
  if (2 <=? length (completedStages ss))%nat then
    Js.div
      (fold_left (fun sum s => Js.add sum (Js.Fin (stage_duration_ms s)))
         (completedStages ss) (Js.ofZ 0))
      (Js.ofNat (length (completedStages ss)))
  else Js.ofZ 0.

Definition pendingCount (ss : list Stage) : nat :=
  length (filter isPending ss).

Definition estimatedRemainingMs (ss : list Stage) : Js.num :=
  if Js.gt (avgMs ss) (Js.ofZ 0) && (0 <? pendingCount ss)%nat then
    Js.Math_round (Js.mul (avgMs ss) (Js.ofNat (pendingCount ss)))
  else Js.ofZ 0.

(** The estimate the full rendering shows, if it shows one: the compact
    rendering returns before the estimate is computed. *)
Definition shownEstimate (props : Props) (st : State) : option Js.num :=
  if compact props then None
  else if Js.gt (estimatedRemainingMs (stages st)) (Js.ofZ 0)
          && negb (bool_decide (is_Some (summary st)))
          && negb (Js.truthyOpt (error (state st)))
  then Some (estimatedRemainingMs (stages st))
  else None.

Section showNumber.

(** How a template literal prints a number is left open. *)
Variable showNumber : Js.num -> string.

Definition formatDuration (ms : Js.num) : string :=
  let rounded := Js.Math_round ms in
  if Js.lt rounded (Js.ofZ 1000) then (showNumber rounded ++ "ms")%string
  else
    let secs := Js.Math_floor (Js.div rounded (Js.ofZ 1000)) in
    if Js.lt secs (Js.ofZ 60) then (showNumber secs ++ "s")%string
    else
      let mins := Js.Math_floor (Js.div secs (Js.ofZ 60)) in
      let remainSecs := Js.rem secs (Js.ofZ 60) in
      (showNumber mins ++ "m " ++ showNumber remainSecs ++ "s")%string.

End showNumber.

End AnalysisProgress.

(** ** The chat session *)

Module UseChat.

Record Citation := {
  file_path : string;
  function_name : option string;
  line_start : Q;
  line_end : Q;
  cit_confidence : Q
}.

Record ConfidenceScore := {
  value : Q;
  source : string;
  explanation : string
}.

Inductive ChatEventType := EvIdle | EvThinking | EvToolCall | EvComplete | EvError.

Record ChatEventData := {
  data_status : option string;
  data_tool : option string;
  data_message : option string;
  data_citations : option (list Citation);
  data_confidence : option (option ConfidenceScore);
  data_tools_used : option (list string);
  data_conversation_id : option string;
  data_model : option string;
  data_error : option string;
  data_request_id : option string
}.

Record ChatResult := {
  res_message : string;
  res_citations : list Citation;
  res_confidence : option ConfidenceScore;
  res_tools_used : list string;
  res_conversation_id : string
}.

Inductive Role := User | Assistant.

(** Optional fields are [None] when absent or [undefined];
    [confidence] may also be [null], the inner [None]. *)
Record ChatMessage := {
  role : Role;
  content : string;
  citations : option (list Citation);
  confidence : option (option ConfidenceScore);
  status : option string;
  isError : option bool
}.

(** What an index of the [messages] array holds. Every entry the hook
    itself appends is a [Turn]. A store past the end would leave holes,
    and spreading a hole into [{...hole, status}] would give an object
    with a status only; [assistantIdx_last] below shows that neither
    happens. *)
Inductive Entry :=
| Hole
| StatusOnly (s : string)
| Turn (m : ChatMessage).

(** [updated[i] = v] on a copy of the array. *)
Definition store (i : nat) (v : Entry) (l : list Entry) : list Entry :=
  if (i <? length l)%nat then <[i := v]> l
  else l ++ replicate (i - length l) Hole ++ [v].

(** [{ ...updated[i], status: s }] *)
Definition withStatus (s : string) (e : option Entry) : Entry :=
  match e with
  | Some (Turn m) =>
      Turn {| role := role m; content := content m;
              citations := citations m; confidence := confidence m;
              status := Some s; isError := isError m |}
  | Some (StatusOnly _) | Some Hole | None => StatusOnly s
  end.

(** The body handed to [start]. *)
Record StartInput := {
  in_message : string;
  in_conversation_id : option string
}.

Record State := {
  (* useState *)
  messages : list Entry;
  conversationId : option string;
  (* useRef; [conversationIdRef] is assigned [conversationId] on every
     render and is read through that field *)
  assistantIdxRef : Z;
  (* the hook's state *)
  isStreaming : bool;
  (* environment: the streams [start] opened, oldest first *)
  started : list StartInput
}.

Definition setMessages (f : list Entry -> list Entry) (st : State) : State :=
  {| messages := f (messages st); conversationId := conversationId st;
     assistantIdxRef := assistantIdxRef st; isStreaming := isStreaming st;
     started := started st |}.

Definition setConversationId (v : option string) (st : State) : State :=
  {| messages := messages st; conversationId := v;
     assistantIdxRef := assistantIdxRef st; isStreaming := isStreaming st;
     started := started st |}.

Definition setAssistantIdx (v : Z) (st : State) : State :=
  {| messages := messages st; conversationId := conversationId st;
     assistantIdxRef := v; isStreaming := isStreaming st;
     started := started st |}.

(** Modelled from the spec: [reset], [start] and [cancel] belong to the
    hook [useSSEStream] of the package @agenisea/sse-kit, which is not
    part of this repository. [reset] returns to idle, [start] opens a
    stream with the given body and enters streaming, [cancel] tears the
    stream down and returns to idle, and a completion or an error ends
    streaming. *)
Definition reset (st : State) : State :=
  {| messages := messages st; conversationId := conversationId st;
     assistantIdxRef := assistantIdxRef st; isStreaming := false;
     started := started st |}.

Definition start (input : StartInput) (st : State) : State :=
  {| messages := messages st; conversationId := conversationId st;
     assistantIdxRef := assistantIdxRef st; isStreaming := true;
     started := started st ++ [input] |}.

Definition cancel (st : State) : State := reset st.

Definition streamEnded (st : State) : State := reset st.

Definition extractResult (data : ChatEventData) : option ChatResult :=
  match data_message data, data_citations data with
  | Some m, Some cs =>
      Some {| res_message := m;
              res_citations := cs;
              res_confidence :=
                match data_confidence data with Some c => c | None => None end;
              res_tools_used :=
                match data_tools_used data with Some t => t | None => [] end;
              res_conversation_id :=
                Js.nullishStr (data_conversation_id data) "" |}
  | _, _ => None
  end.

Definition onUpdate (event : ChatEventType) (data : ChatEventData)
    (st : State) : State :=
  let idx := assistantIdxRef st in
  if idx <? 0 then st
  else
    let i := Z.to_nat idx in
    let st :=
      match event, data_status data with
      | EvThinking, Some s =>
          if Js.truthy s then
            setMessages (fun prev => store i (withStatus s (prev !! i)) prev) st
          else st
      | _, _ => st
      end in
    match event, data_message data with
    | EvToolCall, Some m =>
        if Js.truthy m then
          setMessages (fun prev => store i (withStatus m (prev !! i)) prev) st
        else st
    | _, _ => st
    end.

Definition onComplete (result : ChatResult) (st : State) : State :=
  let idx := assistantIdxRef st in
  if idx <? 0 then st
  else
    let st :=
      setMessages
        (store (Z.to_nat idx)
           (Turn {| role := Assistant;
                    content := res_message result;
                    citations := Some (res_citations result);
                    confidence := Some (res_confidence result);
                    status := None;
                    isError := None |})) st in
    if Js.truthy (res_conversation_id result)
    then setConversationId (Some (res_conversation_id result)) st
    else st.

(** The turn [onError] writes. *)
Definition errorTurn (error : string) : ChatMessage :=
  {| role := Assistant;
     content := "Error: " ++ error;
     citations := None;
     confidence := None;
     status := None;
     isError := Some true |}.

Definition onError (error : string) (st : State) : State :=
  let idx := assistantIdxRef st in
  if idx <? 0 then st
  else setMessages (store (Z.to_nat idx) (Turn (errorTurn error))) st.

Definition userTurn (c : string) : ChatMessage :=
  {| role := User; content := c; citations := None; confidence := None;
     status := None; isError := None |}.

Definition placeholder : ChatMessage :=
  {| role := Assistant; content := ""; citations := None; confidence := None;
     status := Some "Thinking..."; isError := None |}.

(** The callback [useCallback] returns from a render in which
    [state.isStreaming] had the value [seen]: the guard reads the value
    its closure captured, not the hook's current state, whereas the
    conversation id and the placeholder index are read through refs. *)
Definition sendMessageOf (seen : bool) (c : string) (st : State) : State :=
  if seen then st
  else
    let next := messages st ++ [Turn (userTurn c); Turn placeholder] in
    let st := setMessages (fun _ => next) st in
    let st := setAssistantIdx (Z.of_nat (length next) - 1) st in
    let st := reset st in
    start {| in_message := c; in_conversation_id := conversationId st |} st.

(** [sendMessage] as a caller holds it once the hook has rendered the
    current state: [state.isStreaming] is a dependency of the callback,
    so every render that sees a new value makes a new callback. *)
Definition sendMessage (c : string) (st : State) : State :=
  sendMessageOf (isStreaming st) c st.

Inductive Action :=
| Send (c : string)
| Update (event : ChatEventType) (data : ChatEventData)
| Complete (result : ChatResult)
| Error (error : string)
| Cancel.

Definition step (st : State) (a : Action) : State :=
  match a with
  | Send c => sendMessage c st
  | Update event data => onUpdate event data st
  | Complete result => onComplete result (streamEnded st)
  | Error error => onError error (streamEnded st)
  | Cancel => cancel st
  end.

Definition run (acts : list Action) (st : State) : State :=
  fold_left step acts st.

Definition initial : State :=
  {| messages := []; conversationId := None; assistantIdxRef := -1;
     isStreaming := false; started := [] |}.

End UseChat.

(** ** The chat page and the transcript copy *)

Module FormatTranscript.
Import UseChat.

Definition nl : string := String (Ascii.ascii_of_nat 10) "".

Section showNumber.
(** How a template literal prints the number [line_start]. *)
Variable showNumber : Q -> string.

Definition formatCitation (c : Citation) : string :=
  ("  - " ++ file_path c ++ ":" ++ showNumber (line_start c))%string.

Definition formatMessage (m : ChatMessage) : string :=
  let r := match role m with User => "User" | Assistant => "Assistant" end in
  let parts := [(r ++ ": " ++ content m)%string] in
  let parts :=
    match citations m with
    | Some (c :: cs) =>
        parts ++ [("Citations:" ++ nl
                   ++ Js.join nl (formatCitation <$> (c :: cs)))%string]
    | _ => parts
    end in
  Js.join (nl ++ nl)%string parts.

Definition formatChatTranscript (messages : list ChatMessage) : string :=
  Js.join (nl ++ nl ++ "---" ++ nl ++ nl)%string
    (formatMessage <$> filter (fun m => Js.truthy (content m) = true) messages).

End showNumber.
End FormatTranscript.

Module ChatPage.

Record State := {
  input : string;
  chat : UseChat.State
}.

Definition handleChange (v : string) (p : State) : State :=
  {| input := v; chat := chat p |}.

Section trim.
(** [String.prototype.trim]. *)
Variable trim : string -> string.

Definition handleSubmit (p : State) : State :=
  if negb (Js.truthy (trim (input p))) || UseChat.isStreaming (chat p) then p
  else {| input := "";
          chat := UseChat.sendMessage (trim (input p)) (chat p) |}.

(** What happens on the page: typing, submitting the form, and the
    stream calling the hook's handlers. *)
Inductive Action :=
| Change (v : string)
| Submit
| Update (event : UseChat.ChatEventType) (data : UseChat.ChatEventData)
| Complete (result : UseChat.ChatResult)
| Error (error : string).

Definition onStream (a : UseChat.Action) (p : State) : State :=
  {| input := input p; chat := UseChat.step (chat p) a |}.

Definition step (p : State) (a : Action) : State :=
  match a with
  | Change v => handleChange v p
  | Submit => handleSubmit p
  | Update event data => onStream (UseChat.Update event data) p
  | Complete result => onStream (UseChat.Complete result) p
  | Error error => onStream (UseChat.Error error) p
  end.

Definition run (acts : list Action) (p : State) : State :=
  fold_left step acts p.

End trim.

Definition initial : State := {| input := ""; chat := UseChat.initial |}.

End ChatPage.

(** ** The delete confirmation *)

Module ConfirmDeleteDialog.

Record Props := {
  open : bool;
  projectName : string
}.

Inductive Callback := OnClose | OnConfirm.

#[global] Instance Callback_eq_dec : EqDecision Callback.
Proof. solve_decision. Defined.

Record State := {
  inputValue : string;
  calls : list Callback   (* prop callbacks invoked, oldest first *)
}.

Definition setInputValue (v : string) (st : State) : State :=
  {| inputValue := v; calls := calls st |}.

Definition invoke (cb : Callback) (st : State) : State :=
  {| inputValue := inputValue st; calls := calls st ++ [cb] |}.

Definition handleOpenChange (nextOpen : bool) (st : State) : State :=
  if negb nextOpen then invoke OnClose (setInputValue "" st) else st.

Definition handleConfirm (props : Props) (st : State) : State :=
  if String.eqb (inputValue st) (projectName props)
  then invoke OnConfirm (setInputValue "" st)
  else st.

(** The Delete button is disabled unless the input is the project name. *)
Definition deleteEnabled (props : Props) (st : State) : bool :=
  String.eqb (inputValue st) (projectName props).

Inductive Action :=
| TypeInput (v : string)          (* onChange of the input *)
| OpenChange (nextOpen : bool)    (* the dialog asks to open or close *)
| ClickCancel                     (* the Cancel button: onClose *)
| ClickDelete.                    (* the Delete button, when enabled *)

#[global] Instance Action_eq_dec : EqDecision Action.
Proof. solve_decision. Defined.

Definition step (props : Props) (st : State) (a : Action) : State :=
  match a with
  | TypeInput v => setInputValue v st
  | OpenChange nextOpen => handleOpenChange nextOpen st
  | ClickCancel => invoke OnClose st
  | ClickDelete => if deleteEnabled props st then handleConfirm props st else st
  end.

Definition run (props : Props) (acts : list Action) (st : State) : State :=
  fold_left (step props) acts st.

Definition initial : State := {| inputValue := ""; calls := [] |}.

Definition confirms (st : State) : nat :=
  length (filter (fun cb => cb = OnConfirm) (calls st)).

(** How often the project name was typed into the input. *)
Definition typedName (props : Props) (acts : list Action) : nat :=
  length (filter (fun a => a = TypeInput (projectName props)) acts).

End ConfirmDeleteDialog.

(** ** The new-project sheet *)

Module NewProjectSheet.

Record State := {
  localPath : string;
  name : string;
  nameManuallyEdited : bool;
  autoAnalyze : bool;
  loading : bool;
  error : option string;
  pickerOpen : bool
}.

Definition setName (v : string) (st : State) : State :=
  {| localPath := localPath st; name := v;
     nameManuallyEdited := nameManuallyEdited st;
     autoAnalyze := autoAnalyze st; loading := loading st;
     error := error st; pickerOpen := pickerOpen st |}.

Definition setLocalPath (v : string) (st : State) : State :=
  {| localPath := v; name := name st;
     nameManuallyEdited := nameManuallyEdited st;
     autoAnalyze := autoAnalyze st; loading := loading st;
     error := error st; pickerOpen := pickerOpen st |}.

(** The last segment of a path whose trailing slashes are dropped:
    [segments[segments.length - 1] || ""]. *)
Definition lastSegment (path : string) : string :=
  match list.last (Js.split "/"%char (Js.stripTrailing "/"%char path)) with
  | Some seg => seg
  | None => ""
  end.

Section trim.
(** [String.prototype.trim]. *)
Variable trim : string -> string.

(** The effect that derives the name from the path. *)
Definition deriveName (st : State) : State :=
  if nameManuallyEdited st then st
  else if negb (Js.truthy (trim (localPath st))) then setName "" st
  else setName (lastSegment (localPath st)) st.

End trim.

(** The string contains a slash. *)
Fixpoint hasSlash (s : string) : bool :=
  match s with
  | EmptyString => false
  | String c s' => Ascii.eqb c "/" || hasSlash s'
  end.

End NewProjectSheet.

(** ** Loading a project *)

Module UseProject.

Record Project := {
  id : string;
  name : string;
  status : string;
  local_path : option string;
  branch : option string;
  created_at : string
}.

(** The parsed response body. *)
Record APIResponse := {
  success : bool;
  data : option Project;
  error : option string
}.

Record State := {
  project : option Project;
  loading : bool;
  st_error : option string
}.

(** How the request settles: a parsed body, or a rejection whose reason
    prints as [err]. *)
Inductive Outcome :=
| Parsed (body : APIResponse)
| Rejected (err : string).

(** The effect, up to the request. *)
Definition load (st : State) : State :=
  {| project := project st; loading := true; st_error := st_error st |}.

(** The promise chain: [then], [catch], [finally]. *)
Definition settle (o : Outcome) (st : State) : State :=
  let st :=
    match o with
    | Parsed body =>
        match success body, data body with
        | true, Some p =>
            {| project := Some p; loading := loading st;
               st_error := st_error st |}
        | _, _ =>
            {| project := project st; loading := loading st;
               st_error := Some (Js.orStr (error body) "Failed to load project") |}
        end
    | Rejected err =>
        {| project := project st; loading := loading st;
           st_error := Some err |}
    end in
  {| project := project st; loading := false; st_error := st_error st |}.

Inductive Action :=
| Load
| Settle (o : Outcome).

Definition step (st : State) (a : Action) : State :=
  match a with
  | Load => load st
  | Settle o => settle o st
  end.

Definition run (acts : list Action) (st : State) : State :=
  fold_left step acts st.

Definition initial : State :=
  {| project := None; loading := true; st_error := None |}.

End UseProject.

(** ** Further notions about runs *)

Module RunSpec.
Import AnalysisProgress.

(** What stops the elapsed ticker. *)
Definition stopsTicker (a : Action) : bool :=
  match a with
  | Complete _ | Error _ | Update EvPaused _ | PauseSettle (Resolved true) => true
  | _ => false
  end.

Definition isStart (a : Action) : bool :=
  match a with Start _ => true | _ => false end.

(** What re-enables the pause control. *)
Definition reopensPause (a : Action) : bool :=
  match a with
  | PauseSettle (Resolved false) | PauseSettle Threw => true
  | _ => false
  end.

Definition isPauseClick (a : Action) : bool :=
  match a with PauseClick => true | _ => false end.

(** The prop callback an action leads to, if any. *)
Definition callbackOf (props : Props) (a : Action) : option Callback :=
  match a with
  | Complete _ => Some CbComplete
  | Error _ => Some CbError
  | Update EvPaused _ | PauseSettle (Resolved true) =>
      if onPaused props then Some CbPaused else None
  | _ => None
  end.

(** Two states render the same run data. *)
Definition sameView (a b : State) : Prop :=
  stages a = stages b /\ summary a = summary b /\ progress a = progress b /\
  elapsedMs a = elapsedMs b /\ startTimeRef a = startTimeRef b /\
  state a = state b.

(** The status a chat event carries for the placeholder. *)
Definition statusOf (event : UseChat.ChatEventType)
    (data : UseChat.ChatEventData) : option string :=
  match event with
  | UseChat.EvThinking =>
      match UseChat.data_status data with
      | Some s => if Js.truthy s then Some s else None
      | None => None
      end
  | UseChat.EvToolCall =>
      match UseChat.data_message data with
      | Some m => if Js.truthy m then Some m else None
      | None => None
      end
  | _ => None
  end.

(** One exchange of the transcript: the user turn of a sent message and
    the assistant turn answering it. *)
Definition exchange (inp : UseChat.StartInput) (a : UseChat.ChatMessage)
    : list UseChat.Entry :=
  [UseChat.Turn (UseChat.userTurn (UseChat.in_message inp)); UseChat.Turn a].

(** The transcript is the sequence of exchanges of the messages sent,
    each answered by one assistant turn. *)
Definition transcriptPairs (st : UseChat.State) : Prop :=
  exists answers : list UseChat.ChatMessage,
    length answers = length (UseChat.started st) /\
    Forall (fun a => UseChat.role a = UseChat.Assistant) answers /\
    UseChat.messages st = concat (zip_with exchange (UseChat.started st) answers).

(** A conversation id that is absent or was sent by the server in one of
    the completions of [acts]. *)
Definition fromServer (acts : list UseChat.Action) (id : option string) : Prop :=
  id = None \/
  exists r, UseChat.Complete r ∈ acts /\ id = Some (UseChat.res_conversation_id r).

End RunSpec.

(** ** Specification-side notions *)

Module ProgressSpec.
Import AnalysisProgress.

(** An event as the stream delivers it to [onUpdate]. *)
Definition StreamEvent : Type := AnalysisEventType * AnalysisEventData.

(** The stage record an event reports: the event is not the pause
    notification and carries a non-empty name. *)
Definition report (ev : StreamEvent) : option Stage :=
  match ev.1 with
  | EvPaused => None
  | _ =>
      match data_name ev.2 with
      | Some n => if Js.truthy n then Some (stageOf n ev.2) else None
      | None => None
      end
  end.

Definition reports (evs : list StreamEvent) : list Stage := omap report evs.

Definition hasName (n : string) (s : Stage) : Prop := stage_name s = n.

#[global] Instance hasName_dec (n : string) (s : Stage) :
  Decision (hasName n s).
Proof. unfold hasName. apply _. Defined.


(** The names of a sequence in the order of their first occurrence. *)
Definition firstReported (ns : list string) : list string :=
  reverse (remove_dups (reverse ns)).

(** The snapshot a stage-reporting event carries. *)
Definition snapshot (ev : StreamEvent) : option ProgressInfo :=
  match report ev with
  | Some _ => snapshotOf ev.2
  | None => None
  end.

(** The last authoritative snapshot of a sequence of events. *)
Definition lastSnapshot (evs : list StreamEvent) : option ProgressInfo :=
  list.last (omap snapshot evs).

(** A snapshot is supplied by an event that is not the pause
    notification, names a stage, and carries all three of [completed],
    [total] and [percent]; stated on the payload alone. *)
Definition suppliedSnapshot (ev : StreamEvent) : option ProgressInfo :=
  match ev with
  | (EvPaused, _) => None
  | (_, d) =>
      match data_name d, data_completed d, data_total d, data_percent d with
      | Some n, Some c, Some t, Some p =>
          if String.eqb n "" then None
          else Some {| completed := c; total := t; percent := p |}
      | _, _, _, _ => None
      end
  end.

(** The snapshot most recently supplied, if any. *)
Definition lastSupplied (evs : list StreamEvent) : option ProgressInfo :=
  foldr (fun ev later =>
           match later with
           | Some p => Some p
           | None => suppliedSnapshot ev
           end) None evs.

(** How many stages carry the status [status]. *)
Definition countStatus (status : string) (ss : list Stage) : nat :=
  foldr (fun s n => if String.eqb (stage_status s) status then S n else n)
        0%nat ss.

(** [round(done / all * 100)], evaluated as JavaScript does. *)
Definition roundedPercent (done all : nat) : Js.num :=
  Js.Math_round
    (Js.mul (Js.div (Js.ofNat done) (Js.ofNat all)) (Js.ofZ 100)).

(** The double that [roundedPercent] rounds to an integer when
    [done <= all] and [all] is positive. *)
Definition percentValue (done all : nat) : Q :=
  Js.rndQ (Js.rndQ (inject_Z (Z.of_nat done) / inject_Z (Z.of_nat all)) * 100).

(** One run: [startAnalysis], then the events in delivery order. *)
Definition runUpdates (props : Props) (evs : list StreamEvent)
    (st : State) : State :=
  fold_left (fun st ev => onUpdate props ev.1 ev.2 st) evs st.

(** The events [onUpdate] received since the run was last started. *)
Definition eventsSinceStart (acts : list Action) : list StreamEvent :=
  fold_left
    (fun acc a =>
       match a with
       | Start _ => []
       | Update event data => acc ++ [(event, data)]
       | _ => acc
       end) acts [].

Definition doneCount (ss : list Stage) : nat := length (filter isDone ss).

(** The sum of a list of durations, added up from the first on. *)
Definition sumOf (ds : list Q) : Js.num :=
  foldl (fun acc d => Js.add acc (Js.Fin d)) (Js.ofZ 0) ds.

(** The sum of a list of integers. *)
Definition sumZ (zs : list Z) : Z := foldr Z.add 0 zs.

(** The mean of a list of durations. *)
Definition mean (ds : list Q) : Js.num :=
  Js.div (sumOf ds) (Js.ofNat (length ds)).

(** The durations of the stages whose status is done, in list order. *)
Definition doneDurations (ss : list Stage) : list Q :=
  omap (fun s => if String.eqb (stage_status s) "done"
                 then Some (stage_duration_ms s) else None) ss.

(** [avgDurationMs]: the mean over the done stages once two are done. *)
Definition avgDurationMs (ss : list Stage) : Js.num :=
  if decide (2 <= countStatus "done" ss)%nat
  then mean (doneDurations ss) else Js.ofZ 0.

(** [pendingCount]: the stages that are running or pending. *)
Definition runningOrPending (ss : list Stage) : nat :=
  (countStatus "running" ss + countStatus "pending" ss)%nat.

(** A stage event regresses a stage when it replaces a done record by
    one that is not done. *)
Definition regresses (s : Stage) (ss : list Stage) : Prop :=
  exists old, old ∈ ss /\ stage_name old = stage_name s
              /\ isDone old /\ ~ isDone s.

(** How often the pause callback has been invoked. *)
Definition pausedCalls (st : State) : nat :=
  length (filter (fun cb => cb = CbPaused) (calls st)).

(** A stage event appends when no record carries its name yet. *)
Definition appends (s : Stage) (ss : list Stage) : Prop :=
  stage_name s ∉ (stage_name <$> ss).

End ProgressSpec.

Module ChatSpec.
Import UseChat.

Definition isTurn (e : Entry) : Prop :=
  match e with Turn _ => True | _ => False end.

(** The tracked index is that of the last entry ([-1] on the empty
    transcript), and every entry is a turn. *)
Definition placeholderLast (st : State) : Prop :=
  assistantIdxRef st = Z.of_nat (length (messages st)) - 1 /\
  Forall isTurn (messages st).

End ChatSpec.

(** ** Concrete runs *)

Module Examples.
Import AnalysisProgress ProgressSpec.

Definition noData : AnalysisEventData :=
  {| data_message := None; data_name := None; data_status := None;
     data_duration_ms := None; data_completed := None; data_total := None;
     data_percent := None; data_project_id := None; data_sections := None;
     data_stages_ok := None; data_stages_failed := None; data_label := None;
     data_error := None |}.

(** A stage event as the backend sends it: name, status and duration. *)
Definition stageData (n st : string) (ms : Q) : AnalysisEventData :=
  {| data_message := None; data_name := Some n; data_status := Some st;
     data_duration_ms := Some ms; data_completed := None; data_total := None;
     data_percent := None; data_project_id := None; data_sections := None;
     data_stages_ok := None; data_stages_failed := None; data_label := None;
     data_error := None |}.

Definition stageEv (n st : string) (ms : Q) : StreamEvent :=
  (EvStage, stageData n st ms).

Definition pausedEv : StreamEvent := (EvPaused, noData).

(** A name for the stage numbered [i]: one letter, distinct below 60. *)
Definition nameOf (i : nat) : string :=
  String (Ascii.ascii_of_nat (65 + i)) "".

(** One event for each of the stages numbered [from], ..., [from + n - 1]. *)
Definition stageEvs (from n : nat) (status : string) (ms : Q) :
    list StreamEvent :=
  (fun i => stageEv (nameOf i) status ms) <$> seq from n.

(** How the numbers of the examples print: all are integers below
    [2^53] in magnitude. *)
Definition showSafe (a : Js.num) : string :=
  match a with
  | Js.Fin q => Js.showInt (Qfloor q)
  | Js.PInf => "Infinity"
  | Js.NInf => "-Infinity"
  | Js.NaN => "NaN"
  end.

Definition props0 : Props :=
  {| projectId := "p1"; compact := false; onPaused := true |}.

(** The component right after its mount effect. *)
Definition mounted : State := mount 1000 (initial 1000).

(** A run in which the pause request is accepted and the stream then
    delivers its own pause notification. *)
Definition pausedTwice : list Action :=
  [ Update EvStage (stageData "A" "running" 0);
    PauseClick;
    PauseSettle (Resolved true);
    Update EvPaused noData ].

(** The same run with the stream's notification arriving first. *)
Definition pausedTwice' : list Action :=
  [ Update EvStage (stageData "A" "running" 0);
    PauseClick;
    Update EvPaused noData;
    PauseSettle (Resolved true) ].

(** A chat session in which one message was sent. *)
Definition asked : UseChat.State :=
  UseChat.sendMessage "What does main do?" UseChat.initial.

End Examples.

(** ** Facts about the helpers *)

Section findIndex_facts.
Context {A : Type} (p : A -> bool).

Lemma findIndex_range (l : list A) :
  -1 <= Js.findIndex p l < Z.of_nat (length l).
Proof.
  induction l as [|x l IH]; simpl; [lia|].
  destruct (p x); [lia|].
  destruct (Z.ltb_spec (Js.findIndex p l) 0); lia.
Qed.

Lemma findIndex_none (l : list A) :
  Js.findIndex p l < 0 <-> Forall (fun x => p x = false) l.
Proof.
  induction l as [|x l IH]; simpl.
  - split; [constructor | lia].
  - destruct (p x) eqn:Hp.
    + split; [lia | intros Hall; inversion_clear Hall as [|? ? Hx Hl]; congruence].
    + pose proof (findIndex_range l) as Hr.
      destruct (Z.ltb_spec (Js.findIndex p l) 0) as [Hlt|Hge].
      * split; [intros _; constructor; [done | by apply IH] | lia].
      * split; [lia | intros Hall].
        inversion_clear Hall as [|? ? Hx Hl]. apply IH in Hl. lia.
Qed.

Lemma findIndex_cons (x : A) (l : list A) :
  Js.findIndex p (x :: l) =
    if p x then 0
    else if Js.findIndex p l <? 0 then -1 else Js.findIndex p l + 1.
Proof. reflexivity. Qed.

End findIndex_facts.

Section upsert_facts.
Import AnalysisProgress ProgressSpec.

Lemma upsert_nil (s : Stage) : upsert s [] = [s].
Proof. reflexivity. Qed.

Lemma upsert_cons (s x : Stage) (l : list Stage) :
  upsert s (x :: l) =
    if decide (stage_name x = stage_name s) then s :: l
    else x :: upsert s l.
Proof.
  unfold upsert. rewrite findIndex_cons.
  destruct (String.eqb_spec (stage_name x) (stage_name s)) as [He|Hne].
  - rewrite decide_True by done. reflexivity.
  - rewrite decide_False by done.
    set (i := Js.findIndex _ l).
    pose proof (findIndex_range
      (fun s0 => String.eqb (stage_name s0) (stage_name s)) l) as Hr.
    fold i in Hr.
    destruct (Z.ltb_spec i 0) as [Hlt|Hge].
    + replace (0 <=? -1) with false by reflexivity.
      replace (0 <=? i) with false by (symmetry; apply Z.leb_gt; lia).
      reflexivity.
    + replace (0 <=? i + 1) with true by (symmetry; apply Z.leb_le; lia).
      replace (0 <=? i) with true by (symmetry; apply Z.leb_le; lia).
      replace (Z.to_nat (i + 1)) with (S (Z.to_nat i)) by lia.
      reflexivity.
Qed.

Lemma upsert_names (s : Stage) (l : list Stage) :
  stage_name <$> upsert s l =
    if decide (stage_name s ∈ (stage_name <$> l))
    then stage_name <$> l
    else (stage_name <$> l) ++ [stage_name s].
Proof.
  induction l as [|x l IH].
  - rewrite upsert_nil. rewrite fmap_nil, decide_False; [done|].
    apply not_elem_of_nil.
  - rewrite upsert_cons. destruct (decide (stage_name x = stage_name s)) as [He|Hne].
    + rewrite fmap_cons. rewrite decide_True.
      * rewrite fmap_cons. by rewrite He.
      * rewrite <- He. apply list_elem_of_here.
    + rewrite !fmap_cons, IH.
      destruct (decide (stage_name s ∈ (stage_name <$> l))) as [Hin|Hnin].
      * rewrite decide_True; [done|]. by apply list_elem_of_further.
      * rewrite decide_False; [done|].
        intros Hc. apply elem_of_cons in Hc as [Hc|Hc]; congruence.
Qed.

Lemma upsert_length (s : Stage) (l : list Stage) :
  length (upsert s l) =
    if decide (stage_name s ∈ (stage_name <$> l))
    then length l else S (length l).
Proof.
  pose proof (f_equal length (upsert_names s l)) as H.
  rewrite length_fmap in H. rewrite H.
  case_decide; rewrite ?length_app, length_fmap; simpl; lia.
Qed.

(** Replacement in place: the first record of that name is overwritten,
    every other index keeps its record. *)
Lemma upsert_replace (s old : Stage) (l : list Stage) (i : nat) :
  l !! i = Some old ->
  stage_name old = stage_name s ->
  (forall j x, (j < i)%nat -> l !! j = Some x -> stage_name x <> stage_name s) ->
  upsert s l = <[i := s]> l.
Proof.
  revert i. induction l as [|x l IH]; intros i Hi Hn Hfirst; [done|].
  rewrite upsert_cons. destruct i as [|i]; simpl in *.
  - simplify_eq. by rewrite decide_True.
  - rewrite decide_False.
    + f_equal. apply (IH i); [done..|].
      intros j y Hj Hy. apply (Hfirst (S j) y); [lia | done].
    + apply (Hfirst 0%nat x); [lia | done].
Qed.

Lemma upsert_append (s : Stage) (l : list Stage) :
  appends s l -> upsert s l = l ++ [s].
Proof.
  unfold appends. induction l as [|x l IH]; intros Hn; [done|].
  rewrite upsert_cons. rewrite fmap_cons in Hn.
  apply not_elem_of_cons in Hn as [Hne Hn].
  rewrite decide_False by congruence. simpl. f_equal. by apply IH.
Qed.

End upsert_facts.

(** ** The stage list of a run *)

Section stage_list.
Import AnalysisProgress ProgressSpec.

Local Abbreviation names l := (stage_name <$> l).
Local Abbreviation upserts rs l :=
  (fold_left (fun acc s => upsert s acc) rs l).

Lemma stages_clearTimer st : stages (clearTimer st) = stages st.
Proof. unfold clearTimer. by destruct (timerRef st). Qed.

Lemma stages_callOnPaused props st : stages (callOnPaused props st) = stages st.
Proof. unfold callOnPaused. by destruct (onPaused props). Qed.

Lemma stages_onUpdate props e d st :
  stages (onUpdate props e d st) =
    match report (e, d) with
    | Some s => upsert s (stages st)
    | None => stages st
    end.
Proof.
  unfold onUpdate, report; simpl.
  destruct e; try (rewrite stages_callOnPaused, stages_clearTimer; done);
    destruct (data_name d) as [n|]; try done;
    destruct (Js.truthy n); try done;
    destruct (snapshotOf d); done.
Qed.

Lemma stages_startAnalysis now st : stages (startAnalysis now st) = [].
Proof. reflexivity. Qed.

Lemma stages_runUpdates props evs st :
  stages (runUpdates props evs st) = upserts (reports evs) (stages st).
Proof.
  revert st. induction evs as [|[e d] evs IH]; intros st; [done|].
  unfold runUpdates, reports in *. simpl. rewrite IH, stages_onUpdate.
  by destruct (report (e, d)).
Qed.

Lemma firstReported_snoc (ns : list string) (n : string) :
  firstReported (ns ++ [n]) =
    if decide (n ∈ firstReported ns) then firstReported ns
    else firstReported ns ++ [n].
Proof.
  unfold firstReported. rewrite reverse_snoc. simpl.
  destruct (decide_rel elem_of n (reverse ns)) as [Hin|Hnin].
  - rewrite decide_True; [done|].
    by rewrite elem_of_reverse, elem_of_remove_dups.
  - rewrite decide_False, ?reverse_cons; [done|].
    by rewrite elem_of_reverse, elem_of_remove_dups.
Qed.

Lemma elem_of_firstReported (ns : list string) (n : string) :
  n ∈ firstReported ns <-> n ∈ ns.
Proof.
  unfold firstReported.
  by rewrite elem_of_reverse, elem_of_remove_dups, elem_of_reverse.
Qed.

Lemma NoDup_firstReported (ns : list string) : NoDup (firstReported ns).
Proof.
  unfold firstReported. rewrite reverse_Permutation.
  apply NoDup_remove_dups.
Qed.

Lemma upserts_names (rs : list Stage) :
  names (upserts rs []) = firstReported (names rs).
Proof.
  induction rs as [|s rs IH] using rev_ind; [done|].
  rewrite fold_left_app. simpl.
  rewrite upsert_names, fmap_app.
change (stage_name <$> [s]) with [stage_name s].
rewrite firstReported_snoc, IH. done.
Qed.

Lemma upserts_NoDup (rs : list Stage) : NoDup (names (upserts rs [])).
Proof. rewrite upserts_names. apply NoDup_firstReported. Qed.





Lemma first_of_NoDup (l : list Stage) (i : nat) (old : Stage) (n : string) :
  NoDup (names l) -> l !! i = Some old -> stage_name old = n ->
  forall j x, (j < i)%nat -> l !! j = Some x -> stage_name x <> n.
Proof.
  intros Hnd Hi Hn j x Hj Hx He.
  assert (j = i); [|lia].
  apply (NoDup_lookup (names l) j i n); [done|..].
  - by rewrite list_lookup_fmap, Hx, <- He.
  - by rewrite list_lookup_fmap, Hi, <- Hn.
Qed.

(** C9. In a run, an event reporting a stage leaves the list in
    first-appearance order: a record already listed under that name is
    overwritten at its own index and nothing moves, a new name is
    appended at the end, and the names of the list are the reported
    names in the order of their first report. *)
Theorem stage_order_first_appearance props now st0
    (evs : list StreamEvent) (ev : StreamEvent) (s : Stage) :
  report ev = Some s ->
  let before := stages (runUpdates props evs (startAnalysis now st0)) in
  let after :=
    stages (runUpdates props (evs ++ [ev]) (startAnalysis now st0)) in
  (forall i old, before !! i = Some old -> stage_name old = stage_name s ->
     after = <[i := s]> before /\ after !! i = Some s
     /\ length after = length before) /\
  (appends s before -> after = before ++ [s]) /\
  stage_name <$> before = firstReported (stage_name <$> reports evs) /\
  stage_name <$> after = firstReported (stage_name <$> reports (evs ++ [ev])).
Proof.
  intros Hrep. simpl.
  rewrite !stages_runUpdates, stages_startAnalysis.
  unfold reports. rewrite omap_app. simpl. rewrite Hrep. simpl.
  rewrite fold_left_app. simpl.
  fold (reports evs).
  repeat split.
  - eapply upsert_replace; [done..|].
    eapply first_of_NoDup; [apply upserts_NoDup | done..].
  - erewrite upsert_replace; [|done..|].
    + apply list_lookup_insert_eq. by eapply lookup_lt_Some.
    + eapply first_of_NoDup; [apply upserts_NoDup | done..].
  - erewrite upsert_replace; [|done..|].
    + by rewrite length_insert.
    + eapply first_of_NoDup; [apply upserts_NoDup | done..].
  - apply upsert_append.
  - apply upserts_names.
  - change (upsert s (upserts (reports evs) []))
      with (upserts [s] (upserts (reports evs) [])).
    rewrite <- fold_left_app, upserts_names. done.
Qed.

End stage_list.

(** ** Rounding *)

Section rounding.

Lemma Qdiv_inject_pos (a : Z) (p : positive) :
  (inject_Z a / inject_Z (Z.pos p) == a # p)%Q.
Proof. unfold Qeq, Qdiv, Qmult, Qinv, inject_Z; simpl. lia. Qed.

Lemma roundHalfUp_mono (x y : Q) :
  (x <= y)%Q -> Js.roundHalfUp x <= Js.roundHalfUp y.
Proof.
  intros Hxy. unfold Js.roundHalfUp. apply Qfloor_resp_le.
  apply Qplus_le_compat; [done | apply Qle_refl].
Qed.

Lemma roundHalfUp_Z (n : Z) : Js.roundHalfUp (inject_Z n) = n.
Proof.
  unfold Js.roundHalfUp.
  pose proof (Qfloor_le (inject_Z n + (1 # 2))) as H1.
  pose proof (Qlt_floor (inject_Z n + (1 # 2))) as H2.
  rewrite inject_Z_plus in H2. change (inject_Z 1) with 1%Q in H2.
  set (f := Qfloor (inject_Z n + (1 # 2))) in *.
  assert (f < n + 1).
  { rewrite Zlt_Qlt, inject_Z_plus. change (inject_Z 1) with 1%Q. lra. }
  assert (n < f + 1).
  { rewrite Zlt_Qlt, inject_Z_plus. change (inject_Z 1) with 1%Q. lra. }
  lia.
Qed.

Lemma roundHalfUp_comp (x y : Q) :
  (x == y)%Q -> Js.roundHalfUp x = Js.roundHalfUp y.
Proof.
  intros Heq. unfold Js.roundHalfUp. apply Qfloor_comp.
  by rewrite Heq.
Qed.

Lemma quotient_le (d n d' n' : Z) :
  0 < n -> 0 < n' -> d * n' <= d' * n ->
  (inject_Z d / inject_Z n <= inject_Z d' / inject_Z n')%Q.
Proof.
  intros Hn Hn' Hle. destruct n as [|p|p], n' as [|p'|p']; try lia.
  rewrite !Qdiv_inject_pos. unfold Qle; simpl. lia.
Qed.

End rounding.

(** ** Rounding to the nearest double *)

Section doubles.
Import Js.

Lemma pow2_pos z : (0 < pow2 z)%Q.
Proof. by apply Qpower_0_lt. Qed.

Lemma pow2_add a b : (pow2 (a + b) == pow2 a * pow2 b)%Q.
Proof. apply Qpower_plus. discriminate. Qed.

Lemma pow2_inv p : (pow2 (- p) * pow2 p == 1)%Q.
Proof. rewrite <- pow2_add. by replace (- p + p) with 0 by lia. Qed.

Lemma pow2_le a b : a <= b -> (pow2 a <= pow2 b)%Q.
Proof. intros H. by apply Qpower_le_compat_l. Qed.

Lemma pow2_lt a b : a < b -> (pow2 a < pow2 b)%Q.
Proof. intros H. by apply Qpower_lt_compat_l. Qed.

Lemma pow2_Z n : 0 <= n -> (pow2 n == inject_Z (2 ^ n))%Q.
Proof. intros H. unfold pow2. by rewrite Zpower_Qpower. Qed.

Lemma pow2_lt_inv a b : (pow2 a < pow2 b)%Q -> a < b.
Proof.
  intros H. destruct (Z.lt_ge_cases a b) as [|Hge]; [done|].
  apply pow2_le in Hge. lra.
Qed.

Lemma Q_as_quotient (a : Q) : (a * inject_Z (Z.pos (Qden a)) == inject_Z (Qnum a))%Q.
Proof. destruct a as [n d]. unfold Qeq, Qmult, inject_Z; simpl. lia. Qed.

Lemma ilog2_spec (a : Q) :
  (0 < a)%Q -> (pow2 (ilog2 a) <= a < pow2 (ilog2 a + 1))%Q.
Proof.
  intros Ha.
  pose proof (Q_as_quotient a) as Hq.
  assert (Hn : 0 < Qnum a) by (destruct a as [n d]; unfold Qlt in Ha; simpl in *; lia).
  set (n := Qnum a) in *. set (d := Z.pos (Qden a)) in *.
  assert (Hd : 0 < d) by done.
  pose proof (Z.log2_spec n Hn) as [Hn1 Hn2].
  pose proof (Z.log2_spec d Hd) as [Hd1 Hd2].
  pose proof (Z.log2_nonneg n) as Hln. pose proof (Z.log2_nonneg d) as Hld.
  set (ln := Z.log2 n) in *. set (ld := Z.log2 d) in *.
  assert (HD : (0 < inject_Z d)%Q).
  { change (inject_Z 0 < inject_Z d)%Q. by rewrite <- Zlt_Qlt. }
  rewrite Zle_Qle, <- pow2_Z in Hn1, Hd1 by lia.
  rewrite Zlt_Qlt, <- pow2_Z in Hn2, Hd2 by lia.
  assert (Hup : (a < pow2 (ln - ld + 1))%Q).
  { apply (Qmult_lt_r _ _ (inject_Z d) HD). rewrite Hq.
    eapply Qlt_le_trans; [exact Hn2|].
    replace (Z.succ ln) with ((ln - ld + 1) + ld) by lia.
    rewrite pow2_add. apply Qmult_le_l; [apply pow2_pos | done]. }
  assert (Hlo : (pow2 (ln - ld - 1) <= a)%Q).
  { apply (Qmult_le_r _ _ (inject_Z d) HD). rewrite Hq.
    eapply Qle_trans; [|exact Hn1].
    replace ln with ((ln - ld - 1) + Z.succ ld) at 2 by lia.
    rewrite pow2_add. apply Qmult_le_l; [apply pow2_pos | lra]. }
  unfold ilog2. fold n d ln ld.
  destruct (Qle_bool (pow2 (ln - ld)) a) eqn:Hb.
  - apply Qle_bool_iff in Hb. done.
  - assert (Hlt : (a < pow2 (ln - ld))%Q).
    { apply Qnot_le_lt. intros H. apply Qle_bool_iff in H. congruence. }
    replace (ln - ld - 1 + 1) with (ln - ld) by lia. done.
Qed.

Lemma ilog2_unique (a : Q) (e : Z) :
  (pow2 e <= a < pow2 (e + 1))%Q -> ilog2 a = e.
Proof.
  intros [H1 H2].
  assert (Ha : (0 < a)%Q) by (pose proof (pow2_pos e); lra).
  destruct (ilog2_spec a Ha) as [H3 H4].
  assert (ilog2 a < e + 1) by (apply pow2_lt_inv; lra).
  assert (e < ilog2 a + 1) by (apply pow2_lt_inv; lra).
  lia.
Qed.

Lemma ilog2_comp (a b : Q) : (0 < a)%Q -> (a == b)%Q -> ilog2 a = ilog2 b.
Proof.
  intros Ha Hab. symmetry. apply ilog2_unique. rewrite <- Hab. by apply ilog2_spec.
Qed.

Lemma ilog2_mono (a b : Q) : (0 < a)%Q -> (a <= b)%Q -> ilog2 a <= ilog2 b.
Proof.
  intros Ha Hab.
  destruct (ilog2_spec a Ha) as [H1 H2].
  destruct (ilog2_spec b ltac:(lra)) as [H3 H4].
  assert (ilog2 a < ilog2 b + 1) by (apply pow2_lt_inv; lra).
  lia.
Qed.


Lemma inject_Z_succ (f : Z) : (inject_Z (f + 1) == inject_Z f + 1)%Q.
Proof. by rewrite inject_Z_plus. Qed.

Lemma rne_floor (z : Q) : rne z = Qfloor z \/ rne z = Qfloor z + 1.
Proof.
  unfold rne. destruct (z - inject_Z (Qfloor z) ?= 1 # 2)%Q; auto.
  destruct (Z.even (Qfloor z)); auto.
Qed.

Lemma rne_spec (z : Q) :
  (z - (1 # 2) <= inject_Z (rne z) <= z + (1 # 2))%Q.
Proof.
  pose proof (Qfloor_le z) as H1. pose proof (Qlt_floor z) as H2.
  rewrite inject_Z_succ in H2.
  unfold rne.
  destruct (Qcompare_spec (z - inject_Z (Qfloor z)) (1 # 2)) as [He|Hl|Hg].
  - destruct (Z.even (Qfloor z)); rewrite ?inject_Z_succ; lra.
  - lra.
  - rewrite inject_Z_succ. lra.
Qed.

Lemma rne_Z (n : Z) : rne (inject_Z n) = n.
Proof.
  unfold rne. rewrite Qfloor_Z.
  destruct (Qcompare_spec (inject_Z n - inject_Z n) (1 # 2)) as [He|Hl|Hg];
    [lra | done | lra].
Qed.

Lemma rne_comp (x y : Q) : (x == y)%Q -> rne x = rne y.
Proof.
  intros H. unfold rne. rewrite (Qfloor_comp _ _ H).
  assert (Hc : (x - inject_Z (Qfloor y) == y - inject_Z (Qfloor y))%Q) by lra.
  by rewrite (Qcompare_comp _ _ Hc _ _ (Qeq_refl (1 # 2))).
Qed.

Lemma rne_mono (x y : Q) : (x <= y)%Q -> rne x <= rne y.
Proof.
  intros Hxy. pose proof (Qfloor_resp_le _ _ Hxy) as Hf.
  destruct (Z.eq_dec (Qfloor x) (Qfloor y)) as [He|Hne].
  - unfold rne. rewrite He.
    destruct (Qcompare_spec (x - inject_Z (Qfloor y)) (1 # 2)) as [Hx|Hx|Hx];
      destruct (Qcompare_spec (y - inject_Z (Qfloor y)) (1 # 2)) as [Hy|Hy|Hy];
      try destruct (Z.even (Qfloor y)); try lia; lra.
  - destruct (rne_floor x) as [-> | ->], (rne_floor y) as [-> | ->]; lia.
Qed.

Lemma rne_ge (m : Z) (z : Q) : (inject_Z m <= z)%Q -> m <= rne z.
Proof. intros H. rewrite <- (rne_Z m). by apply rne_mono. Qed.

Lemma rne_le (m : Z) (z : Q) : (z <= inject_Z m)%Q -> rne z <= m.
Proof. intros H. rewrite <- (rne_Z m). by apply rne_mono. Qed.

Lemma rne_lt (n : Z) (z : Q) : (z + (1 # 2) < inject_Z n)%Q -> rne z < n.
Proof.
  intros H. destruct (rne_spec z) as [_ Hu].
  rewrite Zlt_Qlt. lra.
Qed.

(** The scaled value and the binade of a positive rational. *)
Lemma ulpExp_comp (a b : Q) : (0 < a)%Q -> (a == b)%Q -> ulpExp a = ulpExp b.
Proof. intros Ha H. unfold ulpExp. by rewrite (ilog2_comp a b). Qed.

Lemma rndPos_comp (a b : Q) : (0 < a)%Q -> (a == b)%Q -> (rndPos a == rndPos b)%Q.
Proof.
  intros Ha H. unfold rndPos. rewrite (ulpExp_comp a b Ha H).
  rewrite (rne_comp (a * pow2 (- ulpExp b)) (b * pow2 (- ulpExp b))); [reflexivity|].
  by rewrite H.
Qed.

Lemma rndPos_nonneg (a : Q) : (0 < a)%Q -> (0 <= rndPos a)%Q.
Proof.
  intros Ha. unfold rndPos.
  apply Qmult_le_0_compat; [|apply Qlt_le_weak, pow2_pos].
  change (inject_Z 0 <= inject_Z (rne (a * pow2 (- ulpExp a))))%Q.
  rewrite <- Zle_Qle. apply rne_ge.
  apply Qmult_le_0_compat; [lra | apply Qlt_le_weak, pow2_pos].
Qed.

(** A rounded value does not leave the closed binade of its argument. *)
Lemma rndPos_upper (a : Q) :
  (0 < a)%Q -> (rndPos a <= pow2 (ulpExp a + 53))%Q.
Proof.
  intros Ha. destruct (ilog2_spec a Ha) as [_ Hlt].
  set (p := ulpExp a).
  assert (Hle : (a <= pow2 (p + 53))%Q).
  { apply Qlt_le_weak. eapply Qlt_le_trans; [exact Hlt|].
    apply pow2_le. unfold p, ulpExp. lia. }
  unfold rndPos. fold p.
  assert (Hr : rne (a * pow2 (- p)) <= 2 ^ 53).
  { apply rne_le. rewrite <- pow2_Z by lia.
    replace 53 with ((p + 53) + - p) by lia. rewrite pow2_add.
    apply Qmult_le_compat_r; [done | apply Qlt_le_weak, pow2_pos]. }
  rewrite Zle_Qle in Hr. rewrite <- pow2_Z in Hr by lia.
  rewrite (Z.add_comm p 53), pow2_add.
  apply Qmult_le_compat_r; [done | apply Qlt_le_weak, pow2_pos].
Qed.

Lemma rndPos_lower (a : Q) :
  (0 < a)%Q -> -1022 <= ilog2 a -> (pow2 (ilog2 a) <= rndPos a)%Q.
Proof.
  intros Ha He. destruct (ilog2_spec a Ha) as [Hle _].
  assert (Hp : ulpExp a = ilog2 a - 52) by (unfold ulpExp; lia).
  unfold rndPos. rewrite Hp. set (e := ilog2 a) in *.
  assert (Hr : 2 ^ 52 <= rne (a * pow2 (- (e - 52)))).
  { apply rne_ge. rewrite <- pow2_Z by lia.
    replace 52 with (e + - (e - 52)) at 1 by lia. rewrite pow2_add.
    apply Qmult_le_compat_r; [done | apply Qlt_le_weak, pow2_pos]. }
  rewrite Zle_Qle in Hr. rewrite <- pow2_Z in Hr by lia.
  replace e with (52 + (e - 52)) at 1 by lia. rewrite pow2_add.
  apply Qmult_le_compat_r; [done | apply Qlt_le_weak, pow2_pos].
Qed.

Lemma rndPos_mono (a b : Q) :
  (0 < a)%Q -> (a <= b)%Q -> (rndPos a <= rndPos b)%Q.
Proof.
  intros Ha Hab. assert (Hb : (0 < b)%Q) by lra.
  pose proof (ilog2_mono a b Ha Hab) as He.
  destruct (Z.eq_dec (ulpExp a) (ulpExp b)) as [Heq|Hne].
  - unfold rndPos. rewrite Heq.
    apply Qmult_le_compat_r; [|apply Qlt_le_weak, pow2_pos].
    rewrite <- Zle_Qle. apply rne_mono.
    apply Qmult_le_compat_r; [done | apply Qlt_le_weak, pow2_pos].
  - assert (Hlt : ulpExp a < ulpExp b) by (unfold ulpExp in *; lia).
    assert (Hbn : -1022 <= ilog2 b) by (unfold ulpExp in *; lia).
    eapply Qle_trans; [apply rndPos_upper; done|].
    eapply Qle_trans; [|apply rndPos_lower; done].
    apply pow2_le. unfold ulpExp in *. lia.
Qed.

Lemma rndQ_0 : rndQ 0 = 0%Q.
Proof. reflexivity. Qed.

Lemma rndQ_pos (x : Q) : (0 < x)%Q -> rndQ x = rndPos x.
Proof. intros H. unfold rndQ. by destruct (Qcompare_spec x 0); try lra. Qed.

Lemma rndQ_neg (x : Q) : (x < 0)%Q -> rndQ x = (- rndPos (- x))%Q.
Proof. intros H. unfold rndQ. by destruct (Qcompare_spec x 0); try lra. Qed.

Lemma rndQ_zero (x : Q) : (x == 0)%Q -> rndQ x = 0%Q.
Proof. intros H. unfold rndQ. by destruct (Qcompare_spec x 0); try lra. Qed.

Lemma rndQ_comp (x y : Q) : (x == y)%Q -> (rndQ x == rndQ y)%Q.
Proof.
  intros H. destruct (Qcompare_spec x 0) as [Hz|Hn|Hp].
  - rewrite (rndQ_zero x), (rndQ_zero y); [reflexivity | lra | done].
  - rewrite (rndQ_neg x), (rndQ_neg y) by lra.
    rewrite (rndPos_comp (- x) (- y)); [reflexivity | lra | lra].
  - rewrite (rndQ_pos x), (rndQ_pos y) by lra. by apply rndPos_comp.
Qed.

Lemma rndQ_mono (x y : Q) : (x <= y)%Q -> (rndQ x <= rndQ y)%Q.
Proof.
  intros Hxy.
  destruct (Qcompare_spec x 0) as [Hx|Hx|Hx];
    destruct (Qcompare_spec y 0) as [Hy|Hy|Hy]; try lra.
  - rewrite (rndQ_zero x), (rndQ_zero y) by done. lra.
  - rewrite (rndQ_zero x), (rndQ_pos y) by done. by apply rndPos_nonneg.
  - rewrite (rndQ_neg x), (rndQ_zero y) by done.
    pose proof (rndPos_nonneg (- x)). lra.
  - rewrite (rndQ_neg x), (rndQ_neg y) by done.
    pose proof (rndPos_mono (- y) (- x)). lra.
  - rewrite (rndQ_neg x), (rndQ_pos y) by done.
    pose proof (rndPos_nonneg (- x)). pose proof (rndPos_nonneg y). lra.
  - rewrite (rndQ_pos x), (rndQ_pos y) by done. by apply rndPos_mono.
Qed.

Lemma rndQ_1 : (rndQ 1 == 1)%Q.
Proof. vm_compute. reflexivity. Qed.

Lemma rndQ_100 : (rndQ 100 == 100)%Q.
Proof. vm_compute. reflexivity. Qed.


Lemma Qfloor_unique (x : Q) (k : Z) :
  (inject_Z k <= x < inject_Z (k + 1))%Q -> Qfloor x = k.
Proof.
  intros [H1 H2]. pose proof (Qfloor_le x). pose proof (Qlt_floor x).
  assert (k < Qfloor x + 1) by (rewrite Zlt_Qlt; lra).
  assert (Qfloor x < k + 1) by (rewrite Zlt_Qlt; lra).
  lia.
Qed.

Lemma inject_Z_pos (b : Z) : 0 < b -> (0 < inject_Z b)%Q.
Proof. intros H. change (inject_Z 0 < inject_Z b)%Q. by rewrite <- Zlt_Qlt. Qed.

(** The double quotient of two safe integers lies in the same unit
    interval as the exact quotient. *)
Lemma rndQ_quotient (a b : Z) :
  0 <= a < 2 ^ 53 -> 0 < b < 2 ^ 53 ->
  (inject_Z (a / b) <= rndQ (inject_Z a / inject_Z b) < inject_Z (a / b + 1))%Q.
Proof.
  intros Ha Hb.
  pose proof (inject_Z_pos b ltac:(lia)) as HB.
  destruct (Z.eq_dec a 0) as [->|Hne].
  { rewrite rndQ_zero by (unfold Qdiv; change (inject_Z 0) with 0%Q; ring).
    rewrite Z.div_0_l by lia. split; [apply Qle_refl | reflexivity]. }
  set (q := (inject_Z a / inject_Z b)%Q).
  assert (HqB : (q * inject_Z b == inject_Z a)%Q) by (unfold q; field; lra).
  pose proof (inject_Z_pos a ltac:(lia)) as HA.
  assert (Hq : (0 < q)%Q).
  { apply (Qmult_lt_r _ _ (inject_Z b) HB). rewrite HqB, Qmult_0_l. done. }
  pose proof (Z.log2_spec b ltac:(lia)) as [Hj1 Hj2].
  pose proof (Z.log2_nonneg b) as Hj0.
  assert (Hj53 : Z.log2 b < 53) by (apply Z.log2_lt_pow2; lia).
  set (j := Z.log2 b) in *.
  assert (Hqlt : (q < pow2 (53 - j))%Q).
  { apply (Qmult_lt_r _ _ (inject_Z b) HB). rewrite HqB.
    apply Qlt_le_trans with (pow2 53).
    - rewrite pow2_Z by lia. rewrite <- Zlt_Qlt. lia.
    - replace 53 with ((53 - j) + j) at 1 by lia. rewrite pow2_add.
      apply Qmult_le_l; [apply pow2_pos|].
      rewrite pow2_Z by lia. rewrite <- Zle_Qle. lia. }
  assert (He : ilog2 q < 53 - j).
  { apply pow2_lt_inv. destruct (ilog2_spec q Hq) as [Hl _]. lra. }
  assert (Hp : ulpExp q <= - j) by (unfold ulpExp; lia).
  rewrite (rndQ_pos q Hq). unfold rndPos.
  set (p := ulpExp q) in *.
  set (T := 2 ^ (- p)).
  assert (HT : (pow2 (- p) == inject_Z T)%Q) by (apply pow2_Z; lia).
  assert (HTj : 2 ^ j <= T) by (apply Z.pow_le_mono_r; lia).
  assert (HT2 : b < 2 * T).
  { replace (Z.succ j) with (j + 1) in Hj2 by lia.
    rewrite Z.pow_add_r in Hj2 by lia. lia. }
  set (z := (q * pow2 (- p))%Q).
  assert (HzB : (z * inject_Z b == inject_Z (a * T))%Q).
  { unfold z. rewrite inject_Z_mult, <- HqB, HT. ring. }
  pose proof (Z.mul_div_le a b ltac:(lia)) as Hk1.
  pose proof (Z.mul_succ_div_gt a b ltac:(lia)) as Hk2.
  set (k := a / b) in *.
  assert (Hk0 : 0 <= k) by (apply Z.div_pos; lia).
  assert (HL : k * T <= rne z).
  { apply rne_ge. apply (Qmult_le_r _ _ (inject_Z b) HB). rewrite HzB.
    rewrite <- inject_Z_mult, <- Zle_Qle. nia. }
  assert (HU : rne z < (k + 1) * T).
  { apply rne_lt. apply (Qmult_lt_r _ _ (inject_Z b) HB).
    assert (Hd : ((z + (1 # 2)) * inject_Z b
                  == z * inject_Z b + (1 # 2) * inject_Z b)%Q) by ring.
    rewrite Hd, HzB, <- inject_Z_mult.
    assert (HQ : (inject_Z (2 * (a * T) + b) < inject_Z (2 * ((k + 1) * T * b)))%Q).
    { rewrite <- Zlt_Qlt. nia. }
    rewrite inject_Z_plus, !(inject_Z_mult 2) in HQ.
    change (inject_Z 2) with 2%Q in HQ. lra. }
  assert (Hscale : forall m : Z, (inject_Z (m * T) * pow2 p == inject_Z m)%Q).
  { intros m. rewrite inject_Z_mult, <- HT, <- Qmult_assoc, pow2_inv. ring. }
  split.
  - rewrite <- (Hscale k).
    apply Qmult_le_compat_r; [|apply Qlt_le_weak, pow2_pos].
    by rewrite <- Zle_Qle.
  - apply Qle_lt_trans with (inject_Z ((k + 1) * T - 1) * pow2 p)%Q.
    + apply Qmult_le_compat_r; [|apply Qlt_le_weak, pow2_pos].
      rewrite <- Zle_Qle. lia.
    + unfold Z.sub. rewrite inject_Z_plus, Qmult_plus_distr_l, Hscale.
      pose proof (pow2_pos p). change (inject_Z (- (1))) with (- (1))%Q. lra.
Qed.

Lemma rndQ_quotient_floor (a b : Z) :
  0 <= a < 2 ^ 53 -> 0 < b < 2 ^ 53 ->
  Qfloor (rndQ (inject_Z a / inject_Z b)) = a / b.
Proof. intros Ha Hb. apply Qfloor_unique. by apply rndQ_quotient. Qed.

(** Rounding moves a value by at most half a unit in the last place. *)
Lemma rndPos_error (a : Q) :
  (0 < a)%Q ->
  (a - pow2 (ulpExp a) * (1 # 2) <= rndPos a
   <= a + pow2 (ulpExp a) * (1 # 2))%Q.
Proof.
  intros Ha. unfold rndPos. set (p := ulpExp a).
  pose proof (pow2_pos p) as HP.
  destruct (rne_spec (a * pow2 (- p))) as [Hlo Hhi].
  assert (Hz : (a * pow2 (- p) * pow2 p == a)%Q).
  { rewrite <- Qmult_assoc, pow2_inv. ring. }
  apply (Qmult_le_compat_r _ _ (pow2 p)) in Hlo; [|lra].
  apply (Qmult_le_compat_r _ _ (pow2 p)) in Hhi; [|lra].
  assert (H1 : ((a * pow2 (- p) - (1 # 2)) * pow2 p
                == a - pow2 p * (1 # 2))%Q).
  { rewrite <- Hz at 2. ring. }
  assert (H2 : ((a * pow2 (- p) + (1 # 2)) * pow2 p
                == a + pow2 p * (1 # 2))%Q).
  { rewrite <- Hz at 2. ring. }
  rewrite H1 in Hlo. rewrite H2 in Hhi. done.
Qed.

Lemma rndQ_error (a : Q) (e : Z) :
  (0 <= a)%Q -> (a < pow2 e)%Q -> -1021 <= e ->
  (a - pow2 (e - 54) <= rndQ a <= a + pow2 (e - 54))%Q.
Proof.
  intros H0 Hlt He. pose proof (pow2_pos (e - 54)) as Hpos.
  destruct (Qcompare_spec a 0) as [Hz|Hn|Hp]; [|lra|].
  - rewrite (rndQ_zero a Hz). lra.
  - rewrite (rndQ_pos a Hp).
    destruct (ilog2_spec a Hp) as [Hl _].
    assert (Hi : ilog2 a < e) by (apply pow2_lt_inv; lra).
    assert (Hu : ulpExp a <= e - 53) by (unfold ulpExp; lia).
    apply pow2_le in Hu.
    assert (Hh : (pow2 (e - 53) == pow2 (e - 54) * 2)%Q).
    { replace (e - 53) with ((e - 54) + 1) by lia. by rewrite pow2_add. }
    pose proof (rndPos_error a Hp). lra.
Qed.

(** Integers below [2^53] are doubles. *)
Lemma rndQ_safe (z : Z) :
  0 <= z < 2 ^ 53 -> (rndQ (inject_Z z) == inject_Z z)%Q.
Proof.
  intros Hz. destruct (Z.eq_dec z 0) as [->|Hne]; [reflexivity|].
  pose proof (inject_Z_pos z ltac:(lia)) as Ha.
  rewrite (rndQ_pos _ Ha). unfold rndPos.
  assert (Hlt : (inject_Z z < pow2 53)%Q).
  { rewrite pow2_Z by lia. rewrite <- Zlt_Qlt. lia. }
  destruct (ilog2_spec _ Ha) as [Hl _].
  assert (Hi : ilog2 (inject_Z z) < 53) by (apply pow2_lt_inv; lra).
  set (p := ulpExp (inject_Z z)).
  assert (Hp : p <= 0) by (unfold p, ulpExp; lia).
  assert (HT : (pow2 (- p) == inject_Z (2 ^ (- p)))%Q) by (apply pow2_Z; lia).
  assert (Hs : (inject_Z z * pow2 (- p) == inject_Z (z * 2 ^ (- p)))%Q).
  { by rewrite inject_Z_mult, HT. }
  rewrite (rne_comp _ _ Hs), rne_Z.
  rewrite inject_Z_mult, <- HT, <- Qmult_assoc, pow2_inv. ring.
Qed.

(** In the normal range rounding is off by at most one part in
    [2^53]. *)
Lemma rndQ_relative (a : Q) :
  (pow2 (-1022) <= a)%Q ->
  (a - a * (1 # 9007199254740992) <= rndQ a
   <= a + a * (1 # 9007199254740992))%Q.
Proof.
  intros Hn. pose proof (pow2_pos (-1022)) as Hpos.
  assert (Ha : (0 < a)%Q) by lra.
  rewrite (rndQ_pos a Ha).
  destruct (ilog2_spec a Ha) as [Hl Hu].
  assert (Hi : -1022 < ilog2 a + 1) by (apply pow2_lt_inv; lra).
  assert (Hp : ulpExp a = ilog2 a + -52) by (unfold ulpExp; lia).
  pose proof (rndPos_error a Ha) as He. rewrite Hp, pow2_add in He.
  change (pow2 (-52)) with (1 # 4503599627370496)%Q in He.
  lra.
Qed.

End doubles.

(** ** Arithmetic on numbers *)

Section numbers.
Import Js ProgressSpec.

Lemma inject_Z_nonneg (a : Z) : 0 <= a -> (0 <= inject_Z a)%Q.
Proof. intros H. change (inject_Z 0 <= inject_Z a)%Q. by rewrite <- Zle_Qle. Qed.

(** A rounded value of no more than [2^53] in magnitude is finite. *)
Lemma rnd_small (x : Q) :
  (0 <= rndQ x <= inject_Z (2 ^ 53))%Q -> rnd x = Fin (Qred (rndQ x)).
Proof.
  intros [H1 H2]. unfold rnd.
  assert (Hbig : (inject_Z (2 ^ 53) < pow2 1024)%Q).
  { rewrite <- pow2_Z by lia. apply pow2_lt. lia. }
  destruct (Qle_bool (pow2 1024) (rndQ x)) eqn:Ha.
  { apply Qle_bool_iff in Ha. lra. }
  destruct (Qle_bool (rndQ x) (- pow2 1024)) eqn:Hb.
  { apply Qle_bool_iff in Hb. lra. }
  done.
Qed.

Lemma lt_ofZ (a b : Z) : lt (ofZ a) (ofZ b) = (a <? b).
Proof.
  unfold lt, gt, ofZ.
  destruct (Z.ltb_spec a b) as [Hlt|Hge].
  - apply negb_true_iff, not_true_iff_false. rewrite Qle_bool_iff, <- Zle_Qle. lia.
  - apply negb_false_iff. rewrite Qle_bool_iff, <- Zle_Qle. lia.
Qed.

Lemma gt_Fin_0 (x : Q) : gt (Fin x) (ofZ 0) = true <-> (0 < x)%Q.
Proof.
  unfold gt, ofZ. change (inject_Z 0) with 0%Q.
  rewrite negb_true_iff, <- not_true_iff_false, Qle_bool_iff.
  split; [apply Qnot_le_lt | apply Qlt_not_le].
Qed.

Lemma div_ofZ (a b : Z) :
  0 < b -> div (ofZ a) (ofZ b) = rnd (inject_Z a / inject_Z b).
Proof.
  intros Hb. pose proof (inject_Z_pos b Hb) as HB. unfold div, ofZ.
  by destruct (Qcompare_spec (inject_Z b) 0); try lra.
Qed.

(** [Math.floor(a / b)] is the integer quotient for safe integers. *)
Lemma Math_floor_div (a b : Z) :
  0 <= a < 2 ^ 53 -> 0 < b < 2 ^ 53 ->
  Math_floor (div (ofZ a) (ofZ b)) = ofZ (a / b).
Proof.
  intros Ha Hb. rewrite div_ofZ by lia.
  pose proof (rndQ_quotient a b Ha Hb) as [Hlo Hhi].
  assert (Hk : 0 <= a / b) by (apply Z.div_pos; lia).
  assert (Hk' : a / b + 1 <= 2 ^ 53).
  { pose proof (Z.div_le_upper_bound a b a ltac:(lia) ltac:(nia)). lia. }
  rewrite rnd_small.
  - simpl. rewrite (Qfloor_comp _ _ (Qred_correct _)).
    by rewrite rndQ_quotient_floor.
  - pose proof (inject_Z_nonneg _ Hk) as H0.
    rewrite Zle_Qle in Hk'. lra.
Qed.

Lemma rem_ofZ (a b : Z) : 0 < b -> rem (ofZ a) (ofZ b) = ofZ (Z.rem a b).
Proof.
  intros Hb. destruct b as [|p|p]; try lia.
  unfold rem, ofZ.
  assert (Hnz : Qeq_bool (inject_Z (Z.pos p)) 0 = false).
  { apply not_true_iff_false. rewrite Qeq_bool_iff.
    pose proof (inject_Z_pos (Z.pos p) Hb). lra. }
  rewrite Hnz. f_equal.
  rewrite <- (inject_Z_Qred (Z.rem a (Z.pos p))). apply Qred_complete.
  simpl. rewrite Z.mul_1_r.
  replace (Z.rem a (Z.pos p)) with (a + - (Z.pos p * Z.quot a (Z.pos p)))
    by (pose proof (Z.quot_rem' a (Z.pos p)); lia).
  rewrite inject_Z_plus, inject_Z_opp, inject_Z_mult. reflexivity.
Qed.

Lemma unit_quotient (d t : nat) :
  (d <= t)%nat -> (0 < t)%nat ->
  (0 <= inject_Z (Z.of_nat d) / inject_Z (Z.of_nat t) <= 1)%Q.
Proof.
  intros Hd Ht. pose proof (inject_Z_pos (Z.of_nat t) ltac:(lia)) as HT.
  split.
  - apply Qle_shift_div_l; [done|]. rewrite Qmult_0_l.
    apply inject_Z_nonneg. lia.
  - apply Qle_shift_div_r; [done|]. rewrite Qmult_1_l.
    rewrite <- Zle_Qle. lia.
Qed.

Lemma unit_rounded (q : Q) : (0 <= q <= 1)%Q -> (0 <= rndQ q <= 1)%Q.
Proof.
  intros [H0 H1]. split.
  - rewrite <- rndQ_0. by apply rndQ_mono.
  - apply Qle_trans with (rndQ 1); [by apply rndQ_mono|].
    rewrite rndQ_1. apply Qle_refl.
Qed.

Lemma percentValue_range (d t : nat) :
  (d <= t)%nat -> (0 < t)%nat -> (0 <= percentValue d t <= 100)%Q.
Proof.
  intros Hd Ht. unfold percentValue.
  pose proof (unit_rounded _ (unit_quotient d t Hd Ht)) as [H0 H1].
  split.
  - rewrite <- rndQ_0. apply rndQ_mono. lra.
  - apply Qle_trans with (rndQ 100); [apply rndQ_mono; lra|].
    rewrite rndQ_100. apply Qle_refl.
Qed.

Lemma percentValue_mono (d t d' t' : nat) :
  (0 < t)%nat -> (0 < t')%nat -> (d * t' <= d' * t)%nat ->
  (percentValue d t <= percentValue d' t')%Q.
Proof.
  intros Ht Ht' Hle. unfold percentValue.
  apply rndQ_mono, Qmult_le_compat_r; [|done].
  apply rndQ_mono, quotient_le; lia.
Qed.

(** The rounded percentage is a finite integer. *)
Lemma roundedPercent_value (d t : nat) :
  (d <= t)%nat -> (0 < t)%nat ->
  roundedPercent d t = ofZ (roundHalfUp (percentValue d t)).
Proof.
  intros Hd Ht. unfold roundedPercent, ofNat.
  pose proof (unit_rounded _ (unit_quotient d t Hd Ht)) as [H0 H1].
  pose proof (percentValue_range d t Hd Ht) as [H2 H3].
  assert (Hbig : (100 <= inject_Z (2 ^ 53))%Q) by (vm_compute; discriminate).
  rewrite div_ofZ by lia. rewrite rnd_small by lra.
  set (r1 := rndQ (inject_Z (Z.of_nat d) / inject_Z (Z.of_nat t))) in *.
  assert (Heq : (rndQ (Qred r1 * inject_Z 100) == percentValue d t)%Q).
  { unfold percentValue. fold r1. apply rndQ_comp.
    rewrite (Qred_correct r1). reflexivity. }
  unfold mul, ofZ at 1. rewrite rnd_small by (rewrite Heq; lra).
  unfold Math_round. f_equal. apply roundHalfUp_comp.
  by rewrite (Qred_correct _).
Qed.

(** Sums of integers that stay below [2^53] are computed without
    rounding. *)
Lemma add_safe (a b : Z) :
  0 <= a -> 0 <= b -> a + b < 2 ^ 53 -> add (ofZ a) (ofZ b) = ofZ (a + b).
Proof.
  intros Ha Hb Hab. unfold add, ofZ. rewrite <- inject_Z_plus.
  pose proof (rndQ_safe (a + b) ltac:(lia)) as Hs.
  rewrite rnd_small.
  - f_equal. rewrite (Qred_complete _ _ Hs). apply inject_Z_Qred.
  - rewrite Hs. split; [apply inject_Z_nonneg; lia|].
    rewrite <- Zle_Qle. lia.
Qed.

Lemma sumZ_nonneg (zs : list Z) : Forall (fun z => 0 <= z) zs -> 0 <= sumZ zs.
Proof. induction 1 as [|z zs Hz _ IH]; simpl; lia. Qed.

Lemma sumOf_safe (zs : list Z) (acc : Z) :
  0 <= acc -> Forall (fun z => 0 <= z) zs -> acc + sumZ zs < 2 ^ 53 ->
  foldl (fun acc d => add acc (Fin d)) (ofZ acc) (inject_Z <$> zs)
  = ofZ (acc + sumZ zs).
Proof.
  intros Hacc Hall. revert acc Hacc.
  induction Hall as [|z zs Hz Hzs IH]; intros acc Hacc Hlt.
  - simpl. by rewrite Z.add_0_r.
  - pose proof (sumZ_nonneg zs Hzs) as Hs.
    change (sumZ (z :: zs)) with (z + sumZ zs) in *.
    rewrite fmap_cons. cbn [foldl].
    change (Fin (inject_Z z)) with (ofZ z).
    rewrite add_safe by lia. rewrite IH by lia. f_equal. lia.
Qed.

(** The rounded percentage is a nearest integer to the exact one:
    rounding to doubles can only decide a tie the other way. *)
Lemma percentValue_nearest (d t : nat) :
  (d <= t)%nat -> (0 < t)%nat -> Z.of_nat t < 2 ^ 32 ->
  Z.abs (2 * (roundHalfUp (percentValue d t) * Z.of_nat t)
         - 200 * Z.of_nat d) <= Z.of_nat t.
Proof.
  intros Hd Ht Hlen.
  pose proof (inject_Z_pos (Z.of_nat t) ltac:(lia)) as HT.
  pose proof (unit_quotient d t Hd Ht) as [Hq0 Hq1].
  assert (HqT : (inject_Z (Z.of_nat d) / inject_Z (Z.of_nat t)
                 * inject_Z (Z.of_nat t) == inject_Z (Z.of_nat d))%Q)
    by (field; lra).
  unfold percentValue.
  set (D := inject_Z (Z.of_nat d)) in *. set (T := inject_Z (Z.of_nat t)) in *.
  set (q := (D / T)%Q) in *.
  assert (Hq2 : (q < pow2 1)%Q) by (change (pow2 1) with 2%Q; lra).
  pose proof (rndQ_error q 1 Hq0 Hq2 ltac:(lia)) as [E1 E1'].
  pose proof (unit_rounded q (conj Hq0 Hq1)) as [Hr0 Hr1].
  set (r1 := rndQ q) in *.
  assert (Hy0 : (0 <= r1 * 100)%Q) by lra.
  assert (Hy1 : (r1 * 100 < pow2 7)%Q) by (change (pow2 7) with 128%Q; lra).
  pose proof (rndQ_error (r1 * 100) 7 Hy0 Hy1 ltac:(lia)) as [E2 E2'].
  set (x := rndQ (r1 * 100)) in *.
  change (pow2 (1 - 54)) with (1 # 9007199254740992)%Q in E1, E1'.
  change (pow2 (7 - 54)) with (1 # 140737488355328)%Q in E2, E2'.
  pose proof (Qfloor_le (x + (1 # 2))) as F1.
  pose proof (Qlt_floor (x + (1 # 2))) as F2.
  fold (roundHalfUp x) in F1, F2.
  set (k := roundHalfUp x) in *.
  rewrite inject_Z_plus in F2. change (inject_Z 1) with 1%Q in F2.
  assert (HTlen : (T <= 4294967296)%Q).
  { change 4294967296%Q with (inject_Z (2 ^ 32)). unfold T.
    rewrite <- Zle_Qle. lia. }
  assert (A : ((inject_Z k - (1 # 2) - (1 # 35184372088832)) * T
               <= 100 * q * T)%Q).
  { apply Qmult_le_compat_r; lra. }
  assert (B : (100 * q * T
               <= (inject_Z k + (1 # 2) + (1 # 35184372088832)) * T)%Q).
  { apply Qmult_le_compat_r; lra. }
  assert (HqT' : (100 * q * T == 100 * D)%Q) by (rewrite <- HqT; ring).
  rewrite HqT' in A, B.
  assert (HkT : (inject_Z k * T == inject_Z (k * Z.of_nat t))%Q)
    by (unfold T; by rewrite inject_Z_mult).
  assert (A' : (inject_Z (k * Z.of_nat t) - (1 # 2) * T
                - (1 # 35184372088832) * T <= 100 * D)%Q).
  { rewrite <- HkT. lra. }
  assert (B' : (100 * D <= inject_Z (k * Z.of_nat t) + (1 # 2) * T
                + (1 # 35184372088832) * T)%Q).
  { rewrite <- HkT. lra. }
  assert (Hup : 2 * (k * Z.of_nat t) - 200 * Z.of_nat d - Z.of_nat t < 1).
  { rewrite Zlt_Qlt. unfold Z.sub.
    rewrite !inject_Z_plus, !inject_Z_opp, !(inject_Z_mult 2), !(inject_Z_mult 200).
    fold D T. change (inject_Z 2) with 2%Q. change (inject_Z 200) with 200%Q.
    change (inject_Z 1) with 1%Q. lra. }
  assert (Hdn : 200 * Z.of_nat d - 2 * (k * Z.of_nat t) - Z.of_nat t < 1).
  { rewrite Zlt_Qlt. unfold Z.sub.
    rewrite !inject_Z_plus, !inject_Z_opp, !(inject_Z_mult 2), !(inject_Z_mult 200).
    fold D T. change (inject_Z 2) with 2%Q. change (inject_Z 200) with 200%Q.
    change (inject_Z 1) with 1%Q. lra. }
  lia.
Qed.

End numbers.

(** ** The overall percentage *)

Section percent.
Import AnalysisProgress ProgressSpec.

Lemma progress_clearTimer st : progress (clearTimer st) = progress st.
Proof. unfold clearTimer. by destruct (timerRef st). Qed.

Lemma progress_callOnPaused props st :
  progress (callOnPaused props st) = progress st.
Proof. unfold callOnPaused. by destruct (onPaused props). Qed.

Lemma progress_onUpdate props e d st :
  progress (onUpdate props e d st) =
    match snapshot (e, d) with
    | Some p => Some p
    | None => progress st
    end.
Proof.
  unfold onUpdate, snapshot, report; simpl.
  destruct e; try (rewrite progress_callOnPaused, progress_clearTimer; done);
    destruct (data_name d) as [n|]; try done;
    destruct (Js.truthy n); try done;
    destruct (snapshotOf d); done.
Qed.

Lemma runUpdates_snoc props evs (ev : StreamEvent) st :
  runUpdates props (evs ++ [ev]) st =
    onUpdate props ev.1 ev.2 (runUpdates props evs st).
Proof. unfold runUpdates. by rewrite fold_left_app. Qed.

Lemma lastSnapshot_snoc evs (ev : StreamEvent) :
  lastSnapshot (evs ++ [ev]) =
    match snapshot ev with
    | Some p => Some p
    | None => lastSnapshot evs
    end.
Proof.
  unfold lastSnapshot. rewrite omap_app. simpl.
  destruct (snapshot ev) as [p|]; simpl.
  - by rewrite last_snoc.
  - by rewrite app_nil_r.
Qed.

Lemma progress_runUpdates props evs st :
  progress (runUpdates props evs st) =
    match lastSnapshot evs with
    | Some p => Some p
    | None => progress st
    end.
Proof.
  induction evs as [|[e d] evs IH] using rev_ind; [done|].
  rewrite runUpdates_snoc, lastSnapshot_snoc. simpl.
  rewrite progress_onUpdate, IH.
  by destruct (snapshot (e, d)).
Qed.

Lemma derivedPercent_nil : derivedPercent [] = 0%Q.
Proof. reflexivity. Qed.

Lemma doneCount_le_length (ss : list Stage) : (doneCount ss <= length ss)%nat.
Proof. apply length_filter. Qed.

Lemma countStatus_done (ss : list Stage) : countStatus "done" ss = doneCount ss.
Proof.
  unfold doneCount. induction ss as [|x l IH]; [done|].
  rewrite filter_cons. simpl. rewrite IH.
  destruct (String.eqb_spec (stage_status x) "done") as [He|Hne].
  - by rewrite decide_True.
  - by rewrite decide_False.
Qed.

Lemma derivedPercent_cons (x : Stage) (l : list Stage) :
  derivedPercent (x :: l) =
    Js.finite (roundedPercent (doneCount (x :: l)) (length (x :: l))).
Proof. reflexivity. Qed.

(** The fallback percentage of a non-empty list is finite. *)
Lemma derivedPercent_finite (ss : list Stage) :
  ss <> [] ->
  roundedPercent (doneCount ss) (length ss) = Js.Fin (derivedPercent ss).
Proof.
  destruct ss as [|x l]; [done|]. intros _.
  rewrite derivedPercent_cons.
  rewrite roundedPercent_value by (pose proof (doneCount_le_length (x :: l)); simpl in *; lia).
  reflexivity.
Qed.

Lemma derivedPercent_value (ss : list Stage) :
  ss <> [] ->
  derivedPercent ss
  = inject_Z (Js.roundHalfUp (percentValue (doneCount ss) (length ss))).
Proof.
  destruct ss as [|x l]; [done|]. intros _.
  rewrite derivedPercent_cons.
  rewrite roundedPercent_value by (pose proof (doneCount_le_length (x :: l)); simpl in *; lia).
  reflexivity.
Qed.

Lemma derivedPercent_nonneg (ss : list Stage) : (0 <= derivedPercent ss)%Q.
Proof.
  destruct ss as [|x l]; [done|].
  rewrite derivedPercent_value by done.
  change 0%Q with (inject_Z 0). rewrite <- Zle_Qle.
  rewrite <- (roundHalfUp_Z 0). apply roundHalfUp_mono.
  apply percentValue_range; [apply doneCount_le_length | simpl; lia].
Qed.

Lemma derivedPercent_mono (ss ss' : list Stage) :
  (doneCount ss * length ss' <= doneCount ss' * length ss)%nat ->
  ss' <> [] ->
  (derivedPercent ss <= derivedPercent ss')%Q.
Proof.
  intros Hle Hne. destruct ss as [|x l].
  { rewrite derivedPercent_nil. apply derivedPercent_nonneg. }
  destruct ss' as [|x' l']; [done|].
  rewrite !derivedPercent_value by done. rewrite <- Zle_Qle.
  apply roundHalfUp_mono, percentValue_mono; [simpl; lia .. | done].
Qed.

End percent.

Section percent_claims.
Import AnalysisProgress ProgressSpec.

Lemma doneCount_upsert_listed (s : Stage) (l : list Stage) :
  ~ regresses s l ->
  stage_name s ∈ (stage_name <$> l) ->
  (doneCount l <= doneCount (upsert s l))%nat.
Proof.
  induction l as [|x l IH]; intros Hreg Hin.
  - by apply elem_of_nil in Hin.
  - rewrite upsert_cons.
    destruct (decide (stage_name x = stage_name s)) as [He|Hne].
    + unfold doneCount. rewrite !filter_cons.
      destruct (decide (isDone x)) as [Hx|Hx]; [|destruct (decide (isDone s)); simpl; lia].
      destruct (decide (isDone s)) as [Hs|Hs]; [done|].
      exfalso. apply Hreg. exists x. split; [apply list_elem_of_here | done].
    + rewrite fmap_cons in Hin. apply elem_of_cons in Hin as [Hin|Hin]; [congruence|].
      assert (Hreg' : ~ regresses s l).
      { intros (old & Ho & Hrest). apply Hreg. exists old.
        split; [by apply list_elem_of_further | done]. }
      specialize (IH Hreg' Hin). unfold doneCount in *. rewrite !filter_cons.
      destruct (decide (isDone x)); simpl; lia.
Qed.

Lemma doneCount_snoc (s : Stage) (l : list Stage) :
  doneCount (l ++ [s]) =
    (doneCount l + if decide (isDone s) then 1 else 0)%nat.
Proof.
  unfold doneCount. rewrite list.filter_app, length_app, filter_cons, filter_nil.
  by destruct (decide (isDone s)).
Qed.

Lemma upsert_nonempty (s : Stage) (l : list Stage) : upsert s l <> [].
Proof.
  intros H. apply (f_equal length) in H. rewrite upsert_length in H.
  destruct l; [done|]. case_decide; simpl in H; lia.
Qed.

(** C2, as amended. Without an authoritative snapshot, a stage event
    that regresses no done stage and does not append a stage that is not
    done to a list holding a done stage never lowers the percentage. *)
Theorem overallPercent_monotone props st e d (s : Stage) :
  progress st = None ->
  snapshotOf d = None ->
  report (e, d) = Some s ->
  ~ regresses s (stages st) ->
  (appends s (stages st) -> isDone s \/ doneCount (stages st) = 0%nat) ->
  (overallPercent st <= overallPercent (onUpdate props e d st))%Q.
Proof.
  intros Hp Hsnap Hrep Hreg Happ. unfold overallPercent.
  rewrite progress_onUpdate. unfold snapshot. rewrite Hrep. simpl.
  rewrite Hsnap, Hp, stages_onUpdate, Hrep.
  apply derivedPercent_mono; [|apply upsert_nonempty].
  rewrite upsert_length.
  destruct (decide (stage_name s ∈ (stage_name <$> stages st))) as [Hin|Hnin].
  - apply Nat.mul_le_mono_r. by apply doneCount_upsert_listed.
  - rewrite upsert_append by done. rewrite doneCount_snoc.
    pose proof (doneCount_le_length (stages st)) as Hle.
    destruct (Happ Hnin) as [Hs|Hz].
    + rewrite decide_True by done. nia.
    + rewrite Hz. lia.
Qed.

(** C2, the claim as stated fails: after stage A is done the percentage
    is 100; the event that appends the running stage B regresses nothing
    and carries no snapshot, and the percentage falls to 50. *)
Lemma overallPercent_drops_on_append :
  let st := runUpdates Examples.props0 [Examples.stageEv "A" "done" 1500]
              Examples.mounted in
  let ev := Examples.stageEv "B" "running" 0 in
  progress st = None /\
  snapshotOf ev.2 = None /\
  report ev = Some (stageOf "B" ev.2) /\
  ~ regresses (stageOf "B" ev.2) (stages st) /\
  overallPercent st = 100%Q /\
  overallPercent (onUpdate Examples.props0 ev.1 ev.2 st) = 50%Q /\
  ~ (overallPercent st <= overallPercent (onUpdate Examples.props0 ev.1 ev.2 st))%Q.
Proof.
  simpl. repeat split; try reflexivity.
  - intros (old & Hin & Hname & _).
    apply list_elem_of_singleton in Hin. subst old. discriminate Hname.
  - vm_compute. intros H. apply H. reflexivity.
Qed.

End percent_claims.

(** ** Reachable states of a run *)

Section reachable.
Import AnalysisProgress ProgressSpec.

(** Steps other than a restart or a stream update leave the stage list
    and the snapshot alone. *)
Lemma step_frame props st a :
  match a with
  | Start _ | Update _ _ => True
  | _ => stages (step props st a) = stages st
         /\ progress (step props st a) = progress st
  end.
Proof.
  destruct a as [now|now|e d|r|msg| |o]; simpl; try done.
  - unfold onComplete. simpl. by rewrite stages_clearTimer, progress_clearTimer.
  - unfold onError. simpl. by rewrite stages_clearTimer, progress_clearTimer.
  - unfold handlePause_request. by destruct (isPausing st).
  - destruct o as [[|]|]; simpl; try done.
    by rewrite stages_callOnPaused, progress_callOnPaused,
         stages_clearTimer, progress_clearTimer.
Qed.

Lemma eventsSinceStart_snoc acts a :
  eventsSinceStart (acts ++ [a]) =
    match a with
    | Start _ => []
    | Update event data => eventsSinceStart acts ++ [(event, data)]
    | _ => eventsSinceStart acts
    end.
Proof. unfold eventsSinceStart. by rewrite fold_left_app. Qed.

Lemma run_snoc props acts a st :
  run props (acts ++ [a]) st = step props (run props acts st) a.
Proof. unfold run. by rewrite fold_left_app. Qed.

(** What a run shows of stages and snapshot is what the stream updates
    since the last start built. *)
Lemma run_view props now st0 acts :
  let st := run props acts (startAnalysis now st0) in
  let st' := runUpdates props (eventsSinceStart acts) (startAnalysis now st0) in
  stages st = stages st' /\ progress st = progress st'.
Proof.
  simpl. induction acts as [|a acts [IHs IHp]] using rev_ind; [done|].
  rewrite run_snoc, eventsSinceStart_snoc.
  pose proof (step_frame props (run props acts (startAnalysis now st0)) a) as Hf.
  destruct a as [now'|now'|e d|r|msg| |o].
  - split; reflexivity.
  - by destruct Hf as [-> ->].
  - rewrite runUpdates_snoc. simpl.
    rewrite !stages_onUpdate, !progress_onUpdate, IHs, IHp. done.
  - by destruct Hf as [-> ->].
  - by destruct Hf as [-> ->].
  - by destruct Hf as [-> ->].
  - by destruct Hf as [-> ->].
Qed.

Lemma suppliedSnapshot_snapshot (ev : StreamEvent) :
  suppliedSnapshot ev = snapshot ev.
Proof.
  destruct ev as [e d].
  unfold suppliedSnapshot, snapshot, report, snapshotOf, Js.truthy; simpl.
  destruct e; try done;
    destruct (data_name d) as [n|]; try done;
    destruct (String.eqb n ""); simpl;
    destruct (data_completed d), (data_total d), (data_percent d); done.
Qed.

Lemma lastSupplied_lastSnapshot (evs : list StreamEvent) :
  lastSupplied evs = lastSnapshot evs.
Proof.
  unfold lastSupplied, lastSnapshot.
  induction evs as [|ev evs IH]; [done|].
  cbn [foldr]. rewrite IH, suppliedSnapshot_snapshot.
  change (omap snapshot (ev :: evs))
    with (match snapshot ev with
          | Some p => p :: omap snapshot evs
          | None => omap snapshot evs
          end).
  destruct (snapshot ev) as [p|].
  - rewrite last_cons. by destruct (list.last (omap snapshot evs)).
  - by destruct (list.last (omap snapshot evs)).
Qed.

(** C6. In every state a run reaches, the overall percent is the
    percent of the snapshot most recently supplied since the start, if
    one was supplied; otherwise it is 0 while there is no stage, and else
    [round(done / total * 100)] as JavaScript evaluates it over the
    number of stages whose status is done and the number of stages: an
    integer from 0 to 100 and, the list being shorter than [2^32] (the
    most an array holds), a nearest integer to the exact percentage. *)
Theorem overallPercent_authoritative_or_derived props now st0
    (acts : list Action) :
  let st := run props acts (startAnalysis now st0) in
  let done := countStatus "done" (stages st) in
  let all := length (stages st) in
  match lastSupplied (eventsSinceStart acts) with
  | Some p => progress st = Some p /\ overallPercent st = percent p
  | None =>
      progress st = None /\
      if decide (all = 0%nat) then overallPercent st = 0%Q
      else
        Js.Fin (overallPercent st) = roundedPercent done all /\
        exists k : Z,
          overallPercent st = inject_Z k /\ 0 <= k <= 100 /\
          (Z.of_nat all < 2 ^ 32 ->
           Z.abs (2 * (k * Z.of_nat all) - 200 * Z.of_nat done)
             <= Z.of_nat all)
  end.
Proof.
  simpl. destruct (run_view props now st0 acts) as [Hs Hp].
  rewrite progress_runUpdates in Hp. simpl in Hp.
  rewrite lastSupplied_lastSnapshot, countStatus_done.
  unfold overallPercent. rewrite Hp.
  destruct (lastSnapshot (eventsSinceStart acts)) as [p|]; [done|].
  split; [done|].
  set (ss := stages (run props acts (startAnalysis now st0))).
  destruct (decide (length ss = 0%nat)) as [Hz|Hnz].
  - apply length_zero_iff_nil in Hz. by rewrite Hz.
  - assert (Hne : ss <> []) by (intros ->; done).
    split; [by rewrite derivedPercent_finite|].
    rewrite derivedPercent_value by done.
    eexists; split; [reflexivity|].
    pose proof (doneCount_le_length ss) as Hle.
    destruct (percentValue_range (doneCount ss) (length ss) Hle) as [H0 H1]; [lia|].
    split; [split|].
    + rewrite <- (roundHalfUp_Z 0). by apply roundHalfUp_mono.
    + rewrite <- (roundHalfUp_Z 100). by apply roundHalfUp_mono.
    + intros Hlen. apply percentValue_nearest; [done | lia | done].
Qed.

End reachable.

(** ** The remaining-time estimate *)

Section estimate.
Import AnalysisProgress ProgressSpec.

Lemma doneDurations_length (ss : list Stage) :
  length (doneDurations ss) = countStatus "done" ss.
Proof.
  unfold doneDurations. induction ss as [|x l IH]; [done|].
  cbn. destruct (String.eqb (stage_status x) "done"); cbn; by rewrite IH.
Qed.

Lemma sum_done (ss : list Stage) (a : Js.num) :
  fold_left (fun sum s => Js.add sum (Js.Fin (stage_duration_ms s)))
    (filter isDone ss) a
  = foldl (fun acc d => Js.add acc (Js.Fin d)) a (doneDurations ss).
Proof.
  unfold doneDurations. revert a. induction ss as [|x l IH]; intros a; [done|].
  rewrite filter_cons. cbn.
  destruct (String.eqb_spec (stage_status x) "done") as [He|Hne].
  - rewrite decide_True by done. cbn. apply IH.
  - rewrite decide_False by done. apply IH.
Qed.

Lemma countStatus_cons (status : string) (x : Stage) (l : list Stage) :
  countStatus status (x :: l) =
    ((if String.eqb (stage_status x) status then 1 else 0)
     + countStatus status l)%nat.
Proof. cbn. by destruct (String.eqb (stage_status x) status). Qed.

Lemma pendingCount_spec (ss : list Stage) :
  pendingCount ss = runningOrPending ss.
Proof.
  unfold pendingCount, runningOrPending.
  induction ss as [|x l IH]; [done|].
  rewrite filter_cons, !countStatus_cons.
  destruct (String.eqb_spec (stage_status x) "running") as [Hr|Hr];
    destruct (String.eqb_spec (stage_status x) "pending") as [Hp|Hp].
  - rewrite Hr in Hp. discriminate.
  - rewrite decide_True by (by left). rewrite length_cons, IH. lia.
  - rewrite decide_True by (by right). rewrite length_cons, IH. lia.
  - rewrite decide_False by (by intros [?|?]). rewrite IH. lia.
Qed.

Lemma avgMs_spec (ss : list Stage) : avgMs ss = avgDurationMs ss.
Proof.
  unfold avgMs, avgDurationMs, completedStages, mean, sumOf.
  rewrite sum_done, doneDurations_length, countStatus_done. unfold doneCount.
  destruct (Nat.leb_spec 2 (length (filter isDone ss))) as [Hge|Hlt].
  - by rewrite decide_True.
  - by rewrite decide_False by lia.
Qed.

Lemma estimate_unfold (ss : list Stage) :
  estimatedRemainingMs ss =
    if Js.gt (avgDurationMs ss) (Js.ofZ 0) && (0 <? runningOrPending ss)%nat
    then Js.Math_round
           (Js.mul (avgDurationMs ss) (Js.ofNat (runningOrPending ss)))
    else Js.ofZ 0.
Proof.
  unfold estimatedRemainingMs. by rewrite avgMs_spec, pendingCount_spec.
Qed.

Lemma round_zero_product (x y : Q) :
  (x * y == 0)%Q -> Js.Math_round (Js.mul (Js.Fin x) (Js.Fin y)) = Js.ofZ 0.
Proof.
  intros H. unfold Js.mul, Js.rnd. rewrite (rndQ_zero _ H). reflexivity.
Qed.

(** With whole, non-negative millisecond durations whose sum times the
    count stays below [2^50], the rounded product is a nearest integer
    to the exact mean times the count: rounding to doubles can only
    decide a tie the other way. *)
Lemma mean_times_count_nearest (zs : list Z) (m : nat) :
  Forall (fun z => 0 <= z) zs ->
  (2 <= length zs)%nat -> Z.of_nat (length zs) < 2 ^ 32 ->
  (0 < m)%nat -> 0 < sumZ zs -> sumZ zs * Z.of_nat m < 2 ^ 50 ->
  Js.gt (mean (inject_Z <$> zs)) (Js.ofZ 0) = true /\
  exists e : Z,
    Js.Math_round (Js.mul (mean (inject_Z <$> zs)) (Js.ofNat m)) = Js.ofZ e /\
    Z.abs (2 * (e * Z.of_nat (length zs)) - 2 * (sumZ zs * Z.of_nat m))
      <= Z.of_nat (length zs).
Proof.
  intros Hnn Hlen2 Hlen Hm HS Hprod.
  assert (Hsum : sumOf (inject_Z <$> zs) = Js.ofZ (sumZ zs)).
  { unfold sumOf. rewrite (sumOf_safe zs 0); [done | lia | done | nia]. }
  unfold mean. rewrite Hsum, length_fmap. unfold Js.ofNat.
  set (n := Z.of_nat (length zs)) in *. set (S := sumZ zs) in *.
  set (mz := Z.of_nat m) in *.
  assert (Hmz : 1 <= mz) by lia.
  rewrite div_ofZ by lia.
  (* the numbers as rationals *)
  assert (HSq : (1 <= inject_Z S)%Q).
  { change 1%Q with (inject_Z 1). rewrite <- Zle_Qle. lia. }
  assert (HN1 : (2 <= inject_Z n)%Q).
  { change 2%Q with (inject_Z 2). rewrite <- Zle_Qle. lia. }
  assert (HN2 : (inject_Z n <= 4294967296)%Q).
  { change 4294967296%Q with (inject_Z (2 ^ 32)). rewrite <- Zle_Qle. lia. }
  assert (HM : (1 <= inject_Z mz)%Q).
  { change 1%Q with (inject_Z 1). by rewrite <- Zle_Qle. }
  assert (HSM : (inject_Z (S * mz) < 1125899906842624)%Q).
  { change 1125899906842624%Q with (inject_Z (2 ^ 50)). by rewrite <- Zlt_Qlt. }
  set (Sq := inject_Z S) in *. set (N := inject_Z n) in *.
  set (M := inject_Z mz) in *.
  assert (HSMq : (inject_Z (S * mz) == Sq * M)%Q) by (by rewrite inject_Z_mult).
  set (q := (Sq / N)%Q).
  assert (HqN : (q * N == Sq)%Q) by (unfold q; field; lra).
  assert (Hq_lo : ((1 # 4294967296) <= q)%Q).
  { apply Qle_shift_div_l; lra. }
  set (V := (q * M)%Q).
  assert (HqV : (q <= V)%Q).
  { unfold V. rewrite <- (Qmult_1_r q) at 1. apply Qmult_le_l; lra. }
  assert (HVN : (V * N == inject_Z (S * mz))%Q).
  { rewrite HSMq, <- HqN. unfold V. ring. }
  assert (HVle : (V <= inject_Z (S * mz))%Q).
  { rewrite <- HVN. rewrite <- (Qmult_1_r V) at 1. apply Qmult_le_l; lra. }
  assert (Hnormal : (Js.pow2 (-1022) <= (1 # 8589934592))%Q).
  { change (1 # 8589934592)%Q with (Js.pow2 (-33)). apply pow2_le. lia. }
  (* the mean *)
  pose proof (rndQ_relative q ltac:(lra)) as [R1 R1'].
  set (r1 := Js.rndQ q) in *.
  rewrite rnd_small
    by (fold r1; change (inject_Z (2 ^ 53)) with 9007199254740992%Q; lra).
  split.
  { apply gt_Fin_0. fold r1. pose proof (Qred_correct r1). lra. }
  (* the product *)
  unfold Js.mul, Js.ofZ at 1. fold r1 M.
  set (y := (Qred r1 * M)%Q).
  assert (Hy : (y == r1 * M)%Q) by (unfold y; by rewrite (Qred_correct r1)).
  assert (Y1 : (V - V * (1 # 9007199254740992) <= y)%Q).
  { rewrite Hy.
    assert (Hd : (V - V * (1 # 9007199254740992)
                  == (q - q * (1 # 9007199254740992)) * M)%Q)
      by (unfold V; ring).
    rewrite Hd. apply Qmult_le_compat_r; lra. }
  assert (Y2 : (y <= V + V * (1 # 9007199254740992))%Q).
  { rewrite Hy.
    assert (Hd : (V + V * (1 # 9007199254740992)
                  == (q + q * (1 # 9007199254740992)) * M)%Q)
      by (unfold V; ring).
    rewrite Hd. apply Qmult_le_compat_r; lra. }
  pose proof (rndQ_relative y ltac:(lra)) as [R2 R2'].
  set (x := Js.rndQ y) in *.
  rewrite rnd_small
    by (fold x; change (inject_Z (2 ^ 53)) with 9007199254740992%Q; lra).
  fold x. unfold Js.Math_round.
  rewrite (roundHalfUp_comp _ _ (Qred_correct x)).
  eexists; split; [reflexivity|].
  pose proof (Qfloor_le (x + (1 # 2))) as F1.
  pose proof (Qlt_floor (x + (1 # 2))) as F2.
  fold (Js.roundHalfUp x) in F1, F2.
  set (e := Js.roundHalfUp x) in *.
  rewrite inject_Z_plus in F2. change (inject_Z 1) with 1%Q in F2.
  (* scaled by the number of samples *)
  assert (HeN : (inject_Z e * N == inject_Z (e * n))%Q)
    by (unfold N; by rewrite inject_Z_mult).
  assert (A : ((inject_Z e - (1 # 2)) * N
               <= (V + V * (1 # 3002399751580330)) * N)%Q).
  { apply Qmult_le_compat_r; lra. }
  assert (B : ((V - V * (1 # 3002399751580330)) * N
               <= (inject_Z e + (1 # 2)) * N)%Q).
  { apply Qmult_le_compat_r; lra. }
  assert (A' : (inject_Z (e * n) - (1 # 2) * N
                <= inject_Z (S * mz)
                   + inject_Z (S * mz) * (1 # 3002399751580330))%Q).
  { rewrite <- HeN, <- HVN. lra. }
  assert (B' : (inject_Z (S * mz)
                - inject_Z (S * mz) * (1 # 3002399751580330)
                <= inject_Z (e * n) + (1 # 2) * N)%Q).
  { rewrite <- HeN, <- HVN. lra. }
  assert (H0 : (0 <= inject_Z (S * mz))%Q) by (apply inject_Z_nonneg; nia).
  assert (Hup : 2 * (e * n) - 2 * (S * mz) - n < 1).
  { rewrite Zlt_Qlt. unfold Z.sub.
    rewrite !inject_Z_plus, !inject_Z_opp, !(inject_Z_mult 2).
    fold N. change (inject_Z 2) with 2%Q. change (inject_Z 1) with 1%Q. lra. }
  assert (Hdn : 2 * (S * mz) - 2 * (e * n) - n < 1).
  { rewrite Zlt_Qlt. unfold Z.sub.
    rewrite !inject_Z_plus, !inject_Z_opp, !(inject_Z_mult 2).
    fold N. change (inject_Z 2) with 2%Q. change (inject_Z 1) with 1%Q. lra. }
  lia.
Qed.

(** C5. The estimate is [round(avgDurationMs * pendingCount)], evaluated
    as JavaScript does, when the mean is positive and a stage is running
    or pending, and 0 otherwise, which is that same rounded product
    whenever the mean is finite and not negative. Here the mean is
    that of the durations of the stages whose status is done, taken once
    two are done and 0 before, and the count is that of the stages whose
    status is running or pending. The full rendering shows the estimate
    exactly when it is positive and the run has neither a summary nor an
    error, so only with a positive mean and a stage left; with fewer than
    two done stages nothing is shown. When the done durations are whole,
    non-negative milliseconds (their sum times the count below [2^50],
    fewer than [2^32] of them), the estimate is a nearest integer to the
    exact mean times the count. *)
Theorem estimatedRemainingMs_spec props st :
  let ss := stages st in
  let avg := avgDurationMs ss in
  let pending := runningOrPending ss in
  let product := Js.Math_round (Js.mul avg (Js.ofNat pending)) in
  (Js.gt avg (Js.ofZ 0) = true -> (0 < pending)%nat ->
     estimatedRemainingMs ss = product) /\
  (~ (Js.gt avg (Js.ofZ 0) = true /\ (0 < pending)%nat) ->
     estimatedRemainingMs ss = Js.ofZ 0) /\
  (forall a : Q, avg = Js.Fin a -> (0 <= a)%Q ->
     estimatedRemainingMs ss = product) /\
  (forall v : Js.num,
     shownEstimate props st = Some v <->
       compact props = false /\ summary st = None /\
       Js.truthyOpt (error (state st)) = false /\
       Js.gt avg (Js.ofZ 0) = true /\ (0 < pending)%nat /\
       v = product /\ Js.gt v (Js.ofZ 0) = true) /\
  ((countStatus "done" ss < 2)%nat ->
     avg = Js.ofZ 0 /\ estimatedRemainingMs ss = Js.ofZ 0 /\
     shownEstimate props st = None) /\
  (forall zs : list Z,
     doneDurations ss = inject_Z <$> zs ->
     Forall (fun z => 0 <= z) zs ->
     (2 <= length zs)%nat -> Z.of_nat (length zs) < 2 ^ 32 ->
     (0 < pending)%nat ->
     0 < sumZ zs -> sumZ zs * Z.of_nat pending < 2 ^ 50 ->
     exists e : Z,
       estimatedRemainingMs ss = Js.ofZ e /\
       Z.abs (2 * (e * Z.of_nat (length zs))
              - 2 * (sumZ zs * Z.of_nat pending))
         <= Z.of_nat (length zs)).
Proof.
  cbv zeta. pose proof (estimate_unfold (stages st)) as He.
  set (avg := avgDurationMs (stages st)) in *.
  set (pending := runningOrPending (stages st)) in *.
  split; [|split; [|split; [|split; [|split]]]].
  - intros Ha Hp. rewrite He, Ha.
    by destruct (Nat.ltb_spec 0 pending); [|lia].
  - intros Hn. rewrite He.
    destruct (Js.gt avg (Js.ofZ 0)) eqn:Ha; [|done].
    destruct (Nat.ltb_spec 0 pending); [|done].
    exfalso. by apply Hn.
  - intros a Hfin Hnn. rewrite He, Hfin.
    destruct (Js.gt (Js.Fin a) (Js.ofZ 0)) eqn:Ha.
    + destruct (Nat.ltb_spec 0 pending) as [Hp|Hp]; [done|].
      assert (pending = 0%nat) as -> by lia.
      symmetry. apply round_zero_product. cbn. ring.
    + assert (Hz : (a == 0)%Q).
      { apply Qle_antisym; [|done]. apply Qnot_lt_le. intros Hlt.
        apply gt_Fin_0 in Hlt. congruence. }
      symmetry. apply round_zero_product. rewrite Hz. ring.
  - intros v. unfold shownEstimate. destruct (compact props).
    { split; [discriminate | by intros (Hcompact & _)]. }
    destruct (summary st) as [sm|] eqn:Hsum.
    { rewrite bool_decide_true by done. rewrite andb_false_r. simpl.
      split; [discriminate | by intros (_ & Hnone & _)]. }
    rewrite bool_decide_false by (by intros [? ?]).
    destruct (Js.truthyOpt (error (state st))).
    { rewrite andb_false_r.
      split; [discriminate | by intros (_ & _ & Herr & _)]. }
    rewrite !andb_true_r, He.
    destruct (Js.gt avg (Js.ofZ 0)) eqn:Ha; cbn [andb].
    + destruct (Nat.ltb_spec 0 pending) as [Hp|Hp].
      * destruct (Js.gt (Js.Math_round (Js.mul avg (Js.ofNat pending)))
                    (Js.ofZ 0)) eqn:Hg.
        -- split; [by intros [= <-] | by intros (_ & _ & _ & _ & _ & -> & _)].
        -- split; [discriminate|].
           intros (_ & _ & _ & _ & _ & -> & Hv). congruence.
      * change (Js.gt (Js.ofZ 0) (Js.ofZ 0)) with false.
        split; [discriminate | intros (_ & _ & _ & _ & Hp' & _); lia].
    + change (Js.gt (Js.ofZ 0) (Js.ofZ 0)) with false.
      split; [discriminate | by intros (_ & _ & _ & Ha' & _)].
  - intros Hfew.
    assert (Hz : avg = Js.ofZ 0).
    { unfold avg, avgDurationMs. by rewrite decide_False by lia. }
    assert (He0 : estimatedRemainingMs (stages st) = Js.ofZ 0).
    { rewrite He, Hz. reflexivity. }
    split; [done|]. split; [done|].
    unfold shownEstimate. rewrite He0. by destruct (compact props).
  - intros zs Hzs Hnn Hlen2 Hlen Hp HS Hprod.
    assert (Havg : avg = mean (inject_Z <$> zs)).
    { unfold avg, avgDurationMs.
      rewrite <- doneDurations_length, Hzs, length_fmap.
      by rewrite decide_True. }
    destruct (mean_times_count_nearest zs pending Hnn Hlen2 Hlen Hp HS Hprod)
      as (Hgt & e & Hround & Hnear).
    exists e. split; [|done].
    rewrite He, Havg, Hgt.
    by destruct (Nat.ltb_spec 0 pending); [|lia].
Qed.

End estimate.

(** ** Pausing *)

Section pause.
Import AnalysisProgress ProgressSpec.

Lemma tickerRunning_clearTimer st : tickerRunning (clearTimer st) = false.
Proof.
  unfold tickerRunning, clearTimer. destruct (timerRef st) as [id|] eqn:Hid.
  - simpl. apply bool_decide_false.
    rewrite list_elem_of_filter. by intros [Hne _].
  - by rewrite Hid.
Qed.

Lemma tickerRunning_callOnPaused props st :
  tickerRunning (callOnPaused props st) = tickerRunning st.
Proof. unfold callOnPaused. by destruct (onPaused props). Qed.

Lemma pausedCalls_clearTimer st : pausedCalls (clearTimer st) = pausedCalls st.
Proof. unfold pausedCalls, clearTimer. by destruct (timerRef st). Qed.

Lemma pausedCalls_callOnPaused props st :
  pausedCalls (callOnPaused props st) =
    (pausedCalls st + if onPaused props then 1 else 0)%nat.
Proof.
  unfold pausedCalls, callOnPaused. destruct (onPaused props); simpl; [|lia].
  rewrite list.filter_app, length_app. done.
Qed.

(** Either pause path: the ticker stops and the callback runs. *)
Lemma pause_path props st :
  let st' := callOnPaused props (clearTimer st) in
  tickerRunning st' = false /\
  pausedCalls st' = (pausedCalls st + if onPaused props then 1 else 0)%nat.
Proof.
  simpl. split.
  - by rewrite tickerRunning_callOnPaused, tickerRunning_clearTimer.
  - by rewrite pausedCalls_callOnPaused, pausedCalls_clearTimer.
Qed.

(** C1, as amended. The accepted pause request and the stream's pause
    notification are handled alike and independently: each stops the
    ticker and invokes the pause callback when one was supplied. When
    both arrive, in either order, the callback has been invoked twice,
    once per path, and the ticker is stopped. *)
Theorem pause_paths_both_fire props st (d : AnalysisEventData) :
  let viaRequest := handlePause_settle props (Resolved true) st in
  let viaStream := onUpdate props EvPaused d st in
  let both := onUpdate props EvPaused d viaRequest in
  let both' := handlePause_settle props (Resolved true) viaStream in
  viaRequest = viaStream /\
  both = both' /\
  tickerRunning viaRequest = false /\
  tickerRunning both = false /\
  pausedCalls viaRequest =
    (pausedCalls st + if onPaused props then 1 else 0)%nat /\
  pausedCalls both =
    (pausedCalls st + if onPaused props then 2 else 0)%nat.
Proof.
  simpl.
  destruct (pause_path props st) as [Ht1 Hc1].
  destruct (pause_path props (callOnPaused props (clearTimer st))) as [Ht2 Hc2].
  repeat split; try done.
  rewrite Hc2, Hc1. destruct (onPaused props); lia.
Qed.

(** C1, the claim as stated fails: the request is accepted, then the
    stream delivers its pause notification, and the callback has been
    invoked twice; likewise in the other order. *)
Lemma pause_callback_fires_twice :
  let st := run Examples.props0 Examples.pausedTwice Examples.mounted in
  let st' := run Examples.props0 Examples.pausedTwice' Examples.mounted in
  calls st = [CbPaused; CbPaused] /\
  calls st' = [CbPaused; CbPaused] /\
  pausedCalls st = 2%nat /\
  pausedCalls st <> 1%nat /\
  tickerRunning st = false.
Proof. simpl. repeat split; try reflexivity. vm_compute. discriminate. Qed.

(** C10. A pause response whose [success] is false clears the pausing
    flag, leaves the ticker as it was and invokes no callback, exactly
    as a request that threw does; the next click issues a request again. *)
Theorem pause_declined_recovers props st :
  let st' := handlePause_settle props (Resolved false) st in
  st' = handlePause_settle props Threw st /\
  isPausing st' = false /\
  tickerRunning st' = tickerRunning st /\
  timerRef st' = timerRef st /\
  liveTimers st' = liveTimers st /\
  calls st' = calls st /\
  pauseRequests (handlePause_request st') = S (pauseRequests st) /\
  isPausing (handlePause_request st') = true.
Proof. simpl. repeat split. Qed.

End pause.

(** ** The chat transcript *)

Section chat.
Import UseChat ChatSpec.

Lemma store_in_range (i : nat) (v : Entry) (l : list Entry) :
  (i < length l)%nat -> store i v l = <[i := v]> l.
Proof.
  intros Hi. unfold store.
  by destruct (Nat.ltb_spec i (length l)); [|lia].
Qed.

Lemma placeholderLast_store (st : State) (m : ChatMessage) :
  placeholderLast st -> 0 <= assistantIdxRef st ->
  placeholderLast
    (setMessages (store (Z.to_nat (assistantIdxRef st)) (Turn m)) st).
Proof.
  intros [Hidx Hall] Hge. unfold placeholderLast; simpl.
  rewrite store_in_range by lia. rewrite length_insert. split; [done|].
  apply Forall_insert; done.
Qed.

Lemma placeholderLast_withStatus (st : State) (s : string) :
  placeholderLast st -> 0 <= assistantIdxRef st ->
  placeholderLast
    (setMessages
       (fun prev =>
          store (Z.to_nat (assistantIdxRef st))
            (withStatus s (prev !! Z.to_nat (assistantIdxRef st))) prev) st).
Proof.
  intros [Hidx Hall] Hge. unfold placeholderLast; simpl.
  rewrite store_in_range by lia. rewrite length_insert. split; [done|].
  apply Forall_insert; [done|].
  destruct (messages st !! Z.to_nat (assistantIdxRef st)) as [e|] eqn:He.
  - rewrite Forall_lookup in Hall. specialize (Hall _ _ He).
    by destruct e.
  - apply lookup_ge_None in He. lia.
Qed.

Lemma placeholderLast_step (st : State) (a : Action) :
  placeholderLast st -> placeholderLast (step st a).
Proof.
  intros Hinv. destruct a as [c|e d|r|err|]; simpl.
  - unfold sendMessage, sendMessageOf. destruct (isStreaming st); [done|].
    destruct Hinv as [Hidx Hall]. unfold placeholderLast; simpl. split; [done|].
    apply Forall_app. split; [done|]. repeat constructor.
  - unfold onUpdate. destruct (Z.ltb_spec (assistantIdxRef st) 0) as [Hlt|Hge]; [done|].
    assert (Hfirst : placeholderLast
      match e, data_status d with
      | EvThinking, Some s =>
          if Js.truthy s then
            setMessages (fun prev =>
              store (Z.to_nat (assistantIdxRef st))
                (withStatus s (prev !! Z.to_nat (assistantIdxRef st))) prev) st
          else st
      | _, _ => st
      end).
    { destruct e, (data_status d) as [s|]; try done.
      destruct (Js.truthy s); [|done]. by apply placeholderLast_withStatus. }
    destruct e; try done.
    destruct (data_status d) as [s|], (data_message d) as [m|]; try done;
      destruct (Js.truthy m); try done;
      by apply placeholderLast_withStatus.
  - unfold onComplete. simpl.
    destruct (Z.ltb_spec (assistantIdxRef st) 0) as [Hlt|Hge]; [done|].
    pose proof (placeholderLast_store (streamEnded st)
      {| role := Assistant; content := res_message r;
         citations := Some (res_citations r);
         confidence := Some (res_confidence r);
         status := None; isError := None |} Hinv Hge) as H'.
    by destruct (Js.truthy (res_conversation_id r)).
  - unfold onError. simpl.
    destruct (Z.ltb_spec (assistantIdxRef st) 0) as [Hlt|Hge]; [done|].
    by apply (placeholderLast_store (streamEnded st)).
  - done.
Qed.

(** In every reachable state the tracked index is the last index of the
    transcript and the transcript holds turns only: no store is out of
    range, no hole is ever read. *)
Lemma assistantIdx_last (acts : list Action) :
  placeholderLast (run acts initial).
Proof.
  induction acts as [|a acts IH] using rev_ind.
  - split; [done | constructor].
  - unfold run. rewrite fold_left_app. simpl. by apply placeholderLast_step.
Qed.

End chat.

Section chat_claims.
Import UseChat ChatSpec.

(** A callback made by a render that saw the stream active does
    nothing. *)
Lemma sendMessageOf_seen_streaming (st : State) (c : string) :
  sendMessageOf true c st = st.
Proof. reflexivity. Qed.

(** Two calls with a render in between: the first appends the user turn
    and the placeholder and starts a stream, the second is made through
    the callback of the render that saw the stream and changes
    nothing. *)
Lemma sendMessage_twice (st : State) (c1 c2 : string) :
  isStreaming st = false ->
  sendMessage c2 (sendMessage c1 st) = sendMessage c1 st /\
  length (messages (sendMessage c2 (sendMessage c1 st)))
    = (length (messages st) + 2)%nat /\
  length (started (sendMessage c2 (sendMessage c1 st)))
    = S (length (started st)).
Proof.
  intros Hs. unfold sendMessage, sendMessageOf. rewrite Hs. simpl.
  rewrite !length_app. simpl. repeat split; lia.
Qed.

(** C4, where the code misses the claim. Two calls [a] then [b] made
    through the one callback of a render that saw no stream: the first
    call leaves a stream active, yet the second passes the guard, which
    reads the flag its closure captured. It appends two further turns,
    sets the session idle, starts a second stream and moves the tracked
    index to the second placeholder; the conversation id is kept. *)
Theorem sendMessage_stale_guard (st : State) (a b : string) :
  let st1 := sendMessageOf false a st in
  let st2 := sendMessageOf false b st1 in
  isStreaming st1 = true /\
  st2 <> st1 /\
  messages st2
    = messages st ++ [Turn (userTurn a); Turn placeholder;
                      Turn (userTurn b); Turn placeholder] /\
  length (messages st2) = (length (messages st1) + 2)%nat /\
  started st2
    = started st ++ [ {| in_message := a;
                         in_conversation_id := conversationId st |};
                      {| in_message := b;
                         in_conversation_id := conversationId st |} ] /\
  assistantIdxRef st2 = assistantIdxRef st1 + 2 /\
  conversationId st2 = conversationId st.
Proof.
  cbv zeta. unfold sendMessageOf. simpl.
  rewrite <- !app_assoc. simpl. rewrite !length_app. simpl.
  repeat split; try lia.
  intros H. apply (f_equal (fun s => length (messages s))) in H.
  simpl in H. rewrite !length_app in H. simpl in H. lia.
Qed.

(** The same on the fresh session: four turns and two streams where the
    claim has two turns and one stream. *)
Example sendMessage_double_send :
  let st2 := sendMessageOf false "b" (sendMessageOf false "a" initial) in
  length (messages st2) = 4%nat /\
  started st2 = [ {| in_message := "a"; in_conversation_id := None |};
                  {| in_message := "b"; in_conversation_id := None |} ] /\
  assistantIdxRef st2 = 3.
Proof. cbv zeta. repeat split; reflexivity. Qed.

(** C7. An error during a chat turn rewrites the in-flight placeholder,
    the last entry of the transcript, into the assistant turn
    ["Error: " ++ message] flagged as an error and without status; the
    transcript keeps its length, every other entry, the user turn of the
    failed attempt among them, and the conversation id are unchanged. *)
Theorem onError_keeps_transcript (acts : list Action) (error : string) :
  let st := run acts initial in
  let st' := step st (Error error) in
  0 <= assistantIdxRef st ->
  exists i : nat,
    Z.of_nat i = assistantIdxRef st /\
    S i = length (messages st) /\
    messages st' !! i =
      Some (Turn {| role := Assistant; content := "Error: " ++ error;
                    citations := None; confidence := None;
                    status := None; isError := Some true |}) /\
    length (messages st') = length (messages st) /\
    (forall j : nat, j <> i -> messages st' !! j = messages st !! j) /\
    conversationId st' = conversationId st.
Proof.
  simpl. intros Hge.
  destruct (assistantIdx_last acts) as [Hidx Hall].
  set (st := run acts initial) in *.
  exists (Z.to_nat (assistantIdxRef st)).
  unfold onError. simpl.
  destruct (Z.ltb_spec (assistantIdxRef st) 0) as [Hlt|_]; [lia|]. simpl.
  rewrite store_in_range by lia.
  repeat split.
  - lia.
  - lia.
  - apply list_lookup_insert_eq. lia.
  - apply length_insert.
  - intros j Hj. by apply list_lookup_insert_ne.
Qed.

Lemma onError_keeps_transcript_witness :
  let st := run [Send "What does main do?"] initial in
  let st' := step st (Error "boom") in
  0 <= assistantIdxRef st /\
  exists i : nat,
    Z.of_nat i = assistantIdxRef st /\
    S i = length (messages st) /\
    messages st' !! i =
      Some (Turn {| role := Assistant; content := "Error: boom";
                    citations := None; confidence := None;
                    status := None; isError := Some true |}) /\
    length (messages st') = length (messages st) /\
    (forall j : nat, j <> i -> messages st' !! j = messages st !! j) /\
    conversationId st' = conversationId st.
Proof.
  split; [vm_compute; discriminate|].
  apply (onError_keeps_transcript [Send "What does main do?"] "boom").
  vm_compute; discriminate.
Defined.

(** C8. Before any placeholder exists, when the tracked index is
    negative, the update, completion and error handlers return the state
    they were given: transcript and conversation id are untouched. *)
Theorem handlers_idle_before_first_send (st : State)
    (event : ChatEventType) (data : ChatEventData)
    (result : ChatResult) (error : string) :
  assistantIdxRef st < 0 ->
  onUpdate event data st = st /\
  onComplete result st = st /\
  onError error st = st /\
  messages (onUpdate event data st) = messages st /\
  messages (onComplete result st) = messages st /\
  messages (onError error st) = messages st /\
  conversationId (onUpdate event data st) = conversationId st /\
  conversationId (onComplete result st) = conversationId st /\
  conversationId (onError error st) = conversationId st.
Proof.
  intros Hneg. unfold onUpdate, onComplete, onError.
  destruct (Z.ltb_spec (assistantIdxRef st) 0) as [_|Hge]; [|lia].
  repeat split.
Qed.

Lemma handlers_idle_before_first_send_witness :
  assistantIdxRef initial < 0 /\
  onUpdate EvThinking
    {| data_status := Some "Searching"; data_tool := None;
       data_message := None; data_citations := None;
       data_confidence := None; data_tools_used := None;
       data_conversation_id := None; data_model := None;
       data_error := None; data_request_id := None |} initial = initial /\
  onError "boom" initial = initial.
Proof.
  split; [reflexivity|].
  pose proof (handlers_idle_before_first_send initial EvThinking
    {| data_status := Some "Searching"; data_tool := None;
       data_message := None; data_citations := None;
       data_confidence := None; data_tools_used := None;
       data_conversation_id := None; data_model := None;
       data_error := None; data_request_id := None |}
    {| res_message := "done"; res_citations := []; res_confidence := None;
       res_tools_used := []; res_conversation_id := "c1" |}
    "boom" eq_refl) as (Hu & _ & He & _).
  split; [exact Hu | exact He].
Defined.

End chat_claims.

(** ** Worked runs *)

Section worked_runs.
Import AnalysisProgress ProgressSpec.

Lemma overallPercent_monotone_witness :
  let st := runUpdates Examples.props0 [Examples.stageEv "A" "running" 0]
              Examples.mounted in
  let d := Examples.stageData "A" "done" 1500 in
  progress st = None /\
  snapshotOf d = None /\
  report (EvStage, d) = Some (stageOf "A" d) /\
  (overallPercent st <= overallPercent (onUpdate Examples.props0 EvStage d st))%Q.
Proof.
  simpl. split; [reflexivity|]. split; [reflexivity|]. split; [reflexivity|].
  apply (overallPercent_monotone Examples.props0 _ EvStage
           (Examples.stageData "A" "done" 1500)
           (stageOf "A" (Examples.stageData "A" "done" 1500))).
  - reflexivity.
  - reflexivity.
  - reflexivity.
  - intros (old & _ & _ & _ & Hnot). apply Hnot. reflexivity.
  - intros _. left. reflexivity.
Defined.

Lemma stage_order_first_appearance_witness :
  let evs := [Examples.stageEv "A" "running" 0;
              Examples.stageEv "B" "running" 0] in
  let ev := Examples.stageEv "A" "done" 1500 in
  let s := stageOf "A" ev.2 in
  let st0 := setStarted true (initial 1000) in
  report ev = Some s /\
  stage_name <$>
    stages (runUpdates Examples.props0 (evs ++ [ev]) (startAnalysis 1000 st0))
  = firstReported ["A"; "B"; "A"].
Proof.
  simpl. split; [reflexivity|].
  apply (stage_order_first_appearance Examples.props0 1000
           (setStarted true (initial 1000))
           [Examples.stageEv "A" "running" 0; Examples.stageEv "B" "running" 0]
           (Examples.stageEv "A" "done" 1500)
           (stageOf "A" (Examples.stageData "A" "done" 1500)) eq_refl).
Defined.

(** Stage A runs and completes in 1500 ms, stage B starts: two stages,
    one done sample only, so no estimate; the percentage is 50. *)
Example scenario_one_done_sample :
  let st := runUpdates Examples.props0
              [Examples.stageEv "A" "running" 0;
               Examples.stageEv "A" "done" 1500;
               Examples.stageEv "B" "running" 0] Examples.mounted in
  (stage_name <$> stages st) = ["A"; "B"] /\
  (stage_status <$> stages st) = ["done"; "running"] /\
  estimatedRemainingMs (stages st) = Js.ofZ 0 /\
  shownEstimate Examples.props0 st = None /\
  overallPercent st = 50%Q.
Proof. cbv zeta. repeat split; vm_compute; reflexivity. Qed.

(** Two done samples of 1000 ms and 2000 ms and two stages to go: the
    estimate is [round (1500 * 2)]. *)
Example scenario_two_done_samples :
  let st := runUpdates Examples.props0
              [Examples.stageEv "A" "done" 1000;
               Examples.stageEv "B" "done" 2000;
               Examples.stageEv "C" "running" 0;
               Examples.stageEv "D" "pending" 0] Examples.mounted in
  estimatedRemainingMs (stages st) = Js.ofZ 3000 /\
  shownEstimate Examples.props0 st = Some (Js.ofZ 3000) /\
  overallPercent st = 50%Q.
Proof. cbv zeta. repeat split; vm_compute; reflexivity. Qed.

(** Rounding to doubles shows. With 23 of 40 stages done the quotient
    0.575 is not a double, the product with 100 falls just below 57.5,
    and the percentage is 57. *)
Example scenario_23_of_40_done :
  let st := runUpdates Examples.props0
              (Examples.stageEvs 0 23 "done" 100
               ++ Examples.stageEvs 23 17 "running" 0) Examples.mounted in
  length (stages st) = 40%nat /\
  countStatus "done" (stages st) = 23%nat /\
  overallPercent st = 57%Q /\
  Js.roundHalfUp (100 * 23 / 40) = 58.
Proof. cbv zeta. repeat split; vm_compute; reflexivity. Qed.

(** Done durations of 44, 1, 1, 1, 1 and 1 ms with 15 stages running:
    the mean 49/6 is not a double and 15 times its double falls just
    below 122.5, so the estimate is 122. *)
Example scenario_estimate_rounds_down :
  let st := runUpdates Examples.props0
              (Examples.stageEv "A" "done" 44
               :: Examples.stageEvs 1 5 "done" 1
               ++ Examples.stageEvs 6 15 "running" 0) Examples.mounted in
  doneDurations (stages st) = inject_Z <$> [44; 1; 1; 1; 1; 1] /\
  runningOrPending (stages st) = 15%nat /\
  estimatedRemainingMs (stages st) = Js.ofZ 122 /\
  shownEstimate Examples.props0 st = Some (Js.ofZ 122) /\
  Js.roundHalfUp (49 / 6 * 15) = 123.
Proof. cbv zeta. repeat split; vm_compute; reflexivity. Qed.

(** The pause request is declined: the control is enabled again, the
    ticker still runs and no callback was invoked. *)
Example scenario_pause_declined :
  let st := run Examples.props0
              [Update EvStage (Examples.stageData "A" "running" 0);
               PauseClick;
               PauseSettle (Resolved false)] Examples.mounted in
  isPausing st = false /\
  tickerRunning st = true /\
  calls st = [] /\
  pauseRequests st = 1%nat.
Proof. simpl. repeat split; reflexivity. Qed.

End worked_runs.


(** ** Durations on screen *)

Section durations.
Import AnalysisProgress.

Lemma formatDuration_unfold (showNumber : Js.num -> string) (r : Z) :
  0 <= r < 2 ^ 53 ->
  formatDuration showNumber (Js.ofZ r) =
    if r <? 1000 then (showNumber (Js.ofZ r) ++ "ms")%string
    else if r / 1000 <? 60
      then (showNumber (Js.ofZ (r / 1000)) ++ "s")%string
      else (showNumber (Js.ofZ (r / 1000 / 60)) ++ "m "
            ++ showNumber (Js.ofZ (Z.rem (r / 1000) 60)) ++ "s")%string.
Proof.
  intros Hr. unfold formatDuration.
  assert (Hround : Js.Math_round (Js.ofZ r) = Js.ofZ r).
  { unfold Js.Math_round, Js.ofZ. by rewrite roundHalfUp_Z. }
  rewrite Hround, lt_ofZ.
  destruct (r <? 1000); [done|].
  rewrite Math_floor_div by lia. rewrite lt_ofZ.
  destruct (r / 1000 <? 60); [done|].
  assert (0 <= r / 1000 < 2 ^ 53).
  { split; [apply Z.div_pos; lia|].
    apply Z.div_lt_upper_bound; lia. }
  rewrite Math_floor_div by lia. by rewrite rem_ofZ.
Qed.

(** X1. Whatever way numbers are printed, a duration whose rounded
    number of milliseconds is below [2^53] is shown in one of three
    forms: below one second (negative values too) the milliseconds
    themselves; below one minute the whole seconds; from one minute on
    minutes and seconds, the seconds always below 60 and nothing but the
    fraction of a second dropped. *)
Theorem formatDuration_forms (showNumber : Js.num -> string) (ms : Q)
    (Hsafe : Js.roundHalfUp ms < 2 ^ 53) :
  (Js.roundHalfUp ms < 1000 /\
   formatDuration showNumber (Js.Fin ms)
     = (showNumber (Js.ofZ (Js.roundHalfUp ms)) ++ "ms")%string)
  \/
  (exists s : Z,
     1 <= s < 60 /\
     1000 * s <= Js.roundHalfUp ms < 1000 * (s + 1) /\
     formatDuration showNumber (Js.Fin ms)
       = (showNumber (Js.ofZ s) ++ "s")%string)
  \/
  (exists m r : Z,
     1 <= m /\ 0 <= r < 60 /\
     1000 * (60 * m + r) <= Js.roundHalfUp ms < 1000 * (60 * m + r + 1) /\
     formatDuration showNumber (Js.Fin ms)
       = (showNumber (Js.ofZ m) ++ "m "
          ++ showNumber (Js.ofZ r) ++ "s")%string).
Proof.
  set (rounded := Js.roundHalfUp ms) in *.
  assert (Hfirst : formatDuration showNumber (Js.Fin ms)
                   = formatDuration showNumber (Js.ofZ rounded)).
  { unfold formatDuration.
    assert (Hround : Js.Math_round (Js.Fin ms)
                     = Js.Math_round (Js.ofZ rounded)).
    { unfold Js.Math_round, Js.ofZ. by rewrite roundHalfUp_Z. }
    by rewrite Hround. }
  destruct (Z.ltb_spec rounded 1000) as [Hlt|Hge].
  { left. split; [done|]. unfold formatDuration.
    change (Js.Math_round (Js.Fin ms)) with (Js.ofZ rounded).
    rewrite lt_ofZ. by destruct (Z.ltb_spec rounded 1000); [|lia]. }
  right. rewrite Hfirst, formatDuration_unfold by lia.
  destruct (Z.ltb_spec rounded 1000) as [|_]; [lia|].
  pose proof (Z.div_mod rounded 1000 ltac:(lia)) as Hdm.
  pose proof (Z.mod_pos_bound rounded 1000 ltac:(lia)) as Hmb.
  set (secs := rounded / 1000) in *.
  assert (Hsecs : 1 <= secs) by lia.
  destruct (Z.ltb_spec secs 60) as [Hs|Hs].
  - left. exists secs. repeat split; try lia.
  - right. exists (secs / 60), (Z.rem secs 60).
    rewrite Z.rem_mod_nonneg by lia.
    pose proof (Z.div_mod secs 60 ltac:(lia)) as Hdm'.
    pose proof (Z.mod_pos_bound secs 60 ltac:(lia)) as Hmb'.
    repeat split; try lia.
Qed.

End durations.

(** ** The stage shown in the compact rendering *)

Section current_stage.
Import AnalysisProgress.

Lemma findLast_snoc {A : Type} (p : A -> bool) (l : list A) (x : A) :
  Js.findLast p (l ++ [x]) = if p x then Some x else Js.findLast p l.
Proof.
  unfold Js.findLast. rewrite reverse_snoc, filter_cons.
  destruct (p x) eqn:Hp.
  - by rewrite decide_True.
  - by rewrite decide_False by congruence.
Qed.

Lemma findLast_None {A : Type} (p : A -> bool) (l : list A) :
  Js.findLast p l = None <-> Forall (fun x => p x = false) l.
Proof.
  induction l as [|x l IH] using rev_ind.
  - split; [constructor | done].
  - rewrite findLast_snoc, Forall_app, Forall_singleton.
    destruct (p x); [|tauto].
    split; [discriminate | intros [_ ?]; discriminate].
Qed.

Lemma findLast_Some {A : Type} (p : A -> bool) (l : list A) (s : A) :
  Js.findLast p l = Some s <->
  exists l1 l2, l = l1 ++ s :: l2 /\ p s = true
                /\ Forall (fun x => p x = false) l2.
Proof.
  induction l as [|x l IH] using rev_ind.
  - split; [discriminate|].
    intros (l1 & l2 & Hl & _). by destruct l1.
  - rewrite findLast_snoc. destruct (p x) eqn:Hp.
    + split.
      * intros [= <-]. exists l, []. repeat split; [done | constructor].
      * intros (l1 & l2 & Hl & Hs & Hall).
        destruct l2 as [|y l2 _] using rev_ind.
        { apply app_inj_tail in Hl as [_ ->]. done. }
        rewrite app_comm_cons, app_assoc in Hl.
        apply app_inj_tail in Hl as [_ ->].
        rewrite Forall_app, Forall_singleton in Hall.
        destruct Hall as [_ Hy]. congruence.
    + rewrite IH. split.
      * intros (l1 & l2 & -> & Hs & Hall).
        exists l1, (l2 ++ [x]). rewrite <- app_assoc. repeat split; [done|].
        apply Forall_app. split; [done | by apply Forall_singleton].
      * intros (l1 & l2 & Hl & Hs & Hall).
        destruct l2 as [|y l2 _] using rev_ind.
        { apply app_inj_tail in Hl as [_ ->]. congruence. }
        rewrite app_comm_cons, app_assoc in Hl.
        apply app_inj_tail in Hl as [-> ->].
        rewrite Forall_app in Hall. destruct Hall as [Hall _].
        exists l1, l2. done.
Qed.

(** X2. The compact rendering names the last running stage, if any
    stage is running, and the last stage otherwise; it has nothing to
    name only while the stage list is empty. *)
Theorem currentStage_last_running (st : State) :
  (currentStage st = None <-> stages st = []) /\
  (forall s, currentStage st = Some s ->
     (stage_status s = "running" /\
      exists l1 l2, stages st = l1 ++ s :: l2 /\
                    Forall (fun x => stage_status x <> "running") l2)
     \/
     (Forall (fun x => stage_status x <> "running") (stages st) /\
      list.last (stages st) = Some s)).
Proof.
  unfold currentStage.
  destruct (Js.findLast _ (stages st)) as [s|] eqn:Hf.
  - apply findLast_Some in Hf as (l1 & l2 & Hl & Hs & Hall).
    split.
    + split; [discriminate|]. intros Hnil. rewrite Hnil in Hl. by destruct l1.
    + intros s' [= <-]. left. apply String.eqb_eq in Hs. split; [done|].
      exists l1, l2. split; [done|].
      eapply Forall_impl; [|exact Hall]. intros x Hx.
      by apply String.eqb_neq.
  - apply findLast_None in Hf. split.
    + destruct (stages st) as [|x l] using rev_ind; [done|].
      rewrite reverse_snoc. simpl. split; [discriminate|].
      intros Hnil. by destruct l.
    + intros s Hs. right. split.
      * eapply Forall_impl; [|exact Hf]. intros x Hx. by apply String.eqb_neq.
      * rewrite <- Hs. clear. destruct (stages st) as [|x l _] using rev_ind; [done|].
        by rewrite reverse_snoc, last_snoc.
Qed.

End current_stage.

(** ** The ticker over a run *)

Section ticker.
Import AnalysisProgress RunSpec.

Lemma timers_setStages f st :
  timerRef (setStages f st) = timerRef st /\
  liveTimers (setStages f st) = liveTimers st.
Proof. done. Qed.

Lemma timers_onUpdate_stage props e d st :
  e <> EvPaused ->
  timerRef (onUpdate props e d st) = timerRef st /\
  liveTimers (onUpdate props e d st) = liveTimers st.
Proof.
  intros He. unfold onUpdate.
  destruct e; try done;
    destruct (data_name d) as [n|]; try done;
    destruct (Js.truthy n); try done;
    destruct (snapshotOf d); done.
Qed.

Lemma timers_callOnPaused props st :
  timerRef (callOnPaused props st) = timerRef st /\
  liveTimers (callOnPaused props st) = liveTimers st.
Proof. unfold callOnPaused. by destruct (onPaused props). Qed.

(** One step of the ticker: a start sets it running, a terminal event
    stops it, anything else leaves it as it is. *)
Lemma tickerRunning_step props st a :
  tickerRunning (step props st a) =
    if isStart a then true
    else if stopsTicker a then false
    else tickerRunning st.
Proof.
  destruct a as [now|now|e d|r|msg| |o]; simpl.
  - unfold tickerRunning. simpl. apply bool_decide_true, list_elem_of_here.
  - done.
  - assert (He : e = EvPaused \/ e <> EvPaused)
      by (destruct e; (by left) || (by right)).
    destruct He as [->|He].
    + simpl. by rewrite tickerRunning_callOnPaused, tickerRunning_clearTimer.
    + destruct (timers_onUpdate_stage props e d st He) as [Hr Hl].
      unfold tickerRunning. rewrite Hr, Hl. by destruct e.
  - unfold onComplete, tickerRunning. simpl.
    fold (tickerRunning (clearTimer (setSummary (Some r)
            (setSSE (sseComplete (state st)) st)))).
    apply tickerRunning_clearTimer.
  - unfold onError, tickerRunning. simpl.
    fold (tickerRunning (clearTimer (setSSE (sseError msg (state st)) st))).
    apply tickerRunning_clearTimer.
  - unfold handlePause_request. by destruct (isPausing st).
  - destruct o as [[|]|]; simpl; try done.
    by rewrite tickerRunning_callOnPaused, tickerRunning_clearTimer.
Qed.

(** X3. Once a run is started its ticker keeps running through stage
    updates, ticks, pause clicks and declined or failed pause requests;
    a completion, an error, a pause notification or an accepted pause
    request stops it, and it then stays stopped until the next start. *)
Theorem ticker_runs_until_terminal props now st0 (acts rest : list Action)
    (a : Action) :
  Forall (fun x => isStart x = false /\ stopsTicker x = false) acts ->
  stopsTicker a = true ->
  Forall (fun x => isStart x = false) rest ->
  tickerRunning (run props acts (startAnalysis now st0)) = true /\
  tickerRunning (run props (acts ++ a :: rest) (startAnalysis now st0)) = false.
Proof.
  intros Hacts Ha Hrest.
  assert (Hrun : tickerRunning (run props acts (startAnalysis now st0)) = true).
  { induction acts as [|x acts IH] using rev_ind.
    - apply (tickerRunning_step props st0 (Start now)).
    - rewrite Forall_app, Forall_singleton in Hacts.
      destruct Hacts as [Hacts [Hx1 Hx2]].
      rewrite run_snoc, tickerRunning_step, Hx1, Hx2. by apply IH. }
  split; [done|].
  induction rest as [|y rest IH] using rev_ind.
  - assert (Hns : isStart a = false) by (by destruct a).
    by rewrite run_snoc, tickerRunning_step, Ha, Hns.
  - rewrite Forall_app, Forall_singleton in Hrest.
    destruct Hrest as [Hrest Hy].
    rewrite app_comm_cons, app_assoc, run_snoc, tickerRunning_step, Hy.
    destruct (stopsTicker y); [done|]. by apply IH.
Qed.

Lemma liveTimers_step props st a :
  isStart a = false ->
  (liveTimers st = [] \/ exists id, timerRef st = Some id /\ liveTimers st = [id]) ->
  timerRef (step props st a) = timerRef st /\
  (liveTimers (step props st a) = [] \/
   (stopsTicker a = false /\ liveTimers (step props st a) = liveTimers st)).
Proof.
  intros Hns Hone.
  assert (Hclr : forall st', timerRef st' = timerRef st ->
                   liveTimers st' = liveTimers st ->
                   liveTimers (clearTimer st') = [] /\
                   timerRef (clearTimer st') = timerRef st).
  { intros st' Hr' Hl'. unfold clearTimer.
    destruct Hone as [Hnil|(id & Hr & Hl)].
    - destruct (timerRef st') eqn:E; simpl; rewrite ?Hl', ?Hnil, ?E; done.
    - rewrite Hr in Hr'. rewrite Hr'. simpl. rewrite Hl', Hl, Hr.
      split; [|done].
      rewrite filter_cons, decide_False by (by intros H; apply H). done. }
  destruct a as [now|now|e d|r|msg| |o]; simpl in *; try done.
  - split; [done|]. right. done.
  - assert (He : e = EvPaused \/ e <> EvPaused)
      by (destruct e; (by left) || (by right)).
    destruct He as [->|He].
    + simpl. destruct (timers_callOnPaused props (clearTimer st)) as [-> ->].
      destruct (Hclr st eq_refl eq_refl) as [-> ->]. split; [done | by left].
    + destruct (timers_onUpdate_stage props e d st He) as [-> ->].
      split; [done|]. right. by destruct e.
  - destruct (Hclr (setSummary (Some r) (setSSE (sseComplete (state st)) st))
                eq_refl eq_refl) as [Hc1 Hc2].
    unfold onComplete. simpl. rewrite Hc1, Hc2. split; [done | by left].
  - destruct (Hclr (setSSE (sseError msg (state st)) st) eq_refl eq_refl)
      as [Hc1 Hc2].
    unfold onError. simpl. rewrite Hc1, Hc2. split; [done | by left].
  - unfold handlePause_request. destruct (isPausing st); split; try done; by right.
  - destruct o as [[|]|]; simpl.
    + destruct (timers_callOnPaused props (clearTimer st)) as [-> ->].
      destruct (Hclr st eq_refl eq_refl) as [-> ->]. split; [done | by left].
    + split; [done | by right].
    + split; [done | by right].
Qed.

(** X4. No interval leaks. If nothing is scheduled when a run starts,
    then throughout the run at most the one interval the ref points at
    is scheduled: exactly that one while the ticker runs, and none at
    all once it has been stopped. *)
Theorem ticker_never_leaks props now st0 (acts : list Action) :
  liveTimers st0 = [] ->
  Forall (fun x => isStart x = false) acts ->
  let st := run props acts (startAnalysis now st0) in
  timerRef st = Some (nextTimer st0) /\
  liveTimers st =
    if tickerRunning st then [nextTimer st0] else [].
Proof.
  intros Hnil Hacts. simpl.
  induction acts as [|a acts IH] using rev_ind.
  - simpl. split; [done|]. unfold tickerRunning. simpl.
    rewrite bool_decide_true by apply list_elem_of_here. by rewrite Hnil.
  - rewrite Forall_app, Forall_singleton in Hacts. destruct Hacts as [Hacts Ha].
    destruct (IH Hacts) as [Hr Hl]. rewrite run_snoc.
    set (st := run props acts (startAnalysis now st0)) in *.
    assert (Hone : liveTimers st = [] \/
                   exists id, timerRef st = Some id /\ liveTimers st = [id]).
    { rewrite Hl. destruct (tickerRunning st); [right; eauto | by left]. }
    destruct (liveTimers_step props st a Ha Hone) as [Hr' Hl'].
    split; [by rewrite Hr'|].
    assert (Htr : tickerRunning (step props st a)
                  = bool_decide (nextTimer st0 ∈ liveTimers (step props st a))).
    { unfold tickerRunning. by rewrite Hr', Hr. }
    rewrite Htr. destruct Hl' as [Hl'|[Hs Hl']].
    + rewrite Hl'. done.
    + rewrite Hl', Hl. destruct (tickerRunning st); [|done].
      by rewrite bool_decide_true by apply list_elem_of_here.
Qed.

End ticker.

(** ** Restarting and pausing *)

Section restart.
Import AnalysisProgress RunSpec ProgressSpec.

Lemma view_clearTimer st :
  sameView (clearTimer st) st.
Proof. unfold clearTimer, sameView. by destruct (timerRef st). Qed.

Lemma view_callOnPaused props st :
  sameView (callOnPaused props st) st.
Proof. unfold callOnPaused, sameView. by destruct (onPaused props). Qed.

Lemma sameView_trans a b c : sameView a b -> sameView b c -> sameView a c.
Proof.
  unfold sameView. intros (?&?&?&?&?&?) (?&?&?&?&?&?).
  repeat split; congruence.
Qed.

Lemma sameView_sym a b : sameView a b -> sameView b a.
Proof. unfold sameView. intros (?&?&?&?&?&?). repeat split; congruence. Qed.

Lemma view_onUpdate props e d a b :
  sameView a b -> sameView (onUpdate props e d a) (onUpdate props e d b).
Proof.
  intros Hab.
  assert (He : e = EvPaused \/ e <> EvPaused)
    by (destruct e; (by left) || (by right)).
  destruct He as [->|He].
  - simpl.
    eapply sameView_trans; [apply view_callOnPaused|].
    eapply sameView_trans; [apply view_clearTimer|].
    eapply sameView_trans; [exact Hab|].
    apply sameView_sym.
    eapply sameView_trans; [apply view_callOnPaused|]. apply view_clearTimer.
  - destruct Hab as (Hs & Hsu & Hp & He' & Ht & Hst).
    unfold onUpdate, sameView.
    destruct e; try done;
      destruct (data_name d) as [n|]; try done;
      destruct (Js.truthy n); try done;
      destruct (snapshotOf d); simpl; rewrite ?Hs; done.
Qed.

Lemma view_step props a b x :
  sameView a b -> sameView (step props a x) (step props b x).
Proof.
  intros Hab. destruct x as [now|now|e d|r|msg| |o]; simpl.
  - unfold sameView. done.
  - destruct Hab as (Hs & Hsu & Hp & He' & Ht & Hst).
    unfold tick, sameView; simpl. rewrite Ht. done.
  - by apply view_onUpdate.
  - destruct Hab as (Hs & Hsu & Hp & He' & Ht & Hst).
    unfold onComplete, clearTimer, sameView; simpl.
    destruct (timerRef a), (timerRef b); simpl; rewrite Hst; done.
  - destruct Hab as (Hs & Hsu & Hp & He' & Ht & Hst).
    unfold onError, clearTimer, sameView; simpl.
    destruct (timerRef a), (timerRef b); simpl; done.
  - unfold handlePause_request, sameView in *.
    destruct (isPausing a), (isPausing b); done.
  - destruct o as [[|]|]; simpl; try done.
    eapply sameView_trans; [apply view_callOnPaused|].
    eapply sameView_trans; [apply view_clearTimer|].
    eapply sameView_trans; [exact Hab|].
    apply sameView_sym.
    eapply sameView_trans; [apply view_callOnPaused|]. apply view_clearTimer.
Qed.

(** X5. A start is a clean slate: whatever state the component was
    in before, the same actions after [startAnalysis] give the same
    stages, summary, snapshot, elapsed time and stream state, hence the
    same percentage, estimate and current stage. Nothing of an earlier
    run shows through. *)
Theorem restart_is_clean_slate props now (st1 st2 : State)
    (acts : list Action) :
  let a := run props acts (startAnalysis now st1) in
  let b := run props acts (startAnalysis now st2) in
  sameView a b /\
  overallPercent a = overallPercent b /\
  shownEstimate props a = shownEstimate props b /\
  currentStage a = currentStage b.
Proof.
  simpl.
  assert (Hv : sameView (run props acts (startAnalysis now st1))
                        (run props acts (startAnalysis now st2))).
  { induction acts as [|x acts IH] using rev_ind.
    - unfold sameView. done.
    - rewrite !run_snoc. by apply view_step. }
  split; [done|].
  destruct Hv as (Hs & Hsu & Hp & He' & Ht & Hst).
  unfold overallPercent, shownEstimate, currentStage.
  by rewrite Hs, Hsu, Hp, Hst.
Qed.

Lemma pausing_step props st a :
  reopensPause a = false ->
  isPausing (step props st a) = isPausing st || isPauseClick a /\
  pauseRequests (step props st a) =
    (pauseRequests st
     + if isPauseClick a && negb (isPausing st) then 1 else 0)%nat.
Proof.
  intros Hre. destruct a as [now|now|e d|r|msg| |o]; simpl in *.
  - rewrite orb_false_r. split; [done | lia].
  - rewrite orb_false_r. split; [done | lia].
  - rewrite orb_false_r. unfold onUpdate, callOnPaused, clearTimer.
    destruct e; simpl;
      destruct (onPaused props), (timerRef st), (data_name d) as [n|];
      simpl; try (split; [done | lia]);
      destruct (Js.truthy n); simpl; try (split; [done | lia]);
      destruct (snapshotOf d); simpl; split; (done || lia).
  - rewrite orb_false_r. unfold onComplete, clearTimer. simpl.
    destruct (timerRef st); simpl; split; (done || lia).
  - rewrite orb_false_r. unfold onError, clearTimer. simpl.
    destruct (timerRef st); simpl; split; (done || lia).
  - unfold handlePause_request.
    destruct (isPausing st) eqn:E; simpl; rewrite ?E; split; (done || lia).
  - destruct o as [[|]|]; try discriminate. rewrite orb_false_r.
    unfold handlePause_settle, callOnPaused, clearTimer.
    destruct (onPaused props), (timerRef st); simpl; split; (done || lia).
Qed.

(** X6. The pausing flag guards the request: as long as no pause
    request is declined or fails, however many times the control is
    clicked at most one request goes out, namely one if the flag was
    clear and there was a click; restarts, stream events and an accepted
    pause do not clear the flag. *)
Theorem pause_request_sent_once props (acts : list Action) (st : State) :
  Forall (fun a => reopensPause a = false) acts ->
  isPausing (run props acts st) = isPausing st || existsb isPauseClick acts /\
  pauseRequests (run props acts st) =
    (pauseRequests st
     + if existsb isPauseClick acts && negb (isPausing st) then 1 else 0)%nat.
Proof.
  intros Hacts. induction acts as [|a acts IH] using rev_ind.
  - simpl. rewrite orb_false_r. split; [done | lia].
  - rewrite Forall_app, Forall_singleton in Hacts. destruct Hacts as [Hacts Ha].
    destruct (IH Hacts) as [IHp IHr].
    rewrite run_snoc.
    destruct (pausing_step props (run props acts st) a Ha) as [Hp Hr].
    rewrite Hp, Hr, IHp, IHr, existsb_app. simpl. rewrite orb_false_r.
    split; [by rewrite orb_assoc|].
    destruct (isPausing st), (existsb isPauseClick acts), (isPauseClick a);
      simpl; lia.
Qed.

End restart.

(** ** The transcript over a session *)

Section transcript.
Import UseChat ChatSpec RunSpec.

Lemma onUpdate_statusOf (event : ChatEventType) (data : ChatEventData)
    (st : State) :
  onUpdate event data st =
    if assistantIdxRef st <? 0 then st
    else match statusOf event data with
         | Some s =>
             setMessages
               (fun prev =>
                  store (Z.to_nat (assistantIdxRef st))
                    (withStatus s (prev !! Z.to_nat (assistantIdxRef st))) prev)
               st
         | None => st
         end.
Proof.
  unfold onUpdate, statusOf.
  destruct (assistantIdxRef st <? 0); [done|].
  destruct event; try done.
  - destruct (data_status data) as [s|]; [|done]. by destruct (Js.truthy s).
  - destruct (data_status data) as [s|], (data_message data) as [m|]; try done;
      by destruct (Js.truthy m).
Qed.

Lemma store_last (init : list Entry) (x v : Entry) :
  store (length init) v (init ++ [x]) = init ++ [v].
Proof.
  rewrite store_in_range by (rewrite length_app; simpl; lia).
  rewrite insert_app_r_alt by lia.
  by replace (length init - length init)%nat with 0%nat by lia.
Qed.

(** Once a message was sent, the transcript ends in the turn the
    tracked index points at. *)
Lemma placeholder_is_last (st : State) :
  placeholderLast st -> 0 <= assistantIdxRef st ->
  exists init m, messages st = init ++ [Turn m] /\
                 Z.to_nat (assistantIdxRef st) = length init.
Proof.
  intros [Hidx Hall] Hge.
  destruct (messages st) as [|x l _] eqn:Hm using rev_ind.
  { simpl in Hidx. lia. }
  rewrite Forall_app, Forall_singleton in Hall. destruct Hall as [_ Hx].
  destruct x as [| |m]; try done.
  exists l, m. split; [done|]. rewrite length_app in Hidx. simpl in Hidx. lia.
Qed.

(** X7. A status event last-write-wins on the in-flight turn: a
    "thinking" event with a status, or a "tool_call" event with a
    message, overwrites the status of the last turn of the transcript,
    whatever status it had, and changes nothing else; any other update
    event changes nothing at all. *)
Theorem status_update_overwrites (acts : list Action)
    (event : ChatEventType) (data : ChatEventData) :
  let st := run acts initial in
  0 <= assistantIdxRef st ->
  exists init m,
    messages st = init ++ [Turn m] /\
    match statusOf event data with
    | Some s =>
        messages (step st (Update event data)) =
          init ++ [Turn {| role := role m; content := content m;
                           citations := citations m;
                           confidence := confidence m;
                           status := Some s; isError := isError m |}]
    | None => step st (Update event data) = st
    end /\
    conversationId (step st (Update event data)) = conversationId st /\
    started (step st (Update event data)) = started st.
Proof.
  simpl. intros Hge.
  destruct (placeholder_is_last _ (assistantIdx_last acts) Hge)
    as (init & m & Hm & Hi).
  exists init, m. split; [done|].
  rewrite onUpdate_statusOf.
  destruct (Z.ltb_spec (assistantIdxRef (run acts initial)) 0); [lia|].
  destruct (statusOf event data) as [s|]; [|done].
  simpl. rewrite Hi, Hm.
  rewrite list_lookup_middle by done. simpl. by rewrite store_last.
Qed.

Lemma status_update_overwrites_witness :
  let st := run [Send "hi";
                 Update EvThinking
                   {| data_status := Some "Searching"; data_tool := None;
                      data_message := None; data_citations := None;
                      data_confidence := None; data_tools_used := None;
                      data_conversation_id := None; data_model := None;
                      data_error := None; data_request_id := None |}] initial in
  let data :=
    {| data_status := None; data_tool := Some "grep";
       data_message := Some "Running grep"; data_citations := None;
       data_confidence := None; data_tools_used := None;
       data_conversation_id := None; data_model := None;
       data_error := None; data_request_id := None |} in
  0 <= assistantIdxRef st /\
  exists init m,
    messages st = init ++ [Turn m] /\
    match statusOf EvToolCall data with
    | Some s =>
        messages (step st (Update EvToolCall data)) =
          init ++ [Turn {| role := role m; content := content m;
                           citations := citations m;
                           confidence := confidence m;
                           status := Some s; isError := isError m |}]
    | None => step st (Update EvToolCall data) = st
    end /\
    conversationId (step st (Update EvToolCall data)) = conversationId st /\
    started (step st (Update EvToolCall data)) = started st.
Proof.
  split; [vm_compute; discriminate|].
  apply (status_update_overwrites
           [Send "hi";
            Update EvThinking
              {| data_status := Some "Searching"; data_tool := None;
                 data_message := None; data_citations := None;
                 data_confidence := None; data_tools_used := None;
                 data_conversation_id := None; data_model := None;
                 data_error := None; data_request_id := None |}]).
  vm_compute; discriminate.
Defined.

(** X8. A completion replaces the in-flight turn, the last of the
    transcript, by the final assistant turn with the result's message,
    citations and confidence and no status, keeps every earlier turn,
    ends streaming, and adopts the result's conversation id unless that
    is empty. *)
Theorem onComplete_finalizes (acts : list Action) (result : ChatResult) :
  let st := run acts initial in
  let st' := step st (Complete result) in
  0 <= assistantIdxRef st ->
  exists init m,
    messages st = init ++ [Turn m] /\
    messages st' =
      init ++ [Turn {| role := Assistant; content := res_message result;
                       citations := Some (res_citations result);
                       confidence := Some (res_confidence result);
                       status := None; isError := None |}] /\
    isStreaming st' = false /\
    conversationId st' =
      (if Js.truthy (res_conversation_id result)
       then Some (res_conversation_id result)
       else conversationId st).
Proof.
  simpl. intros Hge.
  destruct (placeholder_is_last _ (assistantIdx_last acts) Hge)
    as (init & m & Hm & Hi).
  exists init, m. split; [done|].
  unfold onComplete. simpl.
  destruct (Z.ltb_spec (assistantIdxRef (run acts initial)) 0); [lia|].
  destruct (Js.truthy (res_conversation_id result)); simpl;
    rewrite Hi, Hm, store_last; done.
Qed.

Lemma onComplete_finalizes_witness :
  let result := {| res_message := "It parses the arguments.";
                   res_citations := []; res_confidence := None;
                   res_tools_used := []; res_conversation_id := "c-1" |} in
  let st := run [Send "What does main do?"] initial in
  let st' := step st (Complete result) in
  0 <= assistantIdxRef st /\
  exists init m,
    messages st = init ++ [Turn m] /\
    messages st' =
      init ++ [Turn {| role := Assistant; content := res_message result;
                       citations := Some (res_citations result);
                       confidence := Some (res_confidence result);
                       status := None; isError := None |}] /\
    isStreaming st' = false /\
    conversationId st' =
      (if Js.truthy (res_conversation_id result)
       then Some (res_conversation_id result)
       else conversationId st).
Proof.
  split; [vm_compute; discriminate|].
  apply (onComplete_finalizes [Send "What does main do?"]).
  vm_compute; discriminate.
Defined.

End transcript.

Section exchanges.
Import UseChat ChatSpec RunSpec.

Lemma exchanges_snoc (S : list StartInput) (A : list ChatMessage)
    (inp : StartInput) (a : ChatMessage) :
  length A = length S ->
  concat (zip_with exchange (S ++ [inp]) (A ++ [a])) =
    concat (zip_with exchange S A)
      ++ [Turn (userTurn (in_message inp)); Turn a].
Proof.
  intros Hlen. rewrite zip_with_app by done. rewrite concat_app. simpl.
  by rewrite ?app_nil_r.
Qed.

(** The last exchange of a transcript that ends in the turn [m]. *)
Lemma exchanges_last (S : list StartInput) (A : list ChatMessage)
    (init : list Entry) (m : ChatMessage) :
  length A = length S ->
  concat (zip_with exchange S A) = init ++ [Turn m] ->
  exists S' inp A',
    S = S' ++ [inp] /\ A = A' ++ [m] /\ length A' = length S' /\
    init = concat (zip_with exchange S' A') ++ [Turn (userTurn (in_message inp))].
Proof.
  intros Hlen Hm.
  destruct S as [|inp S' _] using rev_ind.
  { destruct A; [|done]. simpl in Hm. by destruct init. }
  destruct A as [|a A' _] using rev_ind.
  { rewrite length_app in Hlen. simpl in Hlen. lia. }
  rewrite !length_app in Hlen. simpl in Hlen.
  assert (Hlen' : length A' = length S') by lia.
  rewrite exchanges_snoc in Hm by done.
  change [Turn (userTurn (in_message inp)); Turn a]
    with ([Turn (userTurn (in_message inp))] ++ [Turn a]) in Hm.
  rewrite app_assoc in Hm. apply app_inj_tail in Hm as [Hinit [= ->]].
  exists S', inp, A'. done.
Qed.

(** Writing an assistant turn over the last entry keeps the exchanges. *)
Lemma transcriptPairs_store (st : State) (a' : ChatMessage) :
  placeholderLast st -> 0 <= assistantIdxRef st ->
  transcriptPairs st -> role a' = Assistant ->
  transcriptPairs
    (setMessages (store (Z.to_nat (assistantIdxRef st)) (Turn a')) st).
Proof.
  intros Hpl Hge (A & Hlen & Hroles & Hm) Hrole.
  destruct (placeholder_is_last st Hpl Hge) as (init & m & Hinit & Hi).
  rewrite Hinit in Hm. symmetry in Hm.
  destruct (exchanges_last _ _ _ _ Hlen Hm) as (S' & inp & A' & HS & -> & Hl' & Hini).
  exists (A' ++ [a']). simpl. rewrite HS in *.
  rewrite !length_app in *. simpl. split; [lia|]. split.
  - rewrite Forall_app, Forall_singleton in *. by destruct Hroles.
  - rewrite Hinit, Hi, store_last, exchanges_snoc by done.
    rewrite Hini, <- app_assoc. done.
Qed.

Lemma transcriptPairs_step (st : State) (a : Action) :
  placeholderLast st -> transcriptPairs st -> transcriptPairs (step st a).
Proof.
  intros Hpl Hp. destruct a as [c|e d|r|err|]; simpl.
  - unfold sendMessage, sendMessageOf. destruct (isStreaming st); [done|].
    destruct Hp as (A & Hlen & Hroles & Hm).
    exists (A ++ [placeholder]). simpl. rewrite !length_app. simpl.
    split; [lia|]. split.
    + rewrite Forall_app, Forall_singleton. done.
    + rewrite exchanges_snoc by done. by rewrite Hm.
  - rewrite onUpdate_statusOf.
    destruct (Z.ltb_spec (assistantIdxRef st) 0) as [|Hge]; [done|].
    destruct (statusOf e d) as [s|]; [|done].
    destruct (placeholder_is_last st Hpl Hge) as (init & m & Hinit & Hi).
    assert (Hrole : role m = Assistant).
    { destruct Hp as (A & Hlen & Hroles & Hm). rewrite Hinit in Hm.
      symmetry in Hm.
      destruct (exchanges_last _ _ _ _ Hlen Hm) as (S' & inp & A' & _ & -> & _).
      rewrite Forall_app, Forall_singleton in Hroles. by destruct Hroles. }
    pose proof (transcriptPairs_store st
      {| role := role m; content := content m; citations := citations m;
         confidence := confidence m; status := Some s; isError := isError m |}
      Hpl Hge Hp Hrole) as Hst.
    destruct Hst as (A & Hlen & Hroles & Hm). exists A. simpl in *.
    split; [done|]. split; [done|]. rewrite <- Hm.
    rewrite Hinit, Hi. by rewrite list_lookup_middle.
  - unfold onComplete. simpl.
    destruct (Z.ltb_spec (assistantIdxRef st) 0) as [|Hge]; [done|].
    pose proof (transcriptPairs_store (streamEnded st)
      {| role := Assistant; content := res_message r;
         citations := Some (res_citations r);
         confidence := Some (res_confidence r);
         status := None; isError := None |} Hpl Hge Hp eq_refl) as Hst.
    by destruct (Js.truthy (res_conversation_id r)).
  - unfold onError. simpl.
    destruct (Z.ltb_spec (assistantIdxRef st) 0) as [|Hge]; [done|].
    by apply (transcriptPairs_store (streamEnded st)).
  - done.
Qed.

Lemma transcriptPairs_initial : transcriptPairs initial.
Proof. exists []. repeat split; constructor. Qed.

(** X9. In every reachable state the transcript is the sequence of
    exchanges of the messages that were sent: for each started stream,
    in order, the user turn with exactly the text sent, followed by one
    assistant turn. Stream events never add, remove or reorder turns
    and never touch a user turn. *)
Theorem transcript_is_exchanges (acts : list Action) :
  let st := run acts initial in
  exists answers : list ChatMessage,
    length answers = length (started st) /\
    Forall (fun a => role a = Assistant) answers /\
    messages st = concat (zip_with exchange (started st) answers) /\
    length (messages st) = (2 * length (started st))%nat.
Proof.
  simpl.
  assert (Hp : transcriptPairs (run acts initial)).
  { induction acts as [|a acts IH] using rev_ind.
    - apply transcriptPairs_initial.
    - unfold run. rewrite fold_left_app. simpl.
      apply transcriptPairs_step; [apply assistantIdx_last | exact IH]. }
  destruct Hp as (A & Hlen & Hroles & Hm).
  exists A. repeat split; try done.
  rewrite Hm. clear Hm Hroles. revert A Hlen.
  induction (started (run acts initial)) as [|inp S IH]; intros [|a A] Hlen;
    simpl in *; try done.
  rewrite IH by lia. lia.
Qed.

End exchanges.

Section conversation_id.
Import UseChat ChatSpec RunSpec.

Lemma fromServer_mono (acts : list Action) (a : Action) (id : option string) :
  fromServer acts id -> fromServer (acts ++ [a]) id.
Proof.
  intros [->|(r & Hin & ->)]; [by left|].
  right. exists r. split; [|done]. apply elem_of_app. by left.
Qed.

Lemma conversationId_handlers (st : State) (a : Action) :
  match a with
  | Complete r =>
      conversationId (step st a) = conversationId st \/
      conversationId (step st a) = Some (res_conversation_id r)
  | _ => conversationId (step st a) = conversationId st
  end.
Proof.
  destruct a as [c|e d|r|err|]; simpl.
  - unfold sendMessage, sendMessageOf. by destruct (isStreaming st).
  - rewrite onUpdate_statusOf.
    destruct (assistantIdxRef st <? 0); [done|]. by destruct (statusOf e d).
  - unfold onComplete. simpl. destruct (assistantIdxRef st <? 0); [by left|].
    destruct (Js.truthy (res_conversation_id r)); [by right | by left].
  - unfold onError. simpl. by destruct (assistantIdxRef st <? 0).
  - done.
Qed.

Lemma started_handlers (st : State) (a : Action) :
  started (step st a) = started st \/
  exists c, a = Send c /\ isStreaming st = false /\
    started (step st a) =
      started st ++ [{| in_message := c;
                        in_conversation_id := conversationId st |}].
Proof.
  destruct a as [c|e d|r|err|]; simpl.
  - unfold sendMessage, sendMessageOf. destruct (isStreaming st) eqn:Hs; [by left|].
    right. by exists c.
  - left. rewrite onUpdate_statusOf.
    destruct (assistantIdxRef st <? 0); [done|]. by destruct (statusOf e d).
  - left. unfold onComplete. simpl. destruct (assistantIdxRef st <? 0); [done|].
    by destruct (Js.truthy (res_conversation_id r)).
  - left. unfold onError. simpl. by destruct (assistantIdxRef st <? 0).
  - by left.
Qed.

(** X10. The client never invents a conversation id. In every
    reachable state the session's id, and the id of every request that
    was started, is absent or is one the server sent in a completion;
    a message sent while no stream is active starts a request carrying
    the text and the session's current id. *)
Theorem conversation_id_from_server (acts : list Action) (c : string) :
  let st := run acts initial in
  fromServer acts (conversationId st) /\
  Forall (fun inp => fromServer acts (in_conversation_id inp)) (started st) /\
  (isStreaming st = false ->
   started (step st (Send c)) =
     started st ++ [{| in_message := c;
                       in_conversation_id := conversationId st |}]).
Proof.
  simpl. split; [|split].
  - induction acts as [|a acts IH] using rev_ind; [by left|].
    unfold run in *. rewrite fold_left_app. simpl.
    pose proof (conversationId_handlers (fold_left step acts initial) a) as H.
    destruct a as [c'|e d|r|err|]; try (rewrite H; by apply fromServer_mono).
    destruct H as [-> | ->]; [by apply fromServer_mono|].
    right. exists r. split; [|done]. apply elem_of_app. right.
    apply list_elem_of_here.
  - induction acts as [|a acts IH] using rev_ind; [constructor|].
    assert (Hid : fromServer acts (conversationId (run acts initial))).
    { clear IH. induction acts as [|b acts IHb] using rev_ind; [by left|].
      unfold run in *. rewrite fold_left_app. simpl.
      pose proof (conversationId_handlers (fold_left step acts initial) b) as H.
      destruct b as [c'|e d|r|err|]; try (rewrite H; by apply fromServer_mono).
      destruct H as [-> | ->]; [by apply fromServer_mono|].
      right. exists r. split; [|done]. apply elem_of_app. right.
      apply list_elem_of_here. }
    unfold run in *. rewrite fold_left_app. simpl.
    assert (IH' : Forall (fun inp => fromServer (acts ++ [a]) (in_conversation_id inp))
                    (started (fold_left step acts initial))).
    { eapply Forall_impl; [|exact IH]. intros inp. apply fromServer_mono. }
    destruct (started_handlers (fold_left step acts initial) a)
      as [-> | (c' & _ & _ & ->)]; [done|].
    rewrite Forall_app, Forall_singleton. split; [done|].
    simpl. by apply fromServer_mono.
  - intros Hs. unfold sendMessage, sendMessageOf. by rewrite Hs.
Qed.

End conversation_id.

(** ** The chat page *)

Section chat_page.
Import UseChat ChatSpec RunSpec.
Variable trim : string -> string.

Lemma page_step_chat (p : ChatPage.State) (a : ChatPage.Action) :
  ChatPage.chat (ChatPage.step trim p a) = ChatPage.chat p \/
  exists b : Action,
    ChatPage.chat (ChatPage.step trim p a) = step (ChatPage.chat p) b /\
    forall c, b = Send c -> Js.truthy c = true.
Proof.
  destruct a as [v| |e d|r|err]; simpl.
  - by left.
  - unfold ChatPage.handleSubmit.
    destruct (Js.truthy (trim (ChatPage.input p))) eqn:Ht; simpl; [|by left].
    destruct (isStreaming (ChatPage.chat p)); [by left|].
    right. exists (Send (trim (ChatPage.input p))). split; [done|].
    by intros c [= <-].
  - right. exists (Update e d). done.
  - right. exists (Complete r). done.
  - right. exists (Error err). done.
Qed.

Lemma exchanges_user_turns (S : list StartInput) (A : list ChatMessage)
    (m : ChatMessage) :
  Turn m ∈ concat (zip_with exchange S A) ->
  (exists inp, inp ∈ S /\ m = userTurn (in_message inp)) \/ m ∈ A.
Proof.
  revert A. induction S as [|inp S IH]; intros [|a A] Hin; simpl in Hin;
    try by apply elem_of_nil in Hin.
  apply elem_of_cons in Hin as [[= ->]|Hin].
  { left. exists inp. split; [apply list_elem_of_here | done]. }
  apply elem_of_cons in Hin as [[= ->]|Hin].
  { right. apply list_elem_of_here. }
  destruct (IH A Hin) as [(inp' & Hi & ->)|Hm].
  - left. exists inp'. split; [by apply list_elem_of_further | done].
  - right. by apply list_elem_of_further.
Qed.

Lemma page_invariant (acts : list ChatPage.Action) :
  let st := ChatPage.chat (ChatPage.run trim acts ChatPage.initial) in
  placeholderLast st /\ transcriptPairs st /\
  Forall (fun inp => Js.truthy (in_message inp) = true) (started st).
Proof.
  simpl. induction acts as [|a acts (Hpl & Hp & Hs)] using rev_ind.
  - split; [apply (assistantIdx_last [])|].
    split; [apply transcriptPairs_initial | constructor].
  - unfold ChatPage.run in *. rewrite fold_left_app. simpl.
    set (p := fold_left (ChatPage.step trim) acts ChatPage.initial) in *.
    destruct (page_step_chat p a) as [-> | (b & -> & Hb)]; [done|].
    split; [by apply placeholderLast_step|].
    split; [by apply transcriptPairs_step|].
    destruct (started_handlers (ChatPage.chat p) b)
      as [-> | (c & -> & _ & ->)]; [done|].
    rewrite Forall_app, Forall_singleton. split; [done|]. simpl. by apply Hb.
Qed.

(** X11. The chat page never sends a blank message. Whatever is typed
    and submitted and whatever the stream delivers, every request that
    was started carries a non-empty text, and every user turn of the
    transcript has non-empty content. *)
Theorem chat_page_sends_no_blank (acts : list ChatPage.Action) :
  let st := ChatPage.chat (ChatPage.run trim acts ChatPage.initial) in
  Forall (fun inp => Js.truthy (in_message inp) = true) (started st) /\
  forall m, Turn m ∈ messages st -> role m = User ->
            Js.truthy (content m) = true.
Proof.
  simpl. destruct (page_invariant acts) as (_ & (A & Hlen & Hroles & Hm) & Hs).
  split; [done|]. intros m Hin Hrole. rewrite Hm in Hin.
  destruct (exchanges_user_turns _ _ _ Hin) as [(inp & Hi & ->)|HA].
  - rewrite Forall_forall in Hs. simpl. apply Hs. by apply list_elem_of_In.
  - rewrite Forall_forall in Hroles.
    apply list_elem_of_In in HA. specialize (Hroles _ HA). congruence.
Qed.

End chat_page.

(** ** The transcript copy *)

Section format_transcript.
Import UseChat FormatTranscript.
Variable showNumber : Q -> string.

Lemma string_app_cons (c : Ascii.ascii) (a b : string) :
  (String c a ++ b)%string = String c (a ++ b)%string.
Proof. reflexivity. Qed.

Lemma string_app_assoc (a b c : string) :
  ((a ++ b) ++ c = a ++ b ++ c)%string.
Proof.
  induction a as [|x a IH]; [done|].
  by rewrite !string_app_cons, IH.
Qed.

Lemma join_head_nonempty (sep x : string) (l : list string) :
  x <> "" -> Js.join sep (x :: l) <> "".
Proof.
  intros Hx. destruct x as [|c x]; [done|].
  destruct l as [|y l]; [done|].
  change (Js.join sep (String c x :: y :: l))
    with (String c x ++ sep ++ Js.join sep (y :: l))%string.
  by rewrite string_app_cons.
Qed.

Lemma join_app (sep : string) (l1 l2 : list string) :
  l1 <> [] -> l2 <> [] ->
  Js.join sep (l1 ++ l2) = (Js.join sep l1 ++ sep ++ Js.join sep l2)%string.
Proof.
  intros H1 H2. induction l1 as [|x l1 IH]; [done|].
  destruct l1 as [|y l1].
  - destruct l2; done.
  - change (Js.join sep ((x :: y :: l1) ++ l2))
      with (x ++ sep ++ Js.join sep ((y :: l1) ++ l2))%string.
    rewrite IH by done.
    change (Js.join sep (x :: y :: l1))
      with (x ++ sep ++ Js.join sep (y :: l1))%string.
    by rewrite !string_app_assoc.
Qed.

Lemma formatMessage_nonempty (m : ChatMessage) :
  formatMessage showNumber m <> "".
Proof.
  unfold formatMessage.
  destruct (role m), (citations m) as [[|c cs]|];
    apply join_head_nonempty; by rewrite string_app_cons.
Qed.

Lemma truthy_nonempty (s : string) : Js.truthy s = true <-> s <> "".
Proof.
  unfold Js.truthy. rewrite negb_true_iff. apply String.eqb_neq.
Qed.

(** X12. The copied transcript leaves out every turn without content,
    so the in-flight placeholder never shows in it; it is empty exactly
    when no turn has content; and the copy of two transcripts that both
    have content is their copies joined by the separator line. *)
Theorem formatChatTranscript_skips_blank (l1 l2 : list ChatMessage)
    (m : ChatMessage) :
  (content m = "" ->
     formatChatTranscript showNumber (l1 ++ m :: l2)
       = formatChatTranscript showNumber (l1 ++ l2)) /\
  formatChatTranscript showNumber (l1 ++ [placeholder])
    = formatChatTranscript showNumber l1 /\
  (formatChatTranscript showNumber l1 = ""
     <-> Forall (fun x => content x = "") l1) /\
  (formatChatTranscript showNumber l1 <> "" ->
   formatChatTranscript showNumber l2 <> "" ->
     formatChatTranscript showNumber (l1 ++ l2)
       = (formatChatTranscript showNumber l1
          ++ (nl ++ nl ++ "---" ++ nl ++ nl)
          ++ formatChatTranscript showNumber l2)%string).
Proof.
  unfold formatChatTranscript.
  assert (Hempty : forall l : list ChatMessage,
    Js.join (nl ++ nl ++ "---" ++ nl ++ nl)%string
      (formatMessage showNumber
         <$> filter (fun x => Js.truthy (content x) = true) l) = ""
    <-> Forall (fun x => content x = "") l).
  { intros l. induction l as [|x l IH]; [split; [constructor | done]|].
    rewrite filter_cons. destruct (decide (Js.truthy (content x) = true)) as [Ht|Hf].
    - split.
      + intros Hj. exfalso. revert Hj. rewrite fmap_cons.
        apply join_head_nonempty, formatMessage_nonempty.
      + intros Hall. inversion_clear Hall as [|? ? Hx Hl].
        apply truthy_nonempty in Ht. done.
    - rewrite IH. split.
      + intros Hl. constructor; [|done].
        destruct (content x) eqn:Hc; [done|]. exfalso. apply Hf.
        apply truthy_nonempty. done.
      + intros Hall. by inversion_clear Hall. }
  split; [|split; [|split]].
  - intros Hm. rewrite !list.filter_app, filter_cons, decide_False; [done|].
    rewrite Hm. done.
  - rewrite list.filter_app, filter_cons, decide_False by done.
    by rewrite filter_nil, app_nil_r.
  - apply Hempty.
  - intros H1 H2. rewrite list.filter_app, fmap_app. apply join_app.
    + intros Hnil. apply H1. by rewrite Hnil.
    + intros Hnil. apply H2. by rewrite Hnil.
Qed.

End format_transcript.

(** ** The delete confirmation *)

Section confirm_delete.
Import ConfirmDeleteDialog.

Lemma confirms_invoke_close st :
  confirms (invoke OnClose st) = confirms st.
Proof.
  unfold confirms, invoke. simpl.
  rewrite list.filter_app, filter_cons, decide_False by done.
  by rewrite filter_nil, app_nil_r.
Qed.

Lemma confirm_budget props (acts : list Action) (st : State) :
  projectName props <> "" ->
  (confirms (run props acts st)
   + (if deleteEnabled props (run props acts st) then 1 else 0)
   <= confirms st + (if deleteEnabled props st then 1 else 0)
      + typedName props acts)%nat.
Proof.
  intros Hname. revert st. induction acts as [|a acts IH]; intros st.
  - simpl. unfold typedName. simpl. lia.
  - change (run props (a :: acts) st) with (run props acts (step props st a)).
    specialize (IH (step props st a)).
    assert (Hstep :
      (confirms (step props st a)
       + (if deleteEnabled props (step props st a) then 1 else 0)
       <= confirms st + (if deleteEnabled props st then 1 else 0)
          + (if decide (a = TypeInput (projectName props)) then 1 else 0))%nat).
    { assert (Hblank : deleteEnabled props (setInputValue "" st) = false).
      { unfold deleteEnabled, setInputValue. cbn [inputValue].
        apply String.eqb_neq. congruence. }
      destruct a as [v|b| |]; cbn [step].
      - change (confirms (setInputValue v st)) with (confirms st).
        unfold deleteEnabled at 1. cbn [inputValue setInputValue].
        destruct (String.eqb_spec v (projectName props)) as [->|Hne].
        + rewrite decide_True by done.
          destruct (deleteEnabled props st); lia.
        + rewrite decide_False by congruence.
          destruct (deleteEnabled props st); lia.
      - rewrite decide_False by done. unfold handleOpenChange.
        destruct b; cbn [negb]; [lia|].
        rewrite confirms_invoke_close.
        change (deleteEnabled props (invoke OnClose (setInputValue "" st)))
          with (deleteEnabled props (setInputValue "" st)).
        rewrite Hblank.
        change (confirms (setInputValue "" st)) with (confirms st). lia.
      - rewrite decide_False by done. rewrite confirms_invoke_close.
        change (deleteEnabled props (invoke OnClose st))
          with (deleteEnabled props st). lia.
      - rewrite decide_False by done.
        destruct (deleteEnabled props st) eqn:He; [|rewrite He; lia].
        unfold handleConfirm. unfold deleteEnabled in He. rewrite He.
        change (deleteEnabled props (invoke OnConfirm (setInputValue "" st)))
          with (deleteEnabled props (setInputValue "" st)).
        rewrite Hblank. unfold confirms, invoke. cbn [calls setInputValue].
        rewrite list.filter_app, length_app, filter_cons, decide_True by done.
        rewrite filter_nil. cbn [length]. lia. }
    unfold typedName in *. rewrite filter_cons.
    destruct (decide (a = TypeInput (projectName props))); simpl; lia.
Qed.

(** X13. A project with a non-empty name is deleted no more often
    than its name was typed: every confirmation uses up the typed name
    (the input is cleared), and closing the dialog clears it too, so
    between two confirmations the name has to be typed again. *)
Theorem confirm_needs_typed_name props (acts : list Action) :
  projectName props <> "" ->
  (confirms (run props acts initial) <= typedName props acts)%nat.
Proof.
  intros Hname. pose proof (confirm_budget props acts initial Hname) as H.
  assert (Hi : deleteEnabled props initial = false).
  { unfold deleteEnabled, initial. cbn [inputValue].
    apply String.eqb_neq. congruence. }
  rewrite Hi in H. change (confirms initial) with 0%nat in H. lia.
Qed.

Lemma confirm_needs_typed_name_witness :
  let props := {| open := true; projectName := "demo" |} in
  let acts := [TypeInput "demo"; ClickDelete; ClickDelete;
               TypeInput "dem"; ClickDelete] in
  projectName props <> "" /\
  (confirms (run props acts initial) <= typedName props acts)%nat.
Proof.
  split; [discriminate|].
  apply (confirm_needs_typed_name {| open := true; projectName := "demo" |}).
  discriminate.
Defined.

End confirm_delete.

(** ** The derived project name *)

Section derived_name.
Import NewProjectSheet.

Lemma string_app_nil_r (a : string) : (a ++ "")%string = a.
Proof.
  induction a as [|c a IH]; [done|]. by rewrite string_app_cons, IH.
Qed.

Lemma split_nonempty (sep : Ascii.ascii) (s : string) :
  exists x xs, Js.split sep s = x :: xs.
Proof.
  induction s as [|c s (x & xs & IH)]; simpl; [by eauto|].
  destruct (Ascii.eqb c sep); [by eauto|]. rewrite IH. by eauto.
Qed.

(** Splitting and joining again gives the string back. *)
Lemma join_split (sep : Ascii.ascii) (s : string) :
  Js.join (String sep "") (Js.split sep s) = s.
Proof.
  induction s as [|c s IH]; [done|]. simpl.
  destruct (split_nonempty sep s) as (x & xs & Hs). rewrite Hs in *.
  destruct (Ascii.eqb_spec c sep) as [->|Hc].
  - change (Js.join (String sep "") ("" :: x :: xs))
      with ("" ++ String sep "" ++ Js.join (String sep "") (x :: xs))%string.
    by rewrite IH.
  - destruct xs as [|y xs].
    + simpl in *. by rewrite IH.
    + change (Js.join (String sep "") (String c x :: y :: xs))
        with (String c x ++ String sep "" ++ Js.join (String sep "") (y :: xs))%string.
      change (Js.join (String sep "") (x :: y :: xs))
        with (x ++ String sep "" ++ Js.join (String sep "") (y :: xs))%string in IH.
      by rewrite string_app_cons, IH.
Qed.

Lemma split_no_slash (s : string) :
  Forall (fun x => hasSlash x = false) (Js.split "/" s).
Proof.
  induction s as [|c s IH]; simpl; [by repeat constructor|].
  destruct (Ascii.eqb c "/") eqn:Hc; [by constructor|].
  destruct (Js.split "/" s) as [|x xs]; [by repeat constructor; simpl; rewrite Hc|].
  inversion_clear IH as [|? ? Hx Hxs].
  constructor; [|done]. simpl. by rewrite Hc, Hx.
Qed.

Lemma stripTrailing_snoc (c : Ascii.ascii) (s : string) :
  Js.stripTrailing c (s ++ String c "") = Js.stripTrailing c s.
Proof.
  induction s as [|a s IH].
  - change ("" ++ String c "")%string with (String c ""). simpl.
    by rewrite Ascii.eqb_refl.
  - rewrite string_app_cons. simpl. by rewrite IH.
Qed.

Lemma stripTrailing_no_trailing (c : Ascii.ascii) (s q : string) :
  Js.stripTrailing c s <> (q ++ String c "")%string.
Proof.
  revert q. induction s as [|a s IH]; intros q; simpl.
  - destruct q; done.
  - destruct (Js.stripTrailing c s) as [|b r] eqn:Hs.
    + destruct (Ascii.eqb_spec a c) as [->|Hne]; [by destruct q|].
      destruct q as [|x [|y q]]; try done.
      change ("" ++ String c "")%string with (String c ""). congruence.
    + destruct q as [|x q].
      * change ("" ++ String c "")%string with (String c ""). congruence.
      * rewrite string_app_cons. intros [= -> Hr]. by apply (IH q).
Qed.

Lemma lastSegment_split (path : string) :
  exists init,
    Js.split "/" (Js.stripTrailing "/" path) = init ++ [lastSegment path].
Proof.
  unfold lastSegment.
  destruct (split_nonempty "/" (Js.stripTrailing "/" path)) as (x & xs & Hs).
  destruct (Js.split "/" (Js.stripTrailing "/" path)) as [|y l _] using rev_ind;
    [done|].
  rewrite last_snoc. by exists l.
Qed.

(** X14. The name derived from a path is its last segment once the
    trailing slashes are dropped: it holds no slash, the stripped path
    ends in it right after a slash or is the name itself, adding a
    trailing slash changes nothing, and it is empty only when nothing
    but slashes was given. A name edited by hand is left alone. *)
Theorem derived_name_is_last_segment (trim : string -> string) (st : State) :
  let path := localPath st in
  hasSlash (lastSegment path) = false /\
  (exists prefix : string,
     Js.stripTrailing "/" path = (prefix ++ lastSegment path)%string /\
     (prefix = "" \/ exists q, prefix = (q ++ "/")%string)) /\
  lastSegment (path ++ "/") = lastSegment path /\
  (lastSegment path = "" <-> Js.stripTrailing "/" path = "") /\
  (if nameManuallyEdited st then deriveName trim st = st
   else name (deriveName trim st) = lastSegment path
        \/ (Js.truthy (trim path) = false /\ name (deriveName trim st) = "")).
Proof.
  simpl. set (path := localPath st).
  destruct (lastSegment_split path) as (init & Hsplit).
  pose proof (join_split "/" (Js.stripTrailing "/" path)) as Hjoin.
  rewrite Hsplit in Hjoin.
  assert (Hdecomp : exists prefix : string,
     Js.stripTrailing "/" path = (prefix ++ lastSegment path)%string /\
     (prefix = "" \/ exists q, prefix = (q ++ "/")%string)).
  { destruct init as [|x init].
    - exists "". split; [by rewrite <- Hjoin | by left].
    - rewrite join_app in Hjoin by done.
      exists (Js.join "/" (x :: init) ++ "/")%string. split.
      + by rewrite string_app_assoc, <- Hjoin.
      + right. by eexists. }
  split; [|split; [done|split; [|split]]].
  - pose proof (split_no_slash (Js.stripTrailing "/" path)) as Hall.
    rewrite Hsplit, Forall_app, Forall_singleton in Hall. by destruct Hall.
  - unfold lastSegment. by rewrite stripTrailing_snoc.
  - split.
    + intros Hnil. destruct Hdecomp as (prefix & Hp & Hpre).
      rewrite Hnil, string_app_nil_r in Hp.
      destruct Hpre as [->|(q & ->)]; [done|].
      by apply stripTrailing_no_trailing in Hp.
    + intros Hnil. unfold lastSegment. by rewrite Hnil.
  - unfold deriveName. destruct (nameManuallyEdited st); [done|].
    destruct (Js.truthy (trim (localPath st))) eqn:Ht; simpl; [by left|].
    right. done.
Qed.

End derived_name.

(** ** Callbacks of a run *)

Section callbacks.
Import AnalysisProgress RunSpec.

Lemma calls_clearTimer st : calls (clearTimer st) = calls st.
Proof. unfold clearTimer. by destruct (timerRef st). Qed.

Lemma calls_callOnPaused props st :
  calls (callOnPaused props st) =
    calls st ++ (if onPaused props then [CbPaused] else []).
Proof.
  unfold callOnPaused. destruct (onPaused props); simpl; [done|].
  by rewrite app_nil_r.
Qed.

Lemma calls_step props st a :
  calls (step props st a) =
    calls st ++ match callbackOf props a with Some cb => [cb] | None => [] end.
Proof.
  destruct a as [now|now|e d|r|msg| |o].
  - simpl. by rewrite app_nil_r.
  - simpl. by rewrite app_nil_r.
  - assert (He : e = EvPaused \/ e <> EvPaused)
      by (destruct e; (by left) || (by right)).
    destruct He as [->|He].
    + simpl. rewrite calls_callOnPaused, calls_clearTimer.
      by destruct (onPaused props).
    + replace (callbackOf props (Update e d)) with (@None Callback)
        by (by destruct e).
      rewrite app_nil_r. simpl. unfold onUpdate.
      destruct e; try done;
        destruct (data_name d) as [n|]; try done;
        destruct (Js.truthy n); try done;
        by destruct (snapshotOf d).
  - simpl. unfold onComplete. simpl. by rewrite calls_clearTimer.
  - simpl. unfold onError. simpl. by rewrite calls_clearTimer.
  - simpl. rewrite app_nil_r. unfold handlePause_request.
    by destruct (isPausing st).
  - destruct o as [[|]|]; simpl.
    + rewrite calls_callOnPaused, calls_clearTimer.
      by destruct (onPaused props).
    + by rewrite app_nil_r.
    + by rewrite app_nil_r.
Qed.

(** X15. The component calls back once per terminal event and never
    otherwise: the callbacks invoked over a run are, in order, one
    [onComplete] per completion, one [onError] per error and, when a
    pause handler was supplied, one [onPaused] per pause notification
    and per accepted pause request; stage updates, ticks, restarts,
    clicks and declined requests invoke nothing. *)
Theorem callbacks_follow_terminal_events props (acts : list Action)
    (st : State) :
  calls (run props acts st) = calls st ++ omap (callbackOf props) acts.
Proof.
  induction acts as [|a acts IH] using rev_ind.
  - simpl. by rewrite app_nil_r.
  - rewrite run_snoc, calls_step, IH, omap_app, <- app_assoc. f_equal.
Qed.

End callbacks.

(** ** Loading a project *)

Section use_project.
Import UseProject.

Lemma project_kept (st : State) (a : Action) :
  (is_Some (project st) -> is_Some (project (step st a))) /\
  (is_Some (st_error st) -> is_Some (st_error (step st a))).
Proof.
  destruct a as [|[body|err]]; simpl; [done|..].
  - unfold settle. destruct (success body), (data body); simpl; split; eauto.
  - unfold settle. simpl. split; eauto.
Qed.

(** X16. Loading never clears what is shown: over any sequence of
    loads and settlements a project once loaded stays set (a failed
    reload keeps the old project) and an error once set stays set (a
    later successful load does not remove it); and whenever a request
    settles, however it settles, loading ends. *)
Theorem useProject_never_clears (acts : list Action) (st : State)
    (o : Outcome) :
  (is_Some (project st) -> is_Some (project (run acts st))) /\
  (is_Some (st_error st) -> is_Some (st_error (run acts st))) /\
  loading (run (acts ++ [Settle o]) st) = false /\
  (is_Some (project (run (acts ++ [Settle o]) st)) \/
   is_Some (st_error (run (acts ++ [Settle o]) st))).
Proof.
  assert (Hkeep : forall acts st,
            (is_Some (project st) -> is_Some (project (run acts st))) /\
            (is_Some (st_error st) -> is_Some (st_error (run acts st)))).
  { clear. intros acts. induction acts as [|a acts IH]; intros st; [done|].
    change (run (a :: acts) st) with (run acts (step st a)).
    destruct (project_kept st a) as [Hp He], (IH (step st a)) as [Hp' He'].
    split; eauto. }
  destruct (Hkeep acts st) as [Hp He].
  split; [done|]. split; [done|].
  unfold run. rewrite fold_left_app. simpl. split; [done|].
  unfold settle. destruct o as [body|err]; simpl.
  - destruct (success body), (data body); simpl; eauto.
  - right. eauto.
Qed.

End use_project.

(** ** Further worked runs *)

Section more_runs.
Import AnalysisProgress RunSpec.

Lemma ticker_runs_until_terminal_witness :
  let acts := [Update EvStage (Examples.stageData "A" "running" 0);
               Tick 1500; PauseClick; PauseSettle (Resolved false)] in
  let a := Error "boom" in
  let rest := [Tick 2000; Update EvStage (Examples.stageData "B" "running" 0)] in
  Forall (fun x => isStart x = false /\ stopsTicker x = false) acts /\
  stopsTicker a = true /\
  Forall (fun x => isStart x = false) rest /\
  tickerRunning (run Examples.props0 acts (startAnalysis 1000 (initial 1000)))
    = true /\
  tickerRunning
    (run Examples.props0 (acts ++ a :: rest) (startAnalysis 1000 (initial 1000)))
    = false.
Proof.
  cbv zeta.
  assert (H1 : Forall (fun x => isStart x = false /\ stopsTicker x = false)
                 [Update EvStage (Examples.stageData "A" "running" 0);
                  Tick 1500; PauseClick; PauseSettle (Resolved false)])
    by (repeat constructor).
  assert (H3 : Forall (fun x => isStart x = false)
                 [Tick 2000; Update EvStage (Examples.stageData "B" "running" 0)])
    by (repeat constructor).
  split; [exact H1|]. split; [reflexivity|]. split; [exact H3|].
  apply (ticker_runs_until_terminal Examples.props0 1000 (initial 1000)
           _ _ (Error "boom") H1 eq_refl H3).
Defined.

Lemma ticker_never_leaks_witness :
  let acts := [Update EvStage (Examples.stageData "A" "running" 0);
               Tick 1500;
               Complete {| sum_project_id := "p1"; sum_sections := 3;
                           sum_stages_ok := 1; sum_stages_failed := 0;
                           sum_duration_ms := 1500 |}] in
  let st := run Examples.props0 acts (startAnalysis 1000 (initial 1000)) in
  liveTimers (initial 1000) = [] /\
  Forall (fun x => isStart x = false) acts /\
  timerRef st = Some (nextTimer (initial 1000)) /\
  liveTimers st = if tickerRunning st then [nextTimer (initial 1000)] else [].
Proof.
  cbv zeta.
  assert (H : Forall (fun x => isStart x = false)
                [Update EvStage (Examples.stageData "A" "running" 0);
                 Tick 1500;
                 Complete {| sum_project_id := "p1"; sum_sections := 3;
                             sum_stages_ok := 1; sum_stages_failed := 0;
                             sum_duration_ms := 1500 |}])
    by (repeat constructor).
  split; [reflexivity|]. split; [exact H|].
  apply (ticker_never_leaks Examples.props0 1000 (initial 1000) _ eq_refl H).
Defined.

Lemma pause_request_sent_once_witness :
  let acts := [PauseClick; Tick 1500; PauseClick; PauseClick;
               PauseSettle (Resolved true); PauseClick] in
  Forall (fun a => reopensPause a = false) acts /\
  isPausing (run Examples.props0 acts Examples.mounted) = true /\
  pauseRequests (run Examples.props0 acts Examples.mounted) = 1%nat.
Proof.
  cbv zeta.
  assert (H : Forall (fun a => reopensPause a = false)
                [PauseClick; Tick 1500; PauseClick; PauseClick;
                 PauseSettle (Resolved true); PauseClick])
    by (repeat constructor).
  split; [exact H|].
  exact (pause_request_sent_once Examples.props0 _ Examples.mounted H).
Defined.

Lemma formatDuration_forms_witness :
  Js.roundHalfUp 125000 < 2 ^ 53 /\
  ((Js.roundHalfUp 125000 < 1000 /\
    formatDuration Examples.showSafe (Js.Fin 125000)
      = (Examples.showSafe (Js.ofZ (Js.roundHalfUp 125000)) ++ "ms")%string)
   \/
   (exists s : Z,
      1 <= s < 60 /\
      1000 * s <= Js.roundHalfUp 125000 < 1000 * (s + 1) /\
      formatDuration Examples.showSafe (Js.Fin 125000)
        = (Examples.showSafe (Js.ofZ s) ++ "s")%string)
   \/
   (exists m r : Z,
      1 <= m /\ 0 <= r < 60 /\
      1000 * (60 * m + r) <= Js.roundHalfUp 125000
        < 1000 * (60 * m + r + 1) /\
      formatDuration Examples.showSafe (Js.Fin 125000)
        = (Examples.showSafe (Js.ofZ m) ++ "m "
           ++ Examples.showSafe (Js.ofZ r) ++ "s")%string)).
Proof.
  split; [reflexivity|].
  apply (formatDuration_forms Examples.showSafe 125000). reflexivity.
Defined.

(** Durations as the component prints them. *)
Example formatDuration_samples :
  formatDuration Examples.showSafe (Js.Fin 999) = "999ms" /\
  formatDuration Examples.showSafe (Js.Fin (2999 # 2)) = "1s" /\
  formatDuration Examples.showSafe (Js.Fin 59999) = "59s" /\
  formatDuration Examples.showSafe (Js.Fin 125000) = "2m 5s" /\
  formatDuration Examples.showSafe (Js.Fin (-40)) = "-40ms" /\
  formatDuration Examples.showSafe
    (Js.mul (Js.Fin (inject_Z (2 ^ 60))) (Js.Fin 1))
  = "19215358410114m 7s".
Proof. repeat split; vm_compute; reflexivity. Qed.

(** Names derived from paths. *)
Example lastSegment_samples :
  NewProjectSheet.lastSegment "/Users/you/projects/your-repo" = "your-repo" /\
  NewProjectSheet.lastSegment "/Users/you/projects/your-repo//" = "your-repo" /\
  NewProjectSheet.lastSegment "repo" = "repo" /\
  NewProjectSheet.lastSegment "///" = "".
Proof. repeat split; vm_compute; reflexivity. Qed.

End more_runs.
